(** * The trigger runner of the Checkly CLI

    A shallow embedding of [packages/cli/src/services/check-trigger-runner.ts]
    (class [CheckRunner]) and of the request type of
    [packages/cli/src/rest/test-sessions.ts].

    The runner is asynchronous JavaScript: one thread, an event loop, promises.
    It is modelled as a deterministic machine.  The environment feeds it one
    completion at a time (a promise of a collaborator settles, the broker
    delivers a message, a timer fires); the machine runs the code that this
    completion wakes up until every coroutine is suspended again, and records
    every effect it performs (calls to collaborators, emitted events, timers
    armed and cleared, rejected handlers) in a trace.

    Around the runner the file embeds its caller, the [trigger] command of
    [packages/cli/src/commands/trigger.ts] (the run location and the
    listeners that set the exit code), the project and the session of
    [packages/cli/src/internal-constructs/project.ts], and the templates of
    [src/templates/browser.js]. *)

From Stdlib Require Import Ascii String ZArith.
From stdpp Require Import gmap strings list fin_maps.

Set Warnings "-register-all".

(** ** JavaScript values *)

(** What a [throw] or a rejected promise carries. *)
Inductive exn :=
| SyntaxError
| TypeError
| Failure (reason : string).

#[global] Instance exn_eq_dec : EqDecision exn.
Proof. solve_decision. Defined.

(** The result of code that may throw. *)
Definition throws (A : Type) : Type := exn + A.

#[global] Instance throws_ret : MRet throws := λ A a, inr a.
#[global] Instance throws_bind : MBind throws := λ A B k x,
  match x with
  | inl e => inl e
  | inr a => k a
  end.

(** A JSON document, the result of [JSON.parse].  Numbers are kept integral;
    the runner never computes with them.  An object is the list of its own
    properties, in property order; the prototype chain is not modelled. *)
Inductive json :=
| JNull
| JBool (b : bool)
| JNum (n : Z)
| JStr (s : string)
| JArr (items : list json)
| JObj (props : list (string * json)).

(** A JavaScript value as the runner sees it: [None] is [undefined]. *)
Definition jsval := option json.

Section Objects.
Context {V : Type}.

(** [obj[key]] on own properties. *)
Fixpoint obj_get (key : string) (obj : list (string * V)) : option V :=
  match obj with
  | [] => None
  | (k, v) :: rest => if String.eqb k key then Some v else obj_get key rest
  end.

(** [obj[key] = v]: an existing property keeps its place, a new one is
    added last. *)
Fixpoint obj_set (key : string) (v : V) (obj : list (string * V))
  : list (string * V) :=
  match obj with
  | [] => [(key, v)]
  | (k, w) :: rest =>
      if String.eqb k key then (k, v) :: rest
      else (k, w) :: obj_set key v rest
  end.

(** [Object.keys(obj)]. *)
Definition obj_keys (obj : list (string * V)) : list string := map fst obj.
End Objects.

(** [v.name] for the property names the runner reads ([result], [assets],
    [region], [logPath], [checkRunDataPath], [hasFailures]): a [TypeError] on
    [null] and [undefined], the property of an object, [undefined] on any
    other value. *)
Definition get_prop (v : jsval) (name : string) : throws jsval :=
  match v with
  | None | Some JNull => inl TypeError
  | Some (JObj props) => inr (obj_get name props)
  | Some _ => inr None
  end.

(** [v.name = x] on the object [v]. *)
Definition set_prop (v : json) (name : string) (x : json) : json :=
  match v with
  | JObj props => JObj (obj_set name x props)
  | _ => v
  end.

(** The truth value of [v] in a condition. *)
Definition truthy (v : jsval) : bool :=
  match v with
  | None | Some JNull => false
  | Some (JBool b) => b
  | Some (JNum n) => negb (n =? 0)%Z
  | Some (JStr s) => negb (String.eqb s "")
  | Some (JArr _) | Some (JObj _) => true
  end.

(** The property name a key expression denotes: [obj[undefined]] reads the
    property called "undefined". *)
Definition prop_name (k : option string) : string :=
  match k with
  | Some s => s
  | None => "undefined"
  end.

(** [topic.split('/')]. *)
Fixpoint split (topic : string) : list string :=
  match topic with
  | EmptyString => [EmptyString]
  | String c rest =>
      if Ascii.eqb c "/"%char then EmptyString :: split rest
      else match split rest with
           | [] => [String c EmptyString]
           | seg :: segs => String c seg :: segs
           end
  end.

(** ** The data of a run *)

Inductive RunLocation :=
| PUBLIC (region : string)
| PRIVATE (id slugName : string).

(** The payload of [testSessions.trigger]. *)
Record TriggerTestSessionRequest := {
  shouldRecord : bool;
  runLocation : RunLocation;
  checkRunSuiteId : string;
  req_targetTags : list string;
}.

(** A check of the trigger response.  The runner reads its [id] only. *)
Record check := Check {
  check_id : string;
  check_body : json;
}.

(** The fields of [CheckRunner] that the constructor sets and nothing
    changes afterwards. *)
Record CheckRunner := {
  accountId : string;
  apiKey : string;
  targetTags : list string;
  location : RunLocation;
  timeout : Z;
  verbose : bool;
}.

(** [enum Events], each with the arguments it is emitted with.  The [check]
    argument is the result of [checks.find], which may be [undefined]. *)
Inductive event :=
| CHECK_REGISTERED
| CHECK_INPROGRESS (c : option check)
| CHECK_FAILED (c : option check) (message : json)
| CHECK_SUCCESSFUL (c : option check) (result : json)
| CHECK_FINISHED (c : option check)
| RUN_STARTED (checks : list check)
| RUN_FINISHED
| ERROR (err : exn).

(** [objectFlip]: for each key in turn, [ret[obj[key]] = key]. *)
Definition objectFlip (obj : list (string * string)) : list (string * string) :=
  fold_left (λ ret key, obj_set (prop_name (obj_get key obj)) key ret)
            (obj_keys obj) [].

(** [checks.find(check => check.id === checkId)]. *)
Definition find_check (checkId : option string) (checks : list check)
  : option check :=
  match checkId with
  | None => None
  | Some i => List.find (λ c, String.eqb (check_id c) i) checks
  end.

(** The value [this.checks] resolves to: the checks and the flipped map. *)
Definition correlation : Type := list check * list (string * string).

(** Lines 123-131 of the message handler: from the topic to the run id, the
    kind of message and the check. *)
Definition topic_run_id (topic : string) : option string := split topic !! 4.
Definition topic_subtopic (topic : string) : option string := split topic !! 5.

Definition correlate (known : correlation) (checkRunId : option string)
  : option check :=
  find_check (obj_get (prop_name checkRunId) (snd known)) (fst known).

(** ** The state of a run *)

(** A promise held in a field: not assigned yet, pending, or settled. *)
Inductive promise (A : Type) :=
| Unset
| Pending
| Resolved (a : A)
| Rejected (e : exn).
Arguments Unset {A}.
Arguments Pending {A}.
Arguments Resolved {A} a.
Arguments Rejected {A} e.

(** The closure of [allChecksFinished(numChecks)] together with the promise
    it returns.  With [numChecks = 0] the promise is resolved at once and
    no listener is attached. *)
Record counter := Counter {
  numChecks : nat;
  finishedCheckCount : nat;
  resolved : bool;
}.

(** Where the coroutine [run()] is suspended, or how it ended. *)
Inductive phase :=
| Connecting      (* await SocketClient.connect() *)
| Subscribing     (* await socketClient.subscribe(...) *)
| Triggering      (* await this.checks, the trigger request in flight *)
| Waiting         (* await this.allChecksFinishedPromise *)
| Ending          (* await socketClient.end() in the finally block *)
| Returned
| Threw (e : exn).

#[global] Instance phase_eq_dec : EqDecision phase.
Proof. solve_decision. Defined.

Inductive asset := Logs | CheckRunData.

(** A message handler suspended on an asset fetch, with its local variables. *)
Record fetch := Fetch {
  awaited : asset;
  f_check : option check;
  f_result : json;
  f_region : jsval;
  f_checkRunDataPath : jsval;
}.

(** A message handler suspended on [await this.checks]: its arguments,
    the raw message parsed. *)
Record parked := Parked {
  p_topic : string;
  p_message : json;
}.

(** Every effect of the runner, in the order it happens. *)
Inductive action :=
| Connect                                     (* SocketClient.connect() *)
| OnMessage                                   (* socketClient.on('message', ...) *)
| Subscribe (topic : string)                  (* socketClient.subscribe(topic) *)
| Subscribed                                  (* ... and its promise resolved *)
| Trigger (req : TriggerTestSessionRequest)   (* testSessions.trigger(req) *)
| SetTimeout (handle : nat) (callback : option string * check) (ms : Z)
| ClearTimeout (handle : option nat)
| Emit (e : event)
| GetLogs (handler : nat) (region path : jsval)
| GetCheckRunData (handler : nat) (region path : jsval)
| End                                         (* socketClient.end() *)
| HandlerThrew (e : exn).                     (* a message handler rejected *)

Record state := State {
  run_phase : phase;
  checks : promise correlation;                   (* this.checks *)
  timeouts : gmap (option string) nat;            (* this.timeouts *)
  timers : gmap nat (option string * check);      (* armed timers of the event loop *)
  allChecksFinishedPromise : option counter;
  listening : bool;                               (* the handler is attached *)
  parked_handlers : list parked;
  fetches : gmap nat fetch;
  handlers : nat;                                 (* handlers that reached a fetch *)
  trace : list action;
}.

Definition set_phase (p : phase) (s : state) : state :=
  State p (checks s) (timeouts s) (timers s) (allChecksFinishedPromise s)
        (listening s) (parked_handlers s) (fetches s) (handlers s) (trace s).
Definition set_checks (c : promise correlation) (s : state) : state :=
  State (run_phase s) c (timeouts s) (timers s) (allChecksFinishedPromise s)
        (listening s) (parked_handlers s) (fetches s) (handlers s) (trace s).
Definition set_timeouts (t : gmap (option string) nat) (s : state) : state :=
  State (run_phase s) (checks s) t (timers s) (allChecksFinishedPromise s)
        (listening s) (parked_handlers s) (fetches s) (handlers s) (trace s).
Definition set_timers (t : gmap nat (option string * check)) (s : state) : state :=
  State (run_phase s) (checks s) (timeouts s) t (allChecksFinishedPromise s)
        (listening s) (parked_handlers s) (fetches s) (handlers s) (trace s).
Definition set_counter (c : option counter) (s : state) : state :=
  State (run_phase s) (checks s) (timeouts s) (timers s) c
        (listening s) (parked_handlers s) (fetches s) (handlers s) (trace s).
Definition set_listening (b : bool) (s : state) : state :=
  State (run_phase s) (checks s) (timeouts s) (timers s)
        (allChecksFinishedPromise s) b (parked_handlers s) (fetches s)
        (handlers s) (trace s).
Definition set_parked (l : list parked) (s : state) : state :=
  State (run_phase s) (checks s) (timeouts s) (timers s)
        (allChecksFinishedPromise s) (listening s) l (fetches s) (handlers s)
        (trace s).
Definition set_fetches (f : gmap nat fetch) (n : nat) (s : state) : state :=
  State (run_phase s) (checks s) (timeouts s) (timers s)
        (allChecksFinishedPromise s) (listening s) (parked_handlers s) f n
        (trace s).
Definition log (a : action) (s : state) : state :=
  State (run_phase s) (checks s) (timeouts s) (timers s)
        (allChecksFinishedPromise s) (listening s) (parked_handlers s)
        (fetches s) (handlers s) (trace s ++ [a]).

(** The events of a trace, in order. *)
Definition events_of (l : list action) : list event :=
  omap (λ a, match a with Emit e => Some e | _ => None end) l.
Definition events (s : state) : list event := events_of (trace s).

(** What the environment hands to the event loop. *)
Inductive payload :=
| Garbled                 (* JSON.parse throws on the raw message *)
| Json (message : json).

Inductive input :=
| ConnectDone (failure : option exn)
| SubscribeDone (failure : option exn)
| TriggerDone (response : throws (list check * list (string * string)))
| Message (topic : string) (rawMessage : payload)
| TimerFired (handle : nat)
| FetchDone (handler : nat) (response : throws json)
| EndDone (failure : option exn).

(** ** The code of [CheckRunner] *)

Section Runner.
(** The runner object and the value [uuid.v4()] returns in [run()]. *)
Variable self : CheckRunner.
Variable suite : string.

Definition results_topic : string :=
  "account/" +:+ accountId self +:+ "/ad-hoc-check-results/" +:+ suite +:+ "/+/+".

Definition trigger_request : TriggerTestSessionRequest :=
  {| shouldRecord := true;
     runLocation := location self;
     checkRunSuiteId := suite;
     req_targetTags := targetTags self |}.

(** [allChecksFinished(numChecks)], up to the promise it returns. *)
Definition allChecksFinished (n : nat) : counter := Counter n 0 (Nat.eqb n 0).

(** The listener [allChecksFinished] attaches to [CHECK_FINISHED]. *)
Definition count_finished (c : counter) : counter :=
  if Nat.eqb (numChecks c) 0 then c
  else
    let n := S (finishedCheckCount c) in
    Counter (numChecks c) n (resolved c || Nat.eqb n (numChecks c)).

(** [this.emit(...)]: the event goes out, the runner's own listener runs. *)
Definition emit (e : event) (s : state) : state :=
  let s := log (Emit e) s in
  match e with
  | CHECK_FINISHED _ =>
      set_counter (count_finished <$> allChecksFinishedPromise s) s
  | _ => s
  end.

Definition disableTimeout (checkRunId : option string) (s : state) : state :=
  let timeout := timeouts s !! checkRunId in
  let s := log (ClearTimeout timeout) s in
  let s := match timeout with
           | Some h => set_timers (delete h (timers s)) s
           | None => s
           end in
  set_timeouts (delete checkRunId (timeouts s)) s.

(** The callback given to [setTimeout] in [scheduleAllChecks]. *)
Definition on_timeout (checkRunId : option string) (c : check) (s : state)
  : state :=
  let s := set_timeouts (delete checkRunId (timeouts s)) s in
  let s := emit (CHECK_FAILED (Some c) (JStr "Reached timeout")) s in
  emit (CHECK_FINISHED (Some c)) s.

(** The loop of [scheduleAllChecks]; [h] is the handle the next
    [setTimeout] returns. *)
Fixpoint arm (cs : list check) (checkRunIds : list (string * string))
              (h : nat) (s : state) : state :=
  match cs with
  | [] => s
  | c :: rest =>
      let checkRunId := obj_get (check_id c) checkRunIds in
      let s := log (SetTimeout h (checkRunId, c) (timeout self * 1000)) s in
      let s := set_timers (<[h := (checkRunId, c)]> (timers s)) s in
      let s := set_timeouts (<[checkRunId := h]> (timeouts s)) s in
      arm rest checkRunIds (S h) s
  end.

(** [scheduleAllChecks] from the trigger response on. *)
Definition scheduleAllChecks_resume
    (response : list check * list (string * string)) (s : state) : state :=
  let '(cs, checkRunIds) := response in
  let s := set_counter (Some (allChecksFinished (length cs))) s in
  let s := arm cs checkRunIds 0 s in
  let s := emit (RUN_STARTED cs) s in
  set_checks (Resolved (cs, objectFlip checkRunIds)) s.

(** Lines 140-141: the locals of the [run-end] branch. *)
Definition run_end_locals (message : json)
  : throws (json * jsval * jsval * jsval) :=
  result ← get_prop (Some message) "result";
  assets ← get_prop result "assets";
  region ← get_prop assets "region";
  logPath ← get_prop assets "logPath";
  checkRunDataPath ← get_prop assets "checkRunDataPath";
  match result with
  | Some r => inr (r, region, logPath, checkRunDataPath)
  | None => inl TypeError
  end.

(** [result.hasFailures], on a [result] that has an [assets] property. *)
Definition hasFailures (result : json) : jsval :=
  match result with
  | JObj props => obj_get "hasFailures" props
  | _ => None
  end.

(** [path && (this.verbose || result.hasFailures)]. *)
Definition wanted (path : jsval) (result : json) : bool :=
  truthy path && (verbose self || truthy (hasFailures result)).

(** Lines 148-149. *)
Definition finish (c : option check) (result : json) (s : state) : state :=
  emit (CHECK_FINISHED c) (emit (CHECK_SUCCESSFUL c result) s).

Definition suspend (k : fetch) (s : state) : state :=
  set_fetches (<[handlers s := k]> (fetches s)) (S (handlers s)) s.

(** Lines 145-149. *)
Definition data_then_finish (c : option check) (result : json)
    (region checkRunDataPath : jsval) (s : state) : state :=
  if wanted checkRunDataPath result then
    suspend (Fetch CheckRunData c result region checkRunDataPath)
            (log (GetCheckRunData (handlers s) region checkRunDataPath) s)
  else finish c result s.

Definition is_subtopic (subtopic : option string) (kind : string) : bool :=
  match subtopic with
  | Some t => String.eqb t kind
  | None => false
  end.

(** The message handler past [await this.checks], [known] being the value
    of [this.checks]; the locals [checkRunId] and [subtopic] of lines 124-125
    are functions of the topic. *)
Definition handler_body (known : correlation) (m : parked) (s : state)
  : state :=
  let checkRunId := topic_run_id (p_topic m) in
  let subtopic := topic_subtopic (p_topic m) in
  let check := correlate known checkRunId in
  match timeouts s !! checkRunId with
  | None => s
  | Some _ =>
      if is_subtopic subtopic "run-start" then
        emit (CHECK_INPROGRESS check) s
      else if is_subtopic subtopic "run-end" then
        let s := disableTimeout checkRunId s in
        match run_end_locals (p_message m) with
        | inl e => log (HandlerThrew e) s
        | inr (result, region, logPath, checkRunDataPath) =>
            if wanted logPath result then
              suspend (Fetch Logs check result region checkRunDataPath)
                      (log (GetLogs (handlers s) region logPath) s)
            else data_then_finish check result region checkRunDataPath s
        end
      else if is_subtopic subtopic "error" then
        let s := disableTimeout checkRunId s in
        let s := emit (CHECK_FAILED check (p_message m)) s in
        emit (CHECK_FINISHED check) s
      else s
  end.

(** The message handler up to [await this.checks]. *)
Definition on_message (topic : string) (rawMessage : payload) (s : state)
  : state :=
  match rawMessage with
  | Garbled => log (HandlerThrew SyntaxError) s
  | Json message =>
      let m := Parked topic message in
      match checks s with
      | Unset => log (HandlerThrew TypeError) s
      | Pending => set_parked (parked_handlers s ++ [m]) s
      | Resolved known => handler_body known m s
      | Rejected e => log (HandlerThrew e) s
      end
  end.

(** A handler resumes from its asset fetch. *)
Definition on_fetched (h : nat) (response : throws json) (s : state)
  : state :=
  match fetches s !! h with
  | None => s
  | Some k =>
      let s := set_fetches (delete h (fetches s)) (handlers s) s in
      match response with
      | inl e => log (HandlerThrew e) s
      | inr v =>
          match awaited k with
          | Logs =>
              data_then_finish (f_check k) (set_prop (f_result k) "logs" v)
                               (f_region k) (f_checkRunDataPath k) s
          | CheckRunData =>
              finish (f_check k) (set_prop (f_result k) "checkRunData" v) s
          end
      end
  end.

(** [run()] resumes from [await this.allChecksFinishedPromise]. *)
Definition resume_run (s : state) : state :=
  match run_phase s, allChecksFinishedPromise s with
  | Waiting, Some c =>
      if resolved c then set_phase Ending (log End (emit RUN_FINISHED s))
      else s
  | _, _ => s
  end.

(** The code one completion wakes up, except the last part of [run()]. *)
Definition react (i : input) (s : state) : state :=
  match i, run_phase s with
  | ConnectDone (Some e), Connecting => set_phase (Threw e) s
  | ConnectDone None, Connecting =>
      let s := set_listening true (log OnMessage s) in
      set_phase Subscribing (log (Subscribe results_topic) s)
  | SubscribeDone (Some e), Subscribing => set_phase (Threw e) s
  | SubscribeDone None, Subscribing =>
      let s := log (Trigger trigger_request) (log Subscribed s) in
      set_phase Triggering (set_checks Pending s)
  | TriggerDone (inl e), Triggering =>
      let s := set_checks (Rejected e) s in
      let s := set_phase Ending (log End (emit (ERROR e) s)) in
      fold_left (λ s _, log (HandlerThrew e) s) (parked_handlers s)
                (set_parked [] s)
  | TriggerDone (inr response), Triggering =>
      let s := set_phase Waiting (scheduleAllChecks_resume response s) in
      let known := (fst response, objectFlip (snd response)) in
      fold_left (λ s m, handler_body known m s) (parked_handlers s)
                (set_parked [] s)
  | EndDone None, Ending => set_phase Returned s
  | EndDone (Some e), Ending => set_phase (Threw e) s
  | Message topic rawMessage, _ =>
      if listening s then on_message topic rawMessage s else s
  | TimerFired h, _ =>
      match timers s !! h with
      | Some (checkRunId, c) =>
          on_timeout checkRunId c (set_timers (delete h (timers s)) s)
      | None => s
      end
  | FetchDone h response, _ => on_fetched h response s
  | _, _ => s
  end.

(** One turn of the event loop. *)
Definition step (s : state) (i : input) : state := resume_run (react i s).

(** [run()] up to its first [await]. *)
Definition init : state :=
  State Connecting Unset ∅ ∅ None false [] ∅ 0 [Connect].

Definition exec (ins : list input) : state := fold_left step ins init.
End Runner.

Arguments emit e s : simpl never.

(** ** Counting events *)

Definition is_check_finished (e : event) : bool :=
  match e with CHECK_FINISHED _ => true | _ => false end.
Definition is_run_finished (e : event) : bool :=
  match e with RUN_FINISHED => true | _ => false end.

Definition count (p : event → bool) (l : list event) : nat :=
  length (List.filter p l).

(** How many [CHECK_FINISHED] events were emitted so far. *)
Definition finished (s : state) : nat := count is_check_finished (events s).

Ltac simpl_state :=
  cbn [run_phase checks timeouts timers allChecksFinishedPromise listening
       parked_handlers fetches handlers trace set_phase set_checks
       set_timeouts set_timers set_counter set_listening set_parked
       set_fetches log] in *.

(** ** The bookkeeping invariant *)

(** Every entry of the table names an armed timer of that run id. *)
Definition table_ok (s : state) : Prop :=
  ∀ r h, timeouts s !! r = Some h → ∃ c, timers s !! h = Some (r, c).

(** Handler numbers from [handlers s] on are not in use. *)
Definition fresh_ok (s : state) : Prop :=
  ∀ h, handlers s ≤ h → fetches s !! h = None.

(** The account of the check runs: finished, still armed, waiting for an
    asset, and [k] of them retired by the code that is running right now. *)
Definition counted (k : nat) (s : state) : Prop :=
  ∃ c, allChecksFinishedPromise s = Some c ∧
       finished s + size (timers s) + size (fetches s) + k ≤ numChecks c ∧
       finishedCheckCount c = finished s ∧
       resolved c = Nat.eqb (finished s) (numChecks c).

Record live (k : nat) (s : state) : Prop := Live {
  live_table : table_ok s;
  live_fresh : fresh_ok s;
  live_counted : counted k s;
}.

(** The effects of message handlers and timer callbacks. *)
Definition local (a : action) : Prop :=
  match a with
  | ClearTimeout _ | GetLogs _ _ _ | GetCheckRunData _ _ _ | HandlerThrew _
  | Emit (CHECK_INPROGRESS _) | Emit (CHECK_FAILED _ _)
  | Emit (CHECK_SUCCESSFUL _ _) | Emit (CHECK_FINISHED _) => True
  | _ => False
  end.

(** What handlers and callbacks leave alone. *)
Record moves (s s' : state) : Prop := Moves {
  mv_phase : run_phase s' = run_phase s;
  mv_checks : checks s' = checks s;
  mv_listening : listening s' = listening s;
  mv_parked : parked_handlers s' = parked_handlers s;
  mv_numChecks :
    numChecks <$> allChecksFinishedPromise s' =
    numChecks <$> allChecksFinishedPromise s;
  mv_trace : ∃ l, trace s' = trace s ++ l ∧ Forall local l;
  mv_timers : timers s' ⊆ timers s;
  mv_timeouts : timeouts s' ⊆ timeouts s;
}.

(** ** Actions, phases and inputs *)

Definition threw (a : action) : Prop :=
  match a with HandlerThrew _ => True | _ => False end.

Definition closing (p : phase) : Prop :=
  match p with Ending | Returned | Threw _ => True | _ => False end.

Definition answered (p : phase) : Prop := p = Waiting ∨ closing p.

(** The completions that wake up a handler or a timer callback. *)
Definition wakes_handler (i : input) : Prop :=
  match i with
  | Message _ _ | TimerFired _ | FetchDone _ _ => True
  | _ => False
  end.

#[global] Instance wakes_handler_dec i : Decision (wakes_handler i).
Proof. destruct i; simpl; apply _. Defined.

(** Nothing is armed and no handler waits for an asset. *)
Definition quiet (s : state) : Prop :=
  timeouts s = ∅ ∧ timers s = ∅ ∧ fetches s = ∅.

Definition is_trigger (a : action) : Prop :=
  match a with Trigger _ => True | _ => False end.

(** ** The situations of a run *)

Section Situations.
Variable self : CheckRunner.
Variable suite : string.

(** The [setTimeout] calls of the loop of [scheduleAllChecks]. *)
Fixpoint arming (cs : list check) (checkRunIds : list (string * string))
                 (h : nat) : list action :=
  match cs with
  | [] => []
  | c :: rest =>
      SetTimeout h (obj_get (check_id c) checkRunIds, c) (timeout self * 1000)
      :: arming rest checkRunIds (S h)
  end.

(** The trace up to the subscription, up to the trigger request, and up
    to [RUN_STARTED]; [mid], [mid2] hold the handlers that threw meanwhile. *)
Definition opening (mid : list action) : list action :=
  Connect :: OnMessage :: Subscribe (results_topic self suite) :: mid.

Definition triggered (mid mid2 : list action) : list action :=
  opening mid ++ Subscribed :: Trigger (trigger_request self suite) :: mid2.

Definition started (cs : list check) (ids : list (string * string))
    (mid mid2 body : list action) : list action :=
  triggered mid mid2 ++ arming cs ids 0 ++ Emit (RUN_STARTED cs) :: body.

(** The situations a run can be in. *)
Inductive inv : state → Prop :=
| inv_connecting : inv init
| inv_refused e : inv (set_phase (Threw e) init)
| inv_subscribing s mid :
    run_phase s = Subscribing ∨ (∃ e, run_phase s = Threw e) →
    quiet s → checks s = Unset → listening s = true →
    parked_handlers s = [] → allChecksFinishedPromise s = None →
    trace s = opening mid → Forall threw mid →
    inv s
| inv_triggering s mid mid2 :
    run_phase s = Triggering →
    quiet s → checks s = Pending → listening s = true →
    allChecksFinishedPromise s = None →
    trace s = triggered mid mid2 → Forall threw mid → Forall threw mid2 →
    inv s
| inv_failed s e mid mid2 mid3 :
    closing (run_phase s) →
    quiet s → checks s = Rejected e → listening s = true →
    parked_handlers s = [] → allChecksFinishedPromise s = None →
    trace s = triggered mid mid2 ++ Emit (ERROR e) :: End :: mid3 →
    Forall threw mid → Forall threw mid2 → Forall threw mid3 →
    inv s
| inv_running s cs ids c mid mid2 body :
    run_phase s = Waiting →
    live 0 s → checks s = Resolved (cs, objectFlip ids) → listening s = true →
    parked_handlers s = [] →
    allChecksFinishedPromise s = Some c → numChecks c = length cs →
    resolved c = false →
    trace s = started cs ids mid mid2 body →
    Forall threw mid → Forall threw mid2 → Forall local body →
    inv s
| inv_completed s cs ids c mid mid2 body mid3 :
    closing (run_phase s) →
    quiet s → checks s = Resolved (cs, objectFlip ids) → listening s = true →
    parked_handlers s = [] →
    allChecksFinishedPromise s = Some c → numChecks c = length cs →
    resolved c = true →
    trace s = started cs ids mid mid2 body ++ Emit RUN_FINISHED :: End :: mid3 →
    Forall threw mid → Forall threw mid2 → Forall local body →
    Forall threw mid3 →
    count is_check_finished (events_of body) = length cs →
    finishedCheckCount c = length cs →
    inv s.

End Situations.

(** ** The end of a run and the asset fetches *)

(** What [run()] does once the next [CHECK_FINISHED] is emitted in [s]:
    nothing, or [RUN_FINISHED] and the disconnect when it is the last one. *)
Definition closing_actions (s : state) : list action :=
  match allChecksFinishedPromise s with
  | Some n =>
      if Nat.eqb (S (finishedCheckCount n)) (numChecks n)
      then [Emit RUN_FINISHED; End] else []
  | None => []
  end.

(** In [s], handler [id] waits for the check-run data of [check], with
    [result] in hand: whatever happens until the fetch is answered, a rejected
    fetch makes the handler throw and emit nothing, and fetched data are
    attached to the result, which is then reported as [CHECK_SUCCESSFUL],
    [CHECK_FINISHED]. *)
Definition awaits_data (self : CheckRunner) (suite : string) (s : state)
    (id : nat) (check : option check) (result : json) : Prop :=
  ∀ between,
    Forall (λ i, ∀ response, i ≠ FetchDone id response) between →
    let s' := fold_left (step self suite) between s in
    (∀ e, trace (step self suite s' (FetchDone id (inl e)))
          = trace s' ++ [HandlerThrew e]) ∧
    (∀ data,
       trace (step self suite s' (FetchDone id (inr data)))
       = trace s' ++ Emit (CHECK_SUCCESSFUL check
                             (set_prop result "checkRunData" data))
         :: Emit (CHECK_FINISHED check) :: closing_actions s').

(** ** Correlation and the account of each check *)


(** [CHECK_FINISHED] for the check with id [i]; its outcome event. *)
Definition finished_for (i : string) (e : event) : bool :=
  match e with
  | CHECK_FINISHED (Some c) => String.eqb (check_id c) i
  | _ => false
  end.

Definition outcome_for (i : string) (e : event) : bool :=
  match e with
  | CHECK_FAILED (Some c) _ | CHECK_SUCCESSFUL (Some c) _ =>
      String.eqb (check_id c) i
  | _ => false
  end.

Definition is_outcome (c : option check) (e : event) : Prop :=
  (∃ m, e = CHECK_FAILED c m) ∨ (∃ r, e = CHECK_SUCCESSFUL c r).

Definition is_terminal (e : event) : bool :=
  match e with
  | CHECK_FAILED _ _ | CHECK_SUCCESSFUL _ _ | CHECK_FINISHED _ => true
  | _ => false
  end.

(** Every outcome event is followed at once by [CHECK_FINISHED] for the
    same check, and every [CHECK_FINISHED] follows an outcome. *)
Inductive paired : list event → Prop :=
| paired_nil : paired []
| paired_other e l : is_terminal e = false → paired l → paired (e :: l)
| paired_pair c e l :
    is_outcome c e → paired l → paired (e :: CHECK_FINISHED c :: l).

(** The run id the trigger response gives a check. *)
Definition run_id_of (ids : list (string * string)) (c : check)
  : option string := obj_get (check_id c) ids.

Definition holds_timer (i : string) (s : state) : Prop :=
  ∃ h r c, timers s !! h = Some (r, c) ∧ check_id c = i.

Definition holds_fetch (i : string) (s : state) : Prop :=
  ∃ f k c, fetches s !! f = Some k ∧ f_check k = Some c ∧ check_id c = i.

(** The account of each check: its timer is armed, or a handler waits for
    an asset of it, or the running code has it in hand ([x]), or it is through;
    one of these at a time, and only the last with a terminal pair emitted. *)
Record once (cs : list check) (ids : list (string * string))
    (x : option string) (s : state) : Prop := Once {
  once_timers : ∀ h r c, timers s !! h = Some (r, c) →
                         cs !! h = Some c ∧ r = run_id_of ids c;
  once_paired : paired (events s);
  once_count : ∀ i, count (outcome_for i) (events s)
                    = count (finished_for i) (events s) ∧
                    count (finished_for i) (events s) ≤ 1;
  once_timer : ∀ i, holds_timer i s →
                    count (finished_for i) (events s) = 0 ∧
                    ¬ holds_fetch i s ∧ x ≠ Some i;
  once_fetch : ∀ i, holds_fetch i s →
                    count (finished_for i) (events s) = 0 ∧ x ≠ Some i;
  once_fetch_unique :
    ∀ f1 f2 k1 k2 c1 c2,
      fetches s !! f1 = Some k1 → fetches s !! f2 = Some k2 →
      f_check k1 = Some c1 → f_check k2 = Some c2 →
      check_id c1 = check_id c2 → f1 = f2;
  once_hand : ∀ i, x = Some i → count (finished_for i) (events s) = 0;
}.

(** ** Sample data *)

Definition sample_runner : CheckRunner :=
  {| accountId := "acc"; apiKey := "key"; targetTags := ["prod"];
     location := PUBLIC "eu-central-1"; timeout := 5; verbose := false |}.

Definition check_A : check := Check "A" (JObj [("name", JStr "homepage")]).

Definition check_B : check := Check "B" (JObj [("name", JStr "api")]).

Definition sample_ids : list (string * string) := [("A", "r1"); ("B", "r2")].

Definition topic_of (runId kind : string) : string :=
  "account/acc/ad-hoc-check-results/suite/" +:+ runId +:+ "/" +:+ kind.

(** The run up to the trigger response for [check_A] and [check_B]. *)
Definition sample_start : list input :=
  [ConnectDone None; SubscribeDone None;
   TriggerDone (inr ([check_A; check_B], sample_ids))].

(** The payload of a [run-end] message without failures and assets. *)
Definition plain_result : json :=
  JObj [("result", JObj [("hasFailures", JBool false);
                         ("assets", JObj [("region", JStr "eu-central-1")])])].

(** The scenario of the specification: [check_A] starts and ends, [check_B]
    never answers and times out. *)
Definition sample_rest : list input :=
  [Message (topic_of "r1" "run-start") (Json JNull);
   Message (topic_of "r1" "run-end") (Json plain_result);
   TimerFired 1].

Definition failing_result_payload : json :=
  JObj [("result",
         JObj [("hasFailures", JBool true);
               ("assets", JObj [("region", JStr "eu-central-1");
                                ("logPath", JStr "logs/1");
                                ("checkRunDataPath", JStr "data/1")])])].

Definition failing_result : json :=
  JObj [("hasFailures", JBool true);
        ("assets", JObj [("region", JStr "eu-central-1");
                         ("logPath", JStr "logs/1");
                         ("checkRunDataPath", JStr "data/1")])].

(** ** Further notions of the runner *)

Definition is_end (a : action) : Prop :=
  match a with End => True | _ => False end.

(** The events of one check. *)
Definition is_check_event (e : event) : Prop :=
  match e with
  | CHECK_INPROGRESS _ | CHECK_FAILED _ _ | CHECK_SUCCESSFUL _ _
  | CHECK_FINISHED _ => True
  | _ => False
  end.

(** What is left of a run whose subscription was refused with [e]. *)
Definition unsubscribed (self : CheckRunner) (suite : string) (e : exn)
    (s : state) : Prop :=
  run_phase s = Threw e ∧ checks s = Unset ∧ timers s = ∅ ∧ fetches s = ∅ ∧
  listening s = true ∧
  ∃ mid, trace s = opening self suite mid ∧ Forall threw mid.

(** A run that has lost a check: [run()] waits, and fewer checks than the
    trigger response selected are finished, armed or waiting for an asset. *)
Definition stuck (s : state) : Prop :=
  run_phase s = Waiting ∧ live 1 s ∧ listening s = true ∧
  ∃ known, checks s = Resolved known.

(** A [run-end] payload whose [result] is an object with an [assets]
    property that is neither [null] nor [undefined]: the payloads on which
    the destructuring of lines 140-141 succeeds. *)
Definition has_assets (message : json) : Prop :=
  match message with
  | JObj props =>
      match obj_get "result" props with
      | Some (JObj rprops) =>
          match obj_get "assets" rprops with
          | Some JNull | None => False
          | Some _ => True
          end
      | _ => False
      end
  | _ => False
  end.

(** *** Topics *)

(** A topic level: a string without the separator. *)
Fixpoint slash_free (s : string) : bool :=
  match s with
  | EmptyString => true
  | String c rest => negb (Ascii.eqb c "/"%char) && slash_free rest
  end.

(** The topic of a message about the run [runId] of the suite, of the
    kind [kind], as the subscription of [configureResultListener] matches
    it. *)
Definition result_topic (self : CheckRunner) (suite runId kind : string)
  : string :=
  "account/" +:+ accountId self +:+ "/ad-hoc-check-results/" +:+ suite
  +:+ "/" +:+ runId +:+ "/" +:+ kind.

(** *** What a run reports *)

(** Results as they come out of a [run-end] payload. *)
Definition is_object (v : json) : Prop :=
  match v with JObj _ => True | _ => False end.

(** Only the trigger response, when [run()] waits for it, brings new
    timers and the table of the run ids. *)
Definition starts (s : state) (i : input) (cs : list check)
    (ids : list (string * string)) : Prop :=
  run_phase s = Triggering ∧ i = TriggerDone (inr (cs, ids)).

Section Reported.
(** What is to hold of every check and of every result that a run
    reports. *)
Variable Rc : option check → Prop.
Variable Rr : json → Prop.

Definition told (e : event) : Prop :=
  match e with
  | CHECK_INPROGRESS c | CHECK_FAILED c _ | CHECK_FINISHED c => Rc c
  | CHECK_SUCCESSFUL c result => Rc c ∧ Rr result
  | _ => True
  end.

(** A handler that waits for an asset holds a check and a result. *)
Definition held (k : fetch) : Prop := Rc (f_check k) ∧ Rr (f_result k).

(** From [s] to [s'] only such events were emitted and only such
    handlers started to wait. *)
Definition grows (s s' : state) : Prop :=
  (∃ evs, events s' = events s ++ evs ∧ Forall told evs) ∧
  ∀ h k, fetches s' !! h = Some k → fetches s !! h = Some k ∨ held k.

(** All that was reported, is held by a waiting handler, is kept by a
    timer or can be found for a run id, is such a check and such a result. *)
Record sound (s : state) : Prop := Sound {
  sound_events : Forall told (events s);
  sound_fetches : ∀ h k, fetches s !! h = Some k → held k;
  sound_timers : ∀ h r c, timers s !! h = Some (r, c) → Rc (Some c);
  sound_checks : ∀ known r, checks s = Resolved known → Rc (correlate known r);
}.

(** What a trigger response has to be like, if it arrives now. *)
Definition welcome (s : state) (i : input) : Prop :=
  ∀ cs ids,
    starts s i cs ids →
    (∀ c, c ∈ cs → Rc (Some c)) ∧
    (∀ r, Rc (correlate (cs, objectFlip ids) r)).
End Reported.

(** Any check, and the checks of a trigger response. *)
Definition any_check (c : option check) : Prop := True.
Definition any_result (v : json) : Prop := True.
Definition selected (cs : list check) (c : option check) : Prop :=
  match c with
  | Some x => x ∈ cs
  | None => True
  end.

(** ** The [trigger] command *)

(** The characters that a string literal of this file cannot hold. *)
Definition dq : string := String (ascii_of_nat 34) EmptyString.
Definition lf : string := String (ascii_of_nat 10) EmptyString.

(** What a request of the REST client is answered with: the [data] of the
    response, or a rejection with an error whose [message] is the string. *)
Definition reply (A : Type) : Type := string + A.

(** The fields that the command reads of a location, a private location and
    an account. *)
Record Location := { loc_region : string }.
Record PrivateLocation := { pl_id : string; pl_slugName : string }.
Record Account := { account_name : string }.

(** The answers of the backend to the requests of one command. *)
Record Api := {
  locations_getAll : reply (list Location);
  privateLocations_getAll : reply (list PrivateLocation);
  accounts_get : string → reply Account;
}.

(** The requests that the command sends, in order. *)
Inductive request :=
| GetLocations
| GetPrivateLocations
| GetAccount (accountId : string).

(** [{ runLocation?, privateRunLocation? }], of the command line or of the
    configuration file. *)
Record LocationOptions := {
  opt_runLocation : option string;
  opt_privateRunLocation : option string;
}.

(** The value of an optional string in a condition: [undefined] and the
    empty string are falsy. *)
Definition given (o : option string) : option string :=
  match o with
  | Some s => if String.eqb s EmptyString then None else Some s
  | None => None
  end.

Definition DEFAULT_REGION : string := "eu-central-1".

Definition unsupported_location (runLocation : string)
    (availableLocations : list Location) : string :=
  "Unable to run checks on unsupported location " +:+ dq +:+ runLocation
  +:+ dq +:+ ". " +:+ "Supported locations are:" +:+ lf
  +:+ String.concat lf (map loc_region availableLocations).

(** The message of line 104, a template literal that spans two source
    lines and holds the quote and the plus sign meant to join them. *)
Definition both_locations (runLocation privateRunLocation : string) : string :=
  "Both runLocation and privateRunLocation fields were set in the Checkly config file."
  +:+ " Please only specify one run location. The configured locations were' + "
  +:+ lf +:+ "        ' " +:+ dq +:+ runLocation +:+ dq +:+ " and " +:+ dq
  +:+ privateRunLocation +:+ dq.

Definition not_found (slugName accountName : string) : string :=
  "The specified private location " +:+ dq +:+ slugName +:+ dq
  +:+ " was not found on account " +:+ dq +:+ accountName +:+ dq +:+ ".".

(** The [catch] block of [preparePrivateRunLocation]. *)
Definition failed_private (message : string) : exn :=
  Failure ("Failed to get private locations. " +:+ message +:+ ".").

Section TriggerCommand.
(** The backend and the value of [config.getAccountId()]. *)
Variable api : Api.
Variable account : string.

Definition preparePrivateRunLocation (privateLocationSlugName : string)
  : list request * throws RunLocation :=
  match privateLocations_getAll api with
  | inl message => ([GetPrivateLocations], inl (failed_private message))
  | inr privateLocations =>
      match List.find (λ l, String.eqb (pl_slugName l) privateLocationSlugName)
                      privateLocations with
      | Some privateLocation =>
          ([GetPrivateLocations],
           inr (PRIVATE (pl_id privateLocation) privateLocationSlugName))
      | None =>
          ([GetPrivateLocations; GetAccount account],
           match accounts_get api account with
           | inl message => inl (failed_private message)
           | inr a =>
               inl (failed_private
                      (not_found privateLocationSlugName (account_name a)))
           end)
      end
  end.

Definition prepareRunLocation (configOptions cliFlags : LocationOptions)
  : list request * throws RunLocation :=
  match given (opt_runLocation cliFlags) with
  | Some runLocation =>
      ([GetLocations],
       match locations_getAll api with
       | inl message => inl (Failure message)
       | inr availableLocations =>
           if existsb (λ l, String.eqb (loc_region l) runLocation)
                      availableLocations
           then inr (PUBLIC runLocation)
           else inl (Failure (unsupported_location runLocation
                                                   availableLocations))
       end)
  | None =>
      match given (opt_privateRunLocation cliFlags) with
      | Some slug => preparePrivateRunLocation slug
      | None =>
          match given (opt_runLocation configOptions),
                given (opt_privateRunLocation configOptions) with
          | Some runLocation, Some privateRunLocation =>
              ([], inl (Failure (both_locations runLocation privateRunLocation)))
          | Some runLocation, None => ([], inr (PUBLIC runLocation))
          | None, Some slug => preparePrivateRunLocation slug
          | None, None => ([], inr (PUBLIC DEFAULT_REGION))
          end
      end
  end.
End TriggerCommand.

(** [new CheckRunner(config.getAccountId(), config.getApiKey(), targetTags,
    location, 240, false)]. *)
Definition command_runner (account key : string) (tags : list string)
    (l : RunLocation) : CheckRunner :=
  {| accountId := account; apiKey := key; targetTags := tags; location := l;
     timeout := 240; verbose := false |}.

(** What [console.log] is given. *)
Inductive printed :=
| Text (s : string)
| ACheck (c : option check)
| AValue (v : json).

(** The process as the listeners of the command change it: [exitCode] is
    [None] as long as it is [undefined]. *)
Record process := Process {
  exitCode : option Z;
  console : list (list printed);
}.

Definition set_exitCode (n : Z) (p : process) : process :=
  Process (Some n) (console p).
Definition console_log (line : list printed) (p : process) : process :=
  Process (exitCode p) (console p ++ [line]).

(** The listeners that [run()] attaches to the runner, lines 64-83. *)
Definition on_event (e : event) (p : process) : throws process :=
  match e with
  | CHECK_SUCCESSFUL check result =>
      failures ← get_prop (Some result) "hasFailures";
      let p := if truthy failures then set_exitCode 1 p else p in
      mret (console_log [Text "CHECK_SUCCESSFUL"; ACheck check; AValue result] p)
  | CHECK_FAILED check message =>
      mret (set_exitCode 1
              (console_log [Text "CHECK_FAILED"; ACheck check; AValue message] p))
  | RUN_FINISHED => mret (console_log [Text "RUN_FINISHED"] p)
  | ERROR _ => mret (console_log [Text "ERROR"] p)
  | _ => mret p
  end.

(** The listeners on a stream of events; a listener that throws stops it. *)
Definition listeners (evs : list event) (p : process) : throws process :=
  fold_left (λ acc e, p ← acc; on_event e p) evs (inr p).

(** A node process that has set no exit code and printed nothing. *)
Definition fresh_process : process := Process None [].

(** The events whose listener sets the exit code. *)
Definition reports_failure (e : event) : bool :=
  match e with
  | CHECK_FAILED _ _ => true
  | CHECK_SUCCESSFUL _ result => truthy (hasFailures result)
  | _ => false
  end.

(** ** Constructs, the project and the session *)

(** What the constructors and [Session] throw. *)
Inductive construct_error :=
| ValidationError (message : string)
| Error (message : string)
| TypeError_.

(** How a statement ends whose assignment may go to an object of the
    JavaScript runtime instead of the project. *)
Inductive outcome (A : Type) :=
| Done (a : A)
| Throws (e : construct_error)
| Elsewhere.
Arguments Done {A} a.
Arguments Throws {A} e.
Arguments Elsewhere {A}.

(** A construct as [Project] and [Session] use it.  The class [Construct]
    and its subclasses are not in these sources: a construct stands for its
    fields [type] and [logicalId], for the values that its methods
    [allowInChecklyConfig()] and [synthesize()] return, and for
    [constructor.name]. *)
Record Construct := {
  c_type : string;
  c_logicalId : string;
  c_allowInChecklyConfig : bool;
  c_className : string;
  c_synthesize : json;
}.

(** [keyof ProjectData]. *)
Inductive ProjectDataKey :=
| Checks
| Groups
| AlertChannels
| AlertChannelSubscriptions.

#[global] Instance ProjectDataKey_eq_dec : EqDecision ProjectDataKey.
Proof. solve_decision. Defined.

(** [ProjectData]: four objects used as maps from logical ids to
    constructs.  Only own properties are kept; their order is not. *)
Record ProjectData := {
  data_checks : gmap string Construct;
  data_groups : gmap string Construct;
  data_alertChannels : gmap string Construct;
  data_alertChannelSubscriptions : gmap string Construct;
}.

Definition data_get (k : ProjectDataKey) (d : ProjectData)
  : gmap string Construct :=
  match k with
  | Checks => data_checks d
  | Groups => data_groups d
  | AlertChannels => data_alertChannels d
  | AlertChannelSubscriptions => data_alertChannelSubscriptions d
  end.

Definition data_set (k : ProjectDataKey) (m : gmap string Construct)
    (d : ProjectData) : ProjectData :=
  match k with
  | Checks =>
      {| data_checks := m; data_groups := data_groups d;
         data_alertChannels := data_alertChannels d;
         data_alertChannelSubscriptions := data_alertChannelSubscriptions d |}
  | Groups =>
      {| data_checks := data_checks d; data_groups := m;
         data_alertChannels := data_alertChannels d;
         data_alertChannelSubscriptions := data_alertChannelSubscriptions d |}
  | AlertChannels =>
      {| data_checks := data_checks d; data_groups := data_groups d;
         data_alertChannels := m;
         data_alertChannelSubscriptions := data_alertChannelSubscriptions d |}
  | AlertChannelSubscriptions =>
      {| data_checks := data_checks d; data_groups := data_groups d;
         data_alertChannels := data_alertChannels d;
         data_alertChannelSubscriptions := m |}
  end.

Record Project := {
  project_name : string;
  project_repoUrl : option string;
  project_logicalId : string;
  data : ProjectData;
}.

Definition set_data (d : ProjectData) (p : Project) : Project :=
  {| project_name := project_name p; project_repoUrl := project_repoUrl p;
     project_logicalId := project_logicalId p; data := d |}.

(** [Project.__checklyType]. *)
Definition Project_checklyType : string := "project".

(** The properties that every object literal inherits from
    [Object.prototype]. *)
Definition inherited_names : list string :=
  ["constructor"; "__defineGetter__"; "__defineSetter__"; "hasOwnProperty";
   "__lookupGetter__"; "__lookupSetter__"; "isPrototypeOf";
   "propertyIsEnumerable"; "toString"; "valueOf"; "__proto__";
   "toLocaleString"].

(** What [this.data[type]] is: one of the four records, a member of
    [Object.prototype], or [undefined]. *)
Inductive slot :=
| Own (k : ProjectDataKey)
| Inherited
| Missing.

Definition data_slot (type : string) : slot :=
  if String.eqb type "checks" then Own Checks
  else if String.eqb type "groups" then Own Groups
  else if String.eqb type "alertChannels" then Own AlertChannels
  else if String.eqb type "alertChannelSubscriptions"
  then Own AlertChannelSubscriptions
  else if existsb (String.eqb type) inherited_names then Inherited
  else Missing.

(** [addResource]: [this.data[type][logicalId] = resource].  The property
    is created or overwritten in one of the four records.  Two assignments
    leave the project and are not followed here: with a [type] that names a
    member of [Object.prototype] the assignment goes to that member, and
    under the logical id [__proto__] it reaches the setter of
    [Object.prototype], which replaces the prototype of the record.  With any
    other [type] there is nothing to assign to, and the statement throws. *)
Definition addResource (type logicalId : string) (resource : Construct)
    (p : Project) : outcome Project :=
  match data_slot type with
  | Own k =>
      if String.eqb logicalId "__proto__" then Elsewhere
      else Done (set_data (data_set k (<[logicalId := resource]>
                                         (data_get k (data p))) (data p)) p)
  | Inherited => Elsewhere
  | Missing => Throws TypeError_
  end.

(** [synthesizeRecord]. *)
Definition synthesizeRecord (record : gmap string Construct)
  : gmap string json := c_synthesize <$> record.

(** What [synthesize()] returns. *)
Record Synthesized := {
  syn_project : string * string * option string;
  syn_checks : gmap string json;
  syn_groups : gmap string json;
  syn_alertChannels : gmap string json;
  syn_alertChannelSubscriptions : gmap string json;
}.

Definition synthesize (p : Project) : Synthesized :=
  {| syn_project := (project_logicalId p, project_name p, project_repoUrl p);
     syn_checks := synthesizeRecord (data_checks (data p));
     syn_groups := synthesizeRecord (data_groups (data p));
     syn_alertChannels := synthesizeRecord (data_alertChannels (data p));
     syn_alertChannelSubscriptions :=
       synthesizeRecord (data_alertChannelSubscriptions (data p)) |}.

Definition syn_get (k : ProjectDataKey) (s : Synthesized) : gmap string json :=
  match k with
  | Checks => syn_checks s
  | Groups => syn_groups s
  | AlertChannels => syn_alertChannels s
  | AlertChannelSubscriptions => syn_alertChannelSubscriptions s
  end.

(** The static fields of [Session] that the two methods below read. *)
Record Session := {
  session_project : option Project;
  loadingChecklyConfigFile : bool;
  checklyConfigFileConstructs : option (list Construct);
}.

Definition internal_error : string :=
  "Internal Error: Session is not properly configured for using a construct. Please contact Checkly support.".

Definition registerConstruct (construct : Construct) (s : Session)
  : outcome Session :=
  match session_project s with
  | Some project =>
      match addResource (c_type construct) (c_logicalId construct) construct
                        project with
      | Done project' =>
          Done {| session_project := Some project';
                  loadingChecklyConfigFile := loadingChecklyConfigFile s;
                  checklyConfigFileConstructs := checklyConfigFileConstructs s |}
      | Throws e => Throws e
      | Elsewhere => Elsewhere
      end
  | None =>
      if loadingChecklyConfigFile s && c_allowInChecklyConfig construct then
        match checklyConfigFileConstructs s with
        | Some constructs =>
            Done {| session_project := None;
                    loadingChecklyConfigFile := loadingChecklyConfigFile s;
                    checklyConfigFileConstructs := Some (constructs ++ [construct]) |}
        | None => Throws TypeError_
        end
      else Throws (Error internal_error)
  end.

(** The character class of [/^[A-Za-z0-9_\-/#.]+$/]. *)
Definition allowed_char (c : ascii) : bool :=
  let n := nat_of_ascii c in
  (65 <=? n) && (n <=? 90) || (97 <=? n) && (n <=? 122)
  || (48 <=? n) && (n <=? 57)
  || (n =? 95) || (n =? 45) || (n =? 47) || (n =? 35) || (n =? 46).

(** The test of the regular expression: one character or more, all of the
    class. *)
Definition valid_logicalId (logicalId : string) : bool :=
  negb (String.eqb logicalId EmptyString)
  && forallb allowed_char (list_ascii_of_string logicalId).

Definition invalid_logicalId (logicalId : string) : string :=
  "The 'logicalId' must includes only allowed characters [A-Za-z0-9_-/#.]. (logicalId='"
  +:+ logicalId +:+ "')".

Definition not_in_config (className : string) : string :=
  "Creating a " +:+ className
  +:+ " construct in the Checkly config file isn't supported.".

Definition unexpected_error : string :=
  "Unable to create a construct due to an unexpected error. Please contact Checkly support.".

(** [validateCreateConstruct]: the error it throws, if any. *)
Definition validateCreateConstruct (construct : Construct) (s : Session)
  : option construct_error :=
  if negb (valid_logicalId (c_logicalId construct)) then
    Some (ValidationError (invalid_logicalId (c_logicalId construct)))
  else if String.eqb (c_type construct) Project_checklyType then None
  else if bool_decide (is_Some (session_project s)) then None
  else if loadingChecklyConfigFile s && c_allowInChecklyConfig construct
  then None
  else if loadingChecklyConfigFile s then
    Some (Error (not_in_config (c_className construct)))
  else Some (Error unexpected_error).

(** ** The templates of a browser check *)






(** * Properties *)

(** ** Traces and counts *)

Lemma events_of_app l1 l2 : events_of (l1 ++ l2) = events_of l1 ++ events_of l2.
Proof. apply omap_app. Qed.

Lemma count_app p l1 l2 : count p (l1 ++ l2) = count p l1 + count p l2.
Proof. unfold count. by rewrite List.filter_app, length_app. Qed.

Lemma events_log a s :
  events (log a s) =
  events s ++ match a with Emit e => [e] | _ => [] end.
Proof. unfold events. simpl_state. rewrite events_of_app. by destruct a. Qed.

Section Facts.
Variable self : CheckRunner.
Variable suite : string.

(** *** What [emit] changes *)

Lemma emit_trace e s : trace (emit e s) = trace s ++ [Emit e].
Proof. unfold emit. by destruct e. Qed.

Lemma emit_events e s : events (emit e s) = events s ++ [e].
Proof. unfold events. by rewrite emit_trace, events_of_app. Qed.

Lemma emit_frame e s :
  run_phase (emit e s) = run_phase s ∧ checks (emit e s) = checks s ∧
  timeouts (emit e s) = timeouts s ∧ timers (emit e s) = timers s ∧
  listening (emit e s) = listening s ∧
  parked_handlers (emit e s) = parked_handlers s ∧
  fetches (emit e s) = fetches s ∧ handlers (emit e s) = handlers s.
Proof. unfold emit. by destruct e. Qed.

Lemma emit_counter e s :
  allChecksFinishedPromise (emit e s) =
  if is_check_finished e then count_finished <$> allChecksFinishedPromise s
  else allChecksFinishedPromise s.
Proof. unfold emit. by destruct e. Qed.

Lemma emit_finished e s :
  finished (emit e s) = finished s + (if is_check_finished e then 1 else 0).
Proof.
  unfold finished. rewrite emit_events, count_app. unfold count at 2.
  simpl. by destruct (is_check_finished e).
Qed.
End Facts.

Section Bookkeeping.
Variable self : CheckRunner.

Lemma moves_refl s : moves s s.
Proof. split; try done. exists []. by rewrite app_nil_r. Qed.

Lemma moves_trans s1 s2 s3 : moves s1 s2 → moves s2 s3 → moves s1 s3.
Proof.
  intros [? ? ? ? ? (l1 & ? & ?) ? ?] [? ? ? ? ? (l2 & ? & ?) ? ?].
  split; try congruence; try (by etrans).
  exists (l1 ++ l2). split; [| by apply Forall_app].
  rewrite app_assoc. congruence.
Qed.

Lemma moves_log a s : local a → moves s (log a s).
Proof. intros. split; try done. exists [a]. split; [done | by constructor]. Qed.

Lemma count_finished_numChecks c : numChecks (count_finished c) = numChecks c.
Proof. unfold count_finished. by destruct (Nat.eqb (numChecks c) 0). Qed.

Lemma moves_emit e s : local (Emit e) → moves s (emit e s).
Proof.
  intros. destruct (emit_frame e s) as (? & ? & Hto & Hti & ? & ? & ? & ?).
  split; try done; [| | by rewrite Hti | by rewrite Hto].
  - rewrite emit_counter. destruct (is_check_finished e); [| done].
    destruct (allChecksFinishedPromise s); [| done].
    simpl. by rewrite count_finished_numChecks.
  - exists [Emit e]. split; [apply emit_trace | by constructor].
Qed.

Lemma live_weaken k s : live (S k) s → live k s.
Proof.
  intros [? ? (c & ? & ? & ? & ?)]. split; try done.
  exists c. repeat split; try done. lia.
Qed.

Lemma live_log k a s :
  match a with Emit _ => False | _ => True end → live k s → live k (log a s).
Proof.
  intros Ha [Ht Hf (c & ? & ? & ? & ?)].
  assert (finished (log a s) = finished s) as Hfin.
  { unfold finished. rewrite events_log. destruct a; try done;
      by rewrite app_nil_r. }
  split; [done | done |]. exists c. by rewrite Hfin.
Qed.

Lemma live_emit k e s :
  is_check_finished e = false → live k s → live k (emit e s).
Proof.
  intros He [Ht Hf (c & Hc & ? & ? & ?)].
  destruct (emit_frame e s) as (? & ? & Hto & Hti & ? & ? & Hfe & Hh).
  pose proof (emit_finished e s) as Hfin. rewrite He in Hfin.
  split.
  - intros r h. rewrite Hto, Hti. apply Ht.
  - intros h. rewrite Hh, Hfe. apply Hf.
  - exists c. rewrite emit_counter, He, Hfin, Hti, Hfe, Nat.add_0_r. done.
Qed.

Lemma live_emit_finished k c s :
  live (S k) s → live k (emit (CHECK_FINISHED c) s).
Proof.
  intros [Ht Hf (n & Hn & Hle & Hcnt & Hres)].
  destruct (emit_frame (CHECK_FINISHED c) s)
    as (? & ? & Hto & Hti & ? & ? & Hfe & Hh).
  pose proof (emit_finished (CHECK_FINISHED c) s) as Hfin. simpl in Hfin.
  split.
  - intros r h. rewrite Hto, Hti. apply Ht.
  - intros h. rewrite Hh, Hfe. apply Hf.
  - exists (count_finished n). rewrite emit_counter, Hn, Hfin, Hti, Hfe.
    simpl. unfold count_finished.
    destruct (Nat.eqb_spec (numChecks n) 0) as [Hz | Hz]; [lia |].
    simpl. repeat split; [lia | lia |].
    rewrite Hres.
    destruct (Nat.eqb_spec (finished s) (numChecks n)); [lia |].
    simpl. by rewrite Hcnt, Nat.add_1_r.
Qed.

(** Retiring the timer [h] of run id [r], as the callback and
    [disableTimeout] do. *)
Lemma live_retire k r h c s :
  live k s → timers s !! h = Some (r, c) →
  live (S k) (set_timeouts (delete r (timeouts s))
                (set_timers (delete h (timers s)) s)).
Proof.
  intros [Ht Hf (n & Hn & Hle & ? & ?)] Hh. split.
  - intros r' h'. simpl_state. intros Hr'.
    apply lookup_delete_Some in Hr' as [Hne Hr'].
    destruct (Ht _ _ Hr') as [c' Hc'].
    exists c'. rewrite lookup_delete_ne; [done |]. congruence.
  - done.
  - exists n. simpl_state.
    assert (finished (set_timeouts (delete r (timeouts s))
                (set_timers (delete h (timers s)) s)) = finished s) as ->
      by done.
    rewrite map_size_delete, Hh.
    assert (size (timers s) ≠ 0).
    { apply map_size_non_empty_iff. intros E. by rewrite E in Hh. }
    repeat split; try done. lia.
Qed.

Lemma moves_retire r h s :
  moves s (set_timeouts (delete r (timeouts s))
             (set_timers (delete h (timers s)) s)).
Proof.
  split; try done; try apply delete_subseteq.
  exists []. by rewrite app_nil_r.
Qed.

Lemma disableTimeout_armed r h s :
  timeouts s !! r = Some h →
  disableTimeout r s =
  set_timeouts (delete r (timeouts s))
    (set_timers (delete h (timers s)) (log (ClearTimeout (Some h)) s)).
Proof. intros H. unfold disableTimeout. by rewrite H. Qed.

Lemma live_disableTimeout k r h s :
  live k s → timeouts s !! r = Some h → live (S k) (disableTimeout r s).
Proof.
  intros Hl Hr. rewrite (disableTimeout_armed r h s Hr).
  destruct (live_table _ _ Hl _ _ Hr) as [c Hc].
  apply (live_retire k r h c (log (ClearTimeout (Some h)) s)); [| done].
  by apply live_log.
Qed.

Lemma moves_disableTimeout r s : moves s (disableTimeout r s).
Proof.
  unfold disableTimeout. split; try by destruct (timeouts s !! r).
  - exists [ClearTimeout (timeouts s !! r)].
    split; [by destruct (timeouts s !! r) | by constructor].
  - destruct (timeouts s !! r); simpl_state; [apply delete_subseteq | done].
  - destruct (timeouts s !! r); simpl_state; apply delete_subseteq.
Qed.

Lemma live_suspend k f s : live (S k) s → live k (suspend f s).
Proof.
  intros [Ht Hf (n & Hn & Hle & ? & ?)]. split.
  - done.
  - intros h. unfold suspend. simpl_state. intros Hh.
    rewrite lookup_insert_ne; [| lia]. apply Hf. lia.
  - exists n. unfold suspend. simpl_state.
    assert (finished (set_fetches (<[handlers s:=f]> (fetches s))
                        (S (handlers s)) s) = finished s) as -> by done.
    rewrite map_size_insert_None; [| by apply Hf].
    repeat split; try done. lia.
Qed.

Lemma moves_suspend f s : moves s (suspend f s).
Proof. split; try done. exists []. by rewrite app_nil_r. Qed.

Lemma live_resume k h f s :
  live k s → fetches s !! h = Some f →
  live (S k) (set_fetches (delete h (fetches s)) (handlers s) s).
Proof.
  intros [Ht Hf (n & Hn & Hle & ? & ?)] Hh. split.
  - done.
  - intros h'. simpl_state. intros Hh'.
    apply lookup_delete_None. right. by apply Hf.
  - exists n. simpl_state.
    assert (finished (set_fetches (delete h (fetches s)) (handlers s) s)
            = finished s) as -> by done.
    rewrite map_size_delete, Hh.
    assert (size (fetches s) ≠ 0).
    { apply map_size_non_empty_iff. intros E. by rewrite E in Hh. }
    repeat split; try done. lia.
Qed.

Lemma moves_resume h s :
  moves s (set_fetches (delete h (fetches s)) (handlers s) s).
Proof. split; try done. exists []. by rewrite app_nil_r. Qed.

Lemma live_finish k c result s : live (S k) s → live k (finish c result s).
Proof.
  intros. unfold finish. apply live_emit_finished. by apply live_emit.
Qed.

Lemma moves_finish c result s : moves s (finish c result s).
Proof.
  unfold finish. eapply moves_trans; by apply moves_emit.
Qed.

Lemma live_data_then_finish k c result region path s :
  live (S k) s → live k (data_then_finish self c result region path s).
Proof.
  intros. unfold data_then_finish. destruct (wanted self path result).
  - apply live_suspend. by apply live_log.
  - by apply live_finish.
Qed.

Lemma moves_data_then_finish c result region path s :
  moves s (data_then_finish self c result region path s).
Proof.
  unfold data_then_finish. destruct (wanted self path result).
  - eapply moves_trans; [| apply moves_suspend]; by apply moves_log.
  - apply moves_finish.
Qed.

(** The message handler keeps the books. *)
Lemma live_handler_body known m s :
  live 0 s → live 0 (handler_body self known m s).
Proof.
  intros Hl. unfold handler_body.
  destruct (timeouts s !! topic_run_id (p_topic m)) as [h |] eqn:Hr; [| done].
  destruct (is_subtopic (topic_subtopic (p_topic m)) "run-start"); [by apply live_emit |].
  pose proof (live_disableTimeout 0 _ _ _ Hl Hr) as Hd.
  destruct (is_subtopic (topic_subtopic (p_topic m)) "run-end").
  { destruct (run_end_locals (p_message m))
      as [e | [[[result region] logPath] path]].
    - apply live_weaken. by apply live_log.
    - destruct (wanted self logPath result).
      + apply live_suspend. by apply live_log.
      + by apply live_data_then_finish. }
  destruct (is_subtopic (topic_subtopic (p_topic m)) "error"); [| done].
  apply live_emit_finished. by apply live_emit.
Qed.

Lemma moves_handler_body known m s : moves s (handler_body self known m s).
Proof.
  unfold handler_body.
  destruct (timeouts s !! topic_run_id (p_topic m)) as [h |]; [| apply moves_refl].
  destruct (is_subtopic (topic_subtopic (p_topic m)) "run-start"); [by apply moves_emit |].
  destruct (is_subtopic (topic_subtopic (p_topic m)) "run-end").
  { eapply moves_trans; [apply moves_disableTimeout |].
    destruct (run_end_locals (p_message m))
      as [e | [[[result region] logPath] path]].
    - by apply moves_log.
    - destruct (wanted self logPath result).
      + eapply moves_trans; [| apply moves_suspend]; by apply moves_log.
      + apply moves_data_then_finish. }
  destruct (is_subtopic (topic_subtopic (p_topic m)) "error"); [| apply moves_refl].
  eapply moves_trans; [apply moves_disableTimeout |].
  eapply moves_trans; by apply moves_emit.
Qed.

Lemma live_on_fetched h response s :
  live 0 s → live 0 (on_fetched self h response s).
Proof.
  intros Hl. unfold on_fetched.
  destruct (fetches s !! h) as [f |] eqn:Hh; [| done].
  pose proof (live_resume 0 _ _ _ Hl Hh) as Hr.
  destruct response as [e | v].
  - apply live_weaken. by apply live_log.
  - destruct (awaited f).
    + by apply live_data_then_finish.
    + by apply live_finish.
Qed.

Lemma moves_on_fetched h response s : moves s (on_fetched self h response s).
Proof.
  unfold on_fetched.
  destruct (fetches s !! h) as [f |]; [| apply moves_refl].
  eapply moves_trans; [apply moves_resume |].
  destruct response as [e | v]; [by apply moves_log |].
  destruct (awaited f); [apply moves_data_then_finish | apply moves_finish].
Qed.

Lemma live_on_timeout h r c s :
  live 0 s → timers s !! h = Some (r, c) →
  live 0 (on_timeout r c (set_timers (delete h (timers s)) s)).
Proof.
  intros Hl Hh. unfold on_timeout.
  apply live_emit_finished. apply live_emit; [done |].
  by apply (live_retire 0 r h c s).
Qed.

Lemma moves_on_timeout h r c s :
  moves s (on_timeout r c (set_timers (delete h (timers s)) s)).
Proof.
  unfold on_timeout.
  eapply moves_trans; [apply (moves_retire r h s) |].
  eapply moves_trans; by apply moves_emit.
Qed.

(** *** Arming the timers *)

Lemma arm_frame cs ids h s :
  run_phase (arm self cs ids h s) = run_phase s ∧
  checks (arm self cs ids h s) = checks s ∧
  allChecksFinishedPromise (arm self cs ids h s) = allChecksFinishedPromise s ∧
  listening (arm self cs ids h s) = listening s ∧
  parked_handlers (arm self cs ids h s) = parked_handlers s ∧
  fetches (arm self cs ids h s) = fetches s ∧
  handlers (arm self cs ids h s) = handlers s ∧
  trace (arm self cs ids h s) = trace s ++ arming self cs ids h.
Proof.
  revert h s. induction cs as [| c cs IH]; intros h s; simpl.
  - by rewrite app_nil_r.
  - destruct (IH (S h)
      (set_timeouts (<[obj_get (check_id c) ids:=h]> (timeouts s))
         (set_timers (<[h:=(obj_get (check_id c) ids, c)]> (timers s))
            (log (SetTimeout h (obj_get (check_id c) ids, c)
                    (timeout self * 1000)) s))))
      as (-> & -> & -> & -> & -> & -> & -> & ->).
    simpl_state. by rewrite <- app_assoc.
Qed.

Lemma arm_timers cs ids h s :
  table_ok s → (∀ j, h ≤ j → timers s !! j = None) →
  table_ok (arm self cs ids h s) ∧
  size (timers (arm self cs ids h s)) = size (timers s) + length cs ∧
  (∀ j, j < h → timers (arm self cs ids h s) !! j = timers s !! j) ∧
  (∀ i c, cs !! i = Some c →
     timers (arm self cs ids h s) !! (h + i)
     = Some (obj_get (check_id c) ids, c)) ∧
  (∀ j, h + length cs ≤ j → timers (arm self cs ids h s) !! j = None).
Proof.
  revert h s. induction cs as [| c cs IH]; intros h s Ht Hfresh; simpl.
  - split_and!; [done | lia | done | by intros i c | ].
    intros j Hj. apply Hfresh. lia.
  - set (r := obj_get (check_id c) ids).
    set (s1 := set_timeouts _ _).
    assert (table_ok s1) as Ht1.
    { intros r' h'. subst s1. simpl_state. intros Hr'.
      destruct (decide (r = r')) as [<- | Hne].
      - rewrite lookup_insert_eq in Hr'. injection Hr' as <-.
        exists c. by rewrite lookup_insert_eq.
      - rewrite lookup_insert_ne in Hr' by done.
        destruct (Ht _ _ Hr') as [c' Hc']. exists c'.
        rewrite lookup_insert_ne; [done |].
        intros <-. rewrite Hfresh in Hc'; [done | lia]. }
    assert (∀ j, S h ≤ j → timers s1 !! j = None) as Hf1.
    { intros j Hj. subst s1. simpl_state.
      rewrite lookup_insert_ne by lia. apply Hfresh. lia. }
    destruct (IH (S h) s1 Ht1 Hf1) as (? & Hsz & Hlow & Hat & Hhigh).
    split_and!; [done | | | |].
    + rewrite Hsz. subst s1. simpl_state.
      rewrite map_size_insert_None by (apply Hfresh; lia). lia.
    + intros j Hj. rewrite Hlow by lia. subst s1. simpl_state.
      by rewrite lookup_insert_ne by lia.
    + intros [| i] c' Hc'; simpl in Hc'.
      * injection Hc' as <-. rewrite Nat.add_0_r, Hlow by lia.
        subst s1. simpl_state. by rewrite lookup_insert_eq.
      * replace (h + S i) with (S h + i) by lia. by apply Hat.
    + intros j Hj. apply Hhigh. lia.
Qed.

Lemma arming_local_free cs ids h :
  events_of (arming self cs ids h) = [].
Proof. revert h. induction cs; intros h; simpl; [done | apply IHcs]. Qed.

(** *** Messages, timers and fetches *)

Variable suite : string.

Lemma react_quiet i s :
  quiet s → wakes_handler i →
  react self suite i s = s ∨
  (∃ e, react self suite i s = log (HandlerThrew e) s) ∨
  (checks s = Pending ∧
   ∃ m, react self suite i s = set_parked (parked_handlers s ++ [m]) s).
Proof.
  intros (Hto & Hti & Hfe) Hi.
  destruct i as [| | | topic raw | h | h response |]; try done.
  - assert (react self suite (Message topic raw) s
            = if listening s then on_message self topic raw s else s) as ->
      by by destruct (run_phase s).
    destruct (listening s); [| by left].
    unfold on_message. destruct raw as [| message]; [right; left; eauto |].
    destruct (checks s) as [| | known | e] eqn:Hc.
    + right; left; eauto.
    + right; right; eauto.
    + left. unfold handler_body. simpl_state. by rewrite Hto, lookup_empty.
    + right; left; eauto.
  - left.
    assert (react self suite (TimerFired h) s
            = match timers s !! h with
              | Some (r, c) => on_timeout r c (set_timers (delete h (timers s)) s)
              | None => s
              end) as -> by by destruct (run_phase s).
    by rewrite Hti, lookup_empty.
  - left.
    assert (react self suite (FetchDone h response) s
            = on_fetched self h response s) as -> by by destruct (run_phase s).
    unfold on_fetched. by rewrite Hfe, lookup_empty.
Qed.

Lemma react_live i known s :
  live 0 s → checks s = Resolved known → wakes_handler i →
  live 0 (react self suite i s) ∧ moves s (react self suite i s).
Proof.
  intros Hl Hc Hi.
  destruct i as [| | | topic raw | h | h response |]; try done.
  - assert (react self suite (Message topic raw) s
            = if listening s then on_message self topic raw s else s) as ->
      by by destruct (run_phase s).
    destruct (listening s); [| split; [done | apply moves_refl]].
    unfold on_message. destruct raw as [| message].
    { split; [by apply live_log | by apply moves_log]. }
    rewrite Hc. split; [by apply live_handler_body | apply moves_handler_body].
  - assert (react self suite (TimerFired h) s
            = match timers s !! h with
              | Some (r, c) => on_timeout r c (set_timers (delete h (timers s)) s)
              | None => s
              end) as -> by by destruct (run_phase s).
    destruct (timers s !! h) as [[r c] |] eqn:Hh.
    + split; [by apply (live_on_timeout h) | apply moves_on_timeout].
    + split; [done | apply moves_refl].
  - assert (react self suite (FetchDone h response) s
            = on_fetched self h response s) as -> by by destruct (run_phase s).
    split; [by apply live_on_fetched | apply moves_on_fetched].
Qed.

Lemma resume_run_idle s : run_phase s ≠ Waiting → resume_run s = s.
Proof. unfold resume_run. by destruct (run_phase s). Qed.
End Bookkeeping.

(** ** The shape of every run *)

Section Invariant.
Variable self : CheckRunner.
Variable suite : string.

Lemma events_of_threw l : Forall threw l → events_of l = [].
Proof.
  induction 1 as [| a l Ha _ IH]; [done |].
  destruct a; done.
Qed.

Lemma events_of_triggered mid mid2 :
  Forall threw mid → Forall threw mid2 → events_of (triggered self suite mid mid2) = [].
Proof.
  intros H1 H2. unfold triggered, opening.
  change (events_of (mid ++ Subscribed :: Trigger (trigger_request self suite)
                       :: mid2) = []).
  rewrite events_of_app. change (events_of mid ++ events_of mid2 = []).
  by rewrite (events_of_threw _ H1), (events_of_threw _ H2).
Qed.

Lemma events_of_started cs ids mid mid2 body :
  Forall threw mid → Forall threw mid2 →
  events_of (started self suite cs ids mid mid2 body) = RUN_STARTED cs :: events_of body.
Proof.
  intros H1 H2. unfold started.
  rewrite !events_of_app, (events_of_triggered _ _ H1 H2),
    arming_local_free. done.
Qed.

Lemma local_not_run_finished l :
  Forall local l → count is_run_finished (events_of l) = 0.
Proof.
  induction 1 as [| a l Ha _ IH]; [done |].
  destruct a as [| | | | | | | e | | | |]; try done.
  destruct e; try done.
Qed.

Lemma live_quiet s c :
  live 0 s → allChecksFinishedPromise s = Some c → resolved c = true →
  quiet s ∧ finished s = numChecks c ∧ finishedCheckCount c = numChecks c.
Proof.
  intros [Ht _ (c' & Hc' & Hle & Hfc & Hres)] Hc Hr.
  rewrite Hc in Hc'. injection Hc' as <-.
  rewrite Hr in Hres. symmetry in Hres. apply Nat.eqb_eq in Hres.
  assert (timers s = ∅) as Hti by (apply map_size_empty_inv; lia).
  assert (fetches s = ∅) as Hfe by (apply map_size_empty_inv; lia).
  split; [| split; congruence]. split_and!; try done.
  apply map_empty. intros r.
  destruct (timeouts s !! r) as [h |] eqn:Hr'; [| done].
  destruct (Ht _ _ Hr') as [? Hh]. by rewrite Hti, lookup_empty in Hh.
Qed.

Lemma emit_plain e s : is_check_finished e = false → emit e s = log (Emit e) s.
Proof. unfold emit. by destruct e. Qed.

(** [run()] gets its turn at the end of a step of a started run. *)
Lemma settle s cs ids c mid mid2 body :
  run_phase s = Waiting →
  live 0 s → checks s = Resolved (cs, objectFlip ids) → listening s = true →
  parked_handlers s = [] →
  allChecksFinishedPromise s = Some c → numChecks c = length cs →
  trace s = started self suite cs ids mid mid2 body →
  Forall threw mid → Forall threw mid2 → Forall local body →
  inv self suite (resume_run s).
Proof.
  intros Hp Hl Hc Hli Hpa Hn HN Htr H1 H2 Hb.
  unfold resume_run. rewrite Hp, Hn.
  destruct (resolved c) eqn:Hres.
  - destruct (live_quiet s c Hl Hn Hres) as (Hq & Hfin & Hfc).
    rewrite emit_plain by done.
    eapply (inv_completed self suite _ cs ids c mid mid2 body []); simpl_state;
      try done; [| | congruence].
    + rewrite Htr, <- app_assoc. done.
    + rewrite <- HN, <- Hfin. unfold finished, events.
      rewrite Htr, events_of_started by done. done.
  - by eapply (inv_running self suite _ cs ids c mid mid2 body).
Qed.

Lemma fold_handler_body known ms s :
  live 0 s →
  live 0 (fold_left (λ s m, handler_body self known m s) ms s) ∧
  moves s (fold_left (λ s m, handler_body self known m s) ms s).
Proof.
  revert s. induction ms as [| m ms IH]; intros s Hl; simpl.
  - split; [done | apply moves_refl].
  - destruct (IH (handler_body self known m s)) as [? ?].
    { by apply live_handler_body. }
    split; [done |].
    eapply moves_trans; [apply moves_handler_body | done].
Qed.

Lemma fold_threw e (ms : list parked) s :
  ∃ l, Forall threw l ∧
    fold_left (λ s _, log (HandlerThrew e) s) ms s
    = State (run_phase s) (checks s) (timeouts s) (timers s)
        (allChecksFinishedPromise s) (listening s) (parked_handlers s)
        (fetches s) (handlers s) (trace s ++ l).
Proof.
  revert s. induction ms as [| m ms IH]; intros s; simpl.
  - exists []. split; [done |]. rewrite app_nil_r. by destruct s.
  - destruct (IH (log (HandlerThrew e) s)) as (l & Hl & ->).
    exists (HandlerThrew e :: l). split; [by constructor |].
    simpl_state. by rewrite <- app_assoc.
Qed.

(** The invariant holds at the start... *)
Lemma inv_init : inv self suite init.
Proof. constructor. Qed.

(** [scheduleAllChecks] between the trigger response and the moment the
    parked handlers resume. *)
Lemma scheduled cs ids s :
  quiet s → events s = [] →
  let s0 := set_parked []
              (set_phase Waiting (scheduleAllChecks_resume self (cs, ids) s)) in
  run_phase s0 = Waiting ∧ live 0 s0 ∧
  checks s0 = Resolved (cs, objectFlip ids) ∧ listening s0 = listening s ∧
  parked_handlers s0 = [] ∧
  allChecksFinishedPromise s0 = Some (allChecksFinished (length cs)) ∧
  trace s0 = trace s ++ arming self cs ids 0 ++ [Emit (RUN_STARTED cs)] ∧
  (∀ i c, cs !! i = Some c →
     timers s0 !! i = Some (obj_get (check_id c) ids, c)) ∧
  (∀ i, length cs ≤ i → timers s0 !! i = None) ∧
  fetches s0 = ∅.
Proof.
  intros (Hto & Hti & Hfe) Hev. simpl.
  rewrite emit_plain by done. simpl_state.
  set (s1 := set_counter (Some (allChecksFinished (length cs))) s).
  destruct (arm_frame self cs ids 0 s1) as (_ & _ & Hn & Hli & _ & Hfe' & Hh & Htr).
  destruct (arm_timers self cs ids 0 s1) as (Ht & Hsz & _ & Hat & Hhigh).
  { intros r h. subst s1. simpl_state. by rewrite Hto, lookup_empty. }
  { intros j _. subst s1. simpl_state. by rewrite Hti, lookup_empty. }
  split_and!; try done.
  - split.
    + done.
    + intros h _. simpl_state. rewrite Hfe'. subst s1. simpl_state.
      by rewrite Hfe, lookup_empty.
    + exists (allChecksFinished (length cs)). simpl_state.
      split; [done |].
      assert (finished
                (set_parked []
                   (set_phase Waiting
                      (set_checks (Resolved (cs, objectFlip ids))
                         (log (Emit (RUN_STARTED cs)) (arm self cs ids 0 s1)))))
              = finished s1) as ->.
      { unfold finished, events. simpl_state.
        rewrite Htr, !events_of_app, arming_local_free, app_nil_r.
        by rewrite count_app, Nat.add_0_r. }
      assert (finished s1 = 0) as ->.
      { unfold finished, events in *. subst s1. simpl_state. by rewrite Hev. }
      rewrite Hsz, Hfe'. subst s1. simpl_state.
      rewrite Hti, Hfe, !map_size_empty. simpl.
      split_and!; [lia | done | apply Nat.eqb_sym].
  - simpl_state. by rewrite Htr, <- app_assoc.
  - simpl_state. by rewrite Hfe'.
Qed.
Lemma quiet_step s i :
  quiet s → run_phase s ≠ Waiting → wakes_handler i →
  step self suite s i = s ∨
  (∃ e, step self suite s i = log (HandlerThrew e) s) ∨
  (checks s = Pending ∧
   ∃ m, step self suite s i = set_parked (parked_handlers s ++ [m]) s).
Proof.
  intros Hq Hp Hi. unfold step.
  destruct (react_quiet self suite i s Hq Hi) as [-> | [[e ->] | [? [m ->]]]].
  - left. by apply resume_run_idle.
  - right; left. exists e. by apply resume_run_idle.
  - right; right. split; [done |]. exists m. by apply resume_run_idle.
Qed.

Lemma closing_not_waiting p : closing p → p ≠ Waiting.
Proof. by destruct p. Qed.

(** ... and every step keeps it. *)
Lemma inv_step s i : inv self suite s → inv self suite (step self suite s i).
Proof.
  intros H.
  destruct H as [ | e | s mid Hp Hq Hc Hli Hpa Hn Htr Hm
                | s mid mid2 Hp Hq Hc Hli Hn Htr Hm Hm2
                | s e mid mid2 mid3 Hp Hq Hc Hli Hpa Hn Htr Hm Hm2 Hm3
                | s cs ids c mid mid2 body Hp Hl Hc Hli Hpa Hn HN Hres Htr Hm Hm2 Hb
                | s cs ids c mid mid2 body mid3 Hp Hq Hc Hli Hpa Hn HN Hres Htr Hm Hm2 Hb Hm3 Hcnt Hfc ].
  - (* connecting *)
    destruct i as [[e |] | [e |] | [e | r] | topic raw | h | h r | [e |]];
      unfold step, react; simpl; rewrite ?lookup_empty; simpl;
      try apply inv_connecting.
    + apply inv_refused.
    + by eapply (inv_subscribing self suite _ []); simpl_state; auto.
  - (* the connection failed *)
    destruct i as [[e' |] | [e' |] | [e' | r] | topic raw | h | h r | [e' |]];
      unfold step, react; simpl; rewrite ?lookup_empty; simpl;
      apply inv_refused.
  - (* subscribing, or the subscription failed *)
    assert (run_phase s ≠ Waiting) as Hnw by (by destruct Hp as [-> | [e ->]]).
    destruct (decide (wakes_handler i)) as [Hi | Hi].
    { destruct (quiet_step s i Hq Hnw Hi) as [-> | [[e ->] | [? _]]].
      - by eapply inv_subscribing.
      - eapply (inv_subscribing self suite _ (mid ++ [HandlerThrew e])); simpl_state;
          try done.
        + by rewrite Htr.
        + apply Forall_app. split; [done | by constructor].
      - congruence. }
    destruct Hp as [Hp | [e Hp]];
      destruct i as [[e' |] | [e' |] | [e' | r] | topic raw | h | h r | [e' |]];
      try (by destruct Hi);
      unfold step, react; rewrite Hp; simpl;
      try (rewrite resume_run_idle by (by rewrite Hp);
           by eapply (inv_subscribing self suite _ mid); eauto).
    + rewrite resume_run_idle by done.
      eapply (inv_subscribing self suite _ mid); simpl_state; eauto.
    + rewrite resume_run_idle by done.
      eapply (inv_triggering self suite _ mid []); simpl_state; try done.
      rewrite Htr. unfold triggered. by rewrite <- app_assoc.
  - (* triggering *)
    assert (run_phase s ≠ Waiting) as Hnw by (by rewrite Hp).
    destruct (decide (wakes_handler i)) as [Hi | Hi].
    { destruct (quiet_step s i Hq Hnw Hi) as [-> | [[e ->] | [_ [m ->]]]].
      - by eapply inv_triggering.
      - eapply (inv_triggering self suite _ mid (mid2 ++ [HandlerThrew e])); simpl_state;
          try done.
        + rewrite Htr. unfold triggered. rewrite <- app_assoc. done.
        + apply Forall_app. split; [done | by constructor].
      - by eapply (inv_triggering self suite _ mid mid2). }
    destruct i as [[e' |] | [e' |] | [e' | [cs ids]] | topic raw | h | h r | [e' |]];
      try (by destruct Hi);
      unfold step, react; rewrite Hp;
      try (rewrite resume_run_idle by (by rewrite Hp);
           by eapply (inv_triggering self suite _ mid mid2)).
    + (* the trigger request failed *)
      rewrite emit_plain by done. simpl_state.
      match goal with |- context [fold_left _ _ ?s0] =>
        destruct (fold_threw e' (parked_handlers s) s0) as (l & Hl & ->) end.
      simpl_state. rewrite resume_run_idle by done.
      eapply (inv_failed self suite _ e' mid mid2 l); simpl_state; try done.
      rewrite Htr, <- !app_assoc. done.
    + (* the trigger response *)
      assert (events s = []) as Hev.
      { unfold events. rewrite Htr. by apply events_of_triggered. }
      destruct (scheduled cs ids s Hq Hev)
        as (Hp0 & Hl0 & Hc0 & Hli0 & Hpa0 & Hn0 & Htr0 & _).
      cbn [fst snd].
      assert (parked_handlers
                (set_phase Waiting (scheduleAllChecks_resume self (cs, ids) s))
              = parked_handlers s) as ->.
      { unfold scheduleAllChecks_resume. rewrite emit_plain by done.
        simpl_state.
        by destruct (arm_frame self cs ids 0
                       (set_counter (Some (allChecksFinished (length cs))) s))
          as (_ & _ & _ & _ & -> & _). }
      match goal with |- context [fold_left ?f ?ms ?s0] =>
        destruct (fold_handler_body (cs, objectFlip ids) ms s0 Hl0)
          as [Hl1 [Hp1 Hc1 Hli1 Hpa1 HN1 (l & Htr1 & Hloc)]];
        set (s1 := fold_left f ms s0) in *
      end.
      rewrite Hn0 in HN1.
      destruct (allChecksFinishedPromise s1) as [c1 |] eqn:Hn1; [| done].
      injection HN1 as HN1.
      eapply (settle s1 cs ids c1 mid mid2 l); try congruence.
      rewrite Htr1, Htr0, Htr. unfold started. by rewrite <- !app_assoc.
  - (* the trigger request failed *)
    pose proof (closing_not_waiting _ Hp) as Hnw.
    destruct (decide (wakes_handler i)) as [Hi | Hi].
    { destruct (quiet_step s i Hq Hnw Hi) as [-> | [[e' ->] | [? _]]].
      - by eapply inv_failed.
      - eapply (inv_failed self suite _ e mid mid2 (mid3 ++ [HandlerThrew e']));
          simpl_state; try done.
        + rewrite Htr, <- !app_assoc. done.
        + apply Forall_app. split; [done | by constructor].
      - congruence. }
    destruct (run_phase s) eqn:Hph; try done;
      destruct i as [[e' |] | [e' |] | [e' | r] | topic raw | h | h r | [e' |]];
      try (by destruct Hi);
      unfold step, react; rewrite Hph;
      try (rewrite resume_run_idle by (by rewrite Hph);
           by eapply (inv_failed self suite _ e mid mid2 mid3); rewrite ?Hph);
      rewrite resume_run_idle by done;
      by eapply (inv_failed self suite _ e mid mid2 mid3).
  - (* the run is under way *)
    destruct (decide (wakes_handler i)) as [Hi | Hi].
    { unfold step.
      destruct (react_live self suite i _ s Hl Hc Hi)
        as [Hl1 [Hp1 Hc1 Hli1 Hpa1 HN1 (l & Htr1 & Hloc)]].
      set (s1 := react self suite i s) in *.
      rewrite Hn in HN1.
      destruct (allChecksFinishedPromise s1) as [c1 |] eqn:Hn1; [| done].
      injection HN1 as HN1.
      eapply (settle s1 cs ids c1 mid mid2 (body ++ l)); try congruence.
      - rewrite Htr1, Htr. unfold started. rewrite <- !app_assoc. done.
      - by apply Forall_app. }
    assert (step self suite s i = s) as ->.
    { destruct i as [[e' |] | [e' |] | [e' | r] | topic raw | h | h r | [e' |]];
        try (by destruct Hi);
        unfold step, react; rewrite Hp;
        unfold resume_run; by rewrite Hp, Hn, Hres. }
    by eapply (inv_running self suite _ cs ids c mid mid2 body).
  - (* the run is over *)
    pose proof (closing_not_waiting _ Hp) as Hnw.
    destruct (decide (wakes_handler i)) as [Hi | Hi].
    { destruct (quiet_step s i Hq Hnw Hi) as [-> | [[e' ->] | [? _]]].
      - by eapply inv_completed.
      - eapply (inv_completed self suite _ cs ids c mid mid2 body
                  (mid3 ++ [HandlerThrew e'])); simpl_state; try done.
        + rewrite Htr, <- !app_assoc. done.
        + apply Forall_app. split; [done | by constructor].
      - congruence. }
    destruct (run_phase s) eqn:Hph; try done;
      destruct i as [[e' |] | [e' |] | [e' | r] | topic raw | h | h r | [e' |]];
      try (by destruct Hi);
      unfold step, react; rewrite Hph;
      try (rewrite resume_run_idle by (by rewrite Hph);
           by eapply (inv_completed self suite _ cs ids c mid mid2 body mid3);
             rewrite ?Hph);
      rewrite resume_run_idle by done;
      by eapply (inv_completed self suite _ cs ids c mid mid2 body mid3).
Qed.

Theorem inv_exec ins : inv self suite (exec self suite ins).
Proof.
  unfold exec. rewrite <- (rev_involutive ins).
  induction (rev ins) as [| i l IH]; simpl.
  - apply inv_init.
  - rewrite fold_left_app. simpl. by apply inv_step.
Qed.
End Invariant.

(** ** The order of subscription and trigger *)

Section Order.
Variable self : CheckRunner.
Variable suite : string.

Lemma threw_not_trigger l : Forall threw l → Forall (λ a, ¬ is_trigger a) l.
Proof.
  intros H. eapply Forall_impl; [done |]. intros a Ha Hg. by destruct a.
Qed.

Lemma local_not_trigger l : Forall local l → Forall (λ a, ¬ is_trigger a) l.
Proof.
  intros H. eapply Forall_impl; [done |]. intros a Ha Hg. by destruct a.
Qed.

Lemma arming_not_trigger cs ids h :
  Forall (λ a, ¬ is_trigger a) (arming self cs ids h).
Proof.
  revert h. induction cs as [| c cs IH]; intros h; simpl; [done |].
  constructor; [by intros [] | apply IH].
Qed.

(** A trace with one trigger request splits around it in one way. *)
Lemma split_at_trigger (A B pre post : list action) r0 req :
  Forall (λ a, ¬ is_trigger a) A → Forall (λ a, ¬ is_trigger a) B →
  A ++ Trigger r0 :: B = pre ++ Trigger req :: post →
  pre = A ∧ req = r0 ∧ post = B.
Proof.
  intros HA HB. revert pre.
  induction HA as [| a A Ha _ IH]; intros pre E.
  - destruct pre as [| x pre]; simpl in E.
    + by injection E as -> ->.
    + injection E as <- ->.
      apply Forall_app in HB as [_ HB]. inversion HB as [| ? ? Hx _].
      by destruct Hx.
  - destruct pre as [| x pre]; simpl in E.
    + injection E as -> _. by destruct Ha.
    + injection E as -> E. destruct (IH _ E) as (-> & -> & ->). done.
Qed.

Lemma no_trigger_no_split (l pre post : list action) req :
  Forall (λ a, ¬ is_trigger a) l → l ≠ pre ++ Trigger req :: post.
Proof.
  intros Hl ->. apply Forall_app in Hl as [_ Hl].
  inversion Hl as [| ? ? Hx _]. by destruct Hx.
Qed.

(** The trace of a run either has no trigger request, or is the opening,
    the acknowledgement, the request, and effects that are no request. *)
Lemma trace_shape s :
  inv self suite s →
  Forall (λ a, ¬ is_trigger a) (trace s) ∨
  ∃ mid post,
    trace s = opening self suite mid
              ++ Subscribed :: Trigger (trigger_request self suite) :: post ∧
    Forall threw mid ∧ Forall (λ a, ¬ is_trigger a) post.
Proof.
  intros [ | e | s' mid _ _ _ _ _ _ Htr Hm
         | s' mid mid2 _ _ _ _ _ Htr Hm Hm2
         | s' e mid mid2 mid3 _ _ _ _ _ _ Htr Hm Hm2 Hm3
         | s' cs ids c mid mid2 body _ _ _ _ _ _ _ _ Htr Hm Hm2 Hb
         | s' cs ids c mid mid2 body mid3 _ _ _ _ _ _ _ _ Htr Hm Hm2 Hb Hm3 _ _ ].
  - left. simpl. repeat constructor; by intros [].
  - left. simpl. repeat constructor; by intros [].
  - left. rewrite Htr. unfold opening.
    repeat (constructor; [by intros [] |]). by apply threw_not_trigger.
  - right. exists mid, mid2. split_and!; [done | done |].
    by apply threw_not_trigger.
  - right. exists mid, (mid2 ++ Emit (ERROR e) :: End :: mid3).
    split_and!; [| done |].
    + rewrite Htr. unfold triggered. by rewrite <- app_assoc.
    + apply Forall_app. split; [by apply threw_not_trigger |].
      repeat (constructor; [by intros [] |]). by apply threw_not_trigger.
  - right.
    exists mid, (mid2 ++ arming self cs ids 0 ++ Emit (RUN_STARTED cs) :: body).
    split_and!; [| done |].
    + rewrite Htr. unfold started, triggered. by rewrite <- !app_assoc.
    + apply Forall_app. split; [by apply threw_not_trigger |].
      apply Forall_app. split; [apply arming_not_trigger |].
      constructor; [by intros [] | by apply local_not_trigger].
  - right.
    exists mid, (mid2 ++ arming self cs ids 0 ++ Emit (RUN_STARTED cs)
                   :: body ++ Emit RUN_FINISHED :: End :: mid3).
    split_and!; [| done |].
    + rewrite Htr. unfold started, triggered. by rewrite <- !app_assoc.
    + apply Forall_app. split; [by apply threw_not_trigger |].
      apply Forall_app. split; [apply arming_not_trigger |].
      constructor; [by intros [] |].
      apply Forall_app. split; [by apply local_not_trigger |].
      repeat (constructor; [by intros [] |]). by apply threw_not_trigger.
Qed.
End Order.

(** C1. In every execution of [run()], a trigger request in the trace comes
    after the handler was attached, the subscription was sent and its promise
    resolved, in this order: what precedes the request is [Connect],
    [OnMessage], [Subscribe], message handlers that threw meanwhile, and
    [Subscribed] right before it.  The request is the one [scheduleAllChecks]
    builds, and no second request follows. *)
Theorem subscribed_before_trigger self suite ins pre req post :
  trace (exec self suite ins) = pre ++ Trigger req :: post →
  ∃ mid,
    pre = Connect :: OnMessage :: Subscribe (results_topic self suite)
            :: mid ++ [Subscribed] ∧
    Forall threw mid ∧
    req = trigger_request self suite ∧
    Forall (λ a, ¬ is_trigger a) post.
Proof.
  intros E.
  destruct (trace_shape self suite _ (inv_exec self suite ins))
    as [Hno | (mid & post' & Htr & Hm & Hpost)].
  - by destruct (no_trigger_no_split _ pre post req Hno).
  - rewrite Htr in E.
    assert (Forall (λ a, ¬ is_trigger a) (opening self suite mid ++ [Subscribed]))
      as HA.
    { apply Forall_app. split; [| by repeat constructor; intros []].
      unfold opening. repeat (constructor; [by intros [] |]).
      by apply threw_not_trigger. }
    replace (opening self suite mid
             ++ Subscribed :: Trigger (trigger_request self suite) :: post')
      with ((opening self suite mid ++ [Subscribed])
            ++ Trigger (trigger_request self suite) :: post') in E
      by (by rewrite <- app_assoc).
    destruct (split_at_trigger _ _ _ _ _ _ HA Hpost E) as (-> & -> & ->).
    exists mid. done.
Qed.

Lemma subscribed_before_trigger_witness :
  trace (exec sample_runner "suite" [ConnectDone None; SubscribeDone None])
  = [Connect; OnMessage;
     Subscribe "account/acc/ad-hoc-check-results/suite/+/+"; Subscribed]
    ++ Trigger (trigger_request sample_runner "suite") :: [] ∧
  ∃ mid,
    [Connect; OnMessage;
     Subscribe "account/acc/ad-hoc-check-results/suite/+/+"; Subscribed]
    = Connect :: OnMessage :: Subscribe (results_topic sample_runner "suite")
        :: mid ++ [Subscribed] ∧
    Forall threw mid ∧
    trigger_request sample_runner "suite" = trigger_request sample_runner "suite" ∧
    Forall (λ a, ¬ is_trigger a) [].
Proof.
  split; [reflexivity |].
  apply (subscribed_before_trigger sample_runner "suite"
           [ConnectDone None; SubscribeDone None]).
  reflexivity.
Defined.

(** ** What stays once the trigger request is answered *)

Section Stability.
Variable self : CheckRunner.
Variable suite : string.

Lemma exec_app ins1 ins2 :
  exec self suite (ins1 ++ ins2)
  = fold_left (step self suite) ins2 (exec self suite ins1).
Proof. unfold exec. apply fold_left_app. Qed.

Lemma exec_snoc ins i :
  exec self suite (ins ++ [i]) = step self suite (exec self suite ins) i.
Proof. by rewrite exec_app. Qed.

Lemma inv_fold ins s :
  inv self suite s → inv self suite (fold_left (step self suite) ins s).
Proof.
  revert s. induction ins as [| i ins IH]; intros s Hs; simpl; [done |].
  apply IH. by apply inv_step.
Qed.

(** A handler or a callback either [moves] the state or parks a message. *)
Lemma react_handler i s :
  wakes_handler i →
  moves s (react self suite i s) ∨
  ∃ m, react self suite i s = set_parked (parked_handlers s ++ [m]) s.
Proof.
  intros Hi. destruct i as [| | | topic raw | h | h response |]; try done.
  - assert (react self suite (Message topic raw) s
            = if listening s then on_message self topic raw s else s) as ->
      by by destruct (run_phase s).
    destruct (listening s); [| left; apply moves_refl].
    unfold on_message. destruct raw as [| message]; [left; by apply moves_log |].
    destruct (checks s) as [| | known | e].
    + left. by apply moves_log.
    + right. eauto.
    + left. apply moves_handler_body.
    + left. by apply moves_log.
  - left.
    assert (react self suite (TimerFired h) s
            = match timers s !! h with
              | Some (r, c) => on_timeout r c (set_timers (delete h (timers s)) s)
              | None => s
              end) as -> by by destruct (run_phase s).
    destruct (timers s !! h) as [[r c] |];
      [apply moves_on_timeout | apply moves_refl].
  - left.
    assert (react self suite (FetchDone h response) s
            = on_fetched self h response s) as -> by by destruct (run_phase s).
    apply moves_on_fetched.
Qed.

Lemma resume_run_keeps s :
  checks (resume_run s) = checks s ∧
  allChecksFinishedPromise (resume_run s) = allChecksFinishedPromise s ∧
  timers (resume_run s) = timers s ∧ timeouts (resume_run s) = timeouts s ∧
  (answered (run_phase s) → answered (run_phase (resume_run s))).
Proof.
  destruct (decide (run_phase s = Waiting)) as [Hp | Hp];
    [| by rewrite resume_run_idle].
  unfold resume_run. rewrite Hp.
  destruct (allChecksFinishedPromise s) as [c |] eqn:Hc; [| by rewrite Hp].
  destruct (resolved c); [| by rewrite Hp].
  rewrite emit_plain by done. simpl_state. split_and!; try done.
  intros _. by right.
Qed.

(** After the answer to the trigger request, [this.checks] and the number
    of expected checks are settled for good, and no timer is armed any more. *)
Lemma step_answered s i :
  answered (run_phase s) →
  answered (run_phase (step self suite s i)) ∧
  checks (step self suite s i) = checks s ∧
  numChecks <$> allChecksFinishedPromise (step self suite s i)
  = numChecks <$> allChecksFinishedPromise s ∧
  timers (step self suite s i) ⊆ timers s ∧
  timeouts (step self suite s i) ⊆ timeouts s.
Proof.
  intros Ha. unfold step.
  destruct (resume_run_keeps (react self suite i s)) as (-> & -> & -> & -> & Hph).
  assert (answered (run_phase (react self suite i s)) ∧
          checks (react self suite i s) = checks s ∧
          numChecks <$> allChecksFinishedPromise (react self suite i s)
          = numChecks <$> allChecksFinishedPromise s ∧
          timers (react self suite i s) ⊆ timers s ∧
          timeouts (react self suite i s) ⊆ timeouts s) as (? & ? & ? & ? & ?);
    [| by auto].
  destruct (decide (wakes_handler i)) as [Hi | Hi].
  - destruct (react_handler i s Hi) as [[Hp Hc _ _ HN _ ? ?] | [m ->]].
    + by rewrite Hp.
    + done.
  - destruct i as [[e' |] | [e' |] | [e' | r] | topic raw | h | h r | [e' |]];
      try (by destruct Hi);
      unfold react; destruct Ha as [Hp | Hp];
      destruct (run_phase s) eqn:E; try done;
      simpl_state; rewrite ?E; split_and!; try done;
      (by left) || (by right).
Qed.

Lemma fold_answered ins s :
  answered (run_phase s) →
  answered (run_phase (fold_left (step self suite) ins s)) ∧
  checks (fold_left (step self suite) ins s) = checks s ∧
  numChecks <$> allChecksFinishedPromise (fold_left (step self suite) ins s)
  = numChecks <$> allChecksFinishedPromise s ∧
  timers (fold_left (step self suite) ins s) ⊆ timers s ∧
  timeouts (fold_left (step self suite) ins s) ⊆ timeouts s.
Proof.
  revert s. induction ins as [| i ins IH]; intros s Hs; simpl; [done |].
  destruct (step_answered s i Hs) as (Ha & Hc & HN & Hti & Hto).
  destruct (IH _ Ha) as (? & -> & -> & ? & ?).
  split_and!; try done; by etrans.
Qed.

(** Before the answer, no completion signal exists; [run()] waits for it
    only in phase [Waiting]. *)
Lemma unanswered_no_signal s :
  inv self suite s → ¬ answered (run_phase s) →
  allChecksFinishedPromise s = None ∧ events s = [].
Proof.
  intros [ | e | s' mid Hp _ _ _ _ Hn Htr Hm
         | s' mid mid2 Hp _ _ _ Hn Htr Hm Hm2
         | s' e mid mid2 mid3 Hp _ _ _ _ _ _ _ _ _
         | s' cs ids c mid mid2 body Hp _ _ _ _ _ _ _ _ _ _ _
         | s' cs ids c mid mid2 body mid3 Hp _ _ _ _ _ _ _ _ _ _ _ _ _ _ ] Hna.
  - done.
  - destruct Hna. by right.
  - split; [done |]. unfold events. rewrite Htr. unfold opening. simpl.
    by apply events_of_threw.
  - split; [done |]. unfold events. rewrite Htr.
    by apply events_of_triggered.
  - destruct Hna. by right.
  - destruct Hna. by left.
  - destruct Hna. by right.
Qed.
End Stability.

(** ** A failed trigger request *)

Section TriggerFailure.
Variable self : CheckRunner.
Variable suite : string.

Lemma before_triggering p k :
  run_phase (exec self suite (p ++ k)) = Triggering →
  ¬ answered (run_phase (exec self suite p)).
Proof.
  intros Hp Ha. rewrite exec_app in Hp.
  destruct (fold_answered self suite k _ Ha) as ([E | E] & _); by rewrite Hp in E.
Qed.

Lemma trigger_failed_step s e :
  run_phase s = Triggering →
  checks (step self suite s (TriggerDone (inl e))) = Rejected e ∧
  run_phase (step self suite s (TriggerDone (inl e))) = Ending.
Proof.
  intros Hp. unfold step, react. rewrite Hp.
  rewrite emit_plain by done. simpl_state.
  match goal with |- context [fold_left _ _ ?s0] =>
    destruct (fold_threw e (parked_handlers s) s0) as (l & _ & ->) end.
  simpl_state. by rewrite resume_run_idle.
Qed.

(** What the invariant says of a run whose trigger request was rejected. *)
Lemma failed_shape s e :
  inv self suite s → checks s = Rejected e →
  closing (run_phase s) ∧ allChecksFinishedPromise s = None ∧ quiet s ∧
  ∃ mid mid2 mid3,
    trace s = triggered self suite mid mid2 ++ Emit (ERROR e) :: End :: mid3 ∧
    Forall threw mid ∧ Forall threw mid2 ∧ Forall threw mid3.
Proof.
  intros [ | e0 | s' mid _ _ Hc _ _ _ _ _
         | s' mid mid2 _ _ Hc _ _ _ _ _
         | s' e0 mid mid2 mid3 Hp Hq Hc _ _ Hn Htr Hm Hm2 Hm3
         | s' cs ids c mid mid2 body _ _ Hc _ _ _ _ _ _ _ _ _
         | s' cs ids c mid mid2 body mid3 _ _ Hc _ _ _ _ _ _ _ _ _ _ _ _ ] He;
    try (simpl in He; congruence).
  rewrite Hc in He. injection He as ->.
  split_and!; try done. by exists mid, mid2, mid3.
Qed.
End TriggerFailure.

(** C5. When the trigger request is rejected with [e], the only event the
    run ever emits is [ERROR e]; the trace is the opening, the request,
    [ERROR e], the disconnect [End] (once, right after the event), and
    message handlers that threw.  [run()] ends; in no state of the run, before
    or after the rejection, does it wait for the completion signal, which is
    never created. *)
Theorem trigger_failure_only_error self suite ins1 e ins2 :
  run_phase (exec self suite ins1) = Triggering →
  let s := exec self suite (ins1 ++ TriggerDone (inl e) :: ins2) in
  events s = [ERROR e] ∧
  (∃ mid mid2 mid3,
     trace s = Connect :: OnMessage :: Subscribe (results_topic self suite)
                 :: mid ++ Subscribed :: Trigger (trigger_request self suite)
                 :: mid2 ++ Emit (ERROR e) :: End :: mid3 ∧
     Forall threw mid ∧ Forall threw mid2 ∧ Forall threw mid3) ∧
  closing (run_phase s) ∧
  ∀ p, p `prefix_of` ins1 ++ TriggerDone (inl e) :: ins2 →
       run_phase (exec self suite p) ≠ Waiting ∧
       allChecksFinishedPromise (exec self suite p) = None.
Proof.
  intros Hp s.
  assert (∀ rest, checks (exec self suite (ins1 ++ TriggerDone (inl e) :: rest))
                  = Rejected e) as Hrej.
  { intros rest. rewrite exec_app. simpl.
    destruct (trigger_failed_step self suite _ e Hp) as [Hc Hph].
    destruct (fold_answered self suite rest
                (step self suite (exec self suite ins1) (TriggerDone (inl e))))
      as (_ & -> & _); [right; by rewrite Hph | done]. }
  destruct (failed_shape self suite s e (inv_exec self suite _) (Hrej ins2))
    as (Hcl & Hn & _ & mid & mid2 & mid3 & Htr & Hm & Hm2 & Hm3).
  split_and!.
  - unfold events. rewrite Htr, events_of_app, events_of_triggered by done.
    simpl. by rewrite events_of_threw.
  - exists mid, mid2, mid3. split_and!; try done.
    rewrite Htr. unfold triggered, opening. simpl. by rewrite <- app_assoc.
  - done.
  - intros p [k Hk].
    apply List.app_eq_app in Hk as [l [[E Hl] | [-> Hl]]].
    + subst ins1. pose proof (before_triggering self suite p l Hp) as Hna.
      split; [intros E; apply Hna; by left |].
      by apply (unanswered_no_signal self suite _ (inv_exec self suite _)).
    + destruct l as [| x l]; simpl in Hl.
      * rewrite app_nil_r, Hp. split; [done |].
        apply (unanswered_no_signal self suite _ (inv_exec self suite _)).
        rewrite Hp. by intros [? | ?].
      * injection Hl as <- _.
        destruct (failed_shape self suite _ e (inv_exec self suite _) (Hrej l))
          as (Hcl' & Hn' & _).
        split; [by apply closing_not_waiting | done].
Qed.

Lemma trigger_failure_only_error_witness :
  run_phase (exec sample_runner "suite" [ConnectDone None; SubscribeDone None])
  = Triggering ∧
  let s := exec sample_runner "suite"
             ([ConnectDone None; SubscribeDone None]
              ++ TriggerDone (inl (Failure "ECONNRESET"))
              :: [Message (topic_of "r1" "run-start") (Json JNull);
                  EndDone None]) in
  events s = [ERROR (Failure "ECONNRESET")] ∧
  (∃ mid mid2 mid3,
     trace s = Connect :: OnMessage
                 :: Subscribe (results_topic sample_runner "suite")
                 :: mid ++ Subscribed
                 :: Trigger (trigger_request sample_runner "suite")
                 :: mid2 ++ Emit (ERROR (Failure "ECONNRESET")) :: End :: mid3 ∧
     Forall threw mid ∧ Forall threw mid2 ∧ Forall threw mid3) ∧
  closing (run_phase s) ∧
  ∀ p, p `prefix_of` [ConnectDone None; SubscribeDone None]
                     ++ TriggerDone (inl (Failure "ECONNRESET"))
                     :: [Message (topic_of "r1" "run-start") (Json JNull);
                         EndDone None] →
       run_phase (exec sample_runner "suite" p) ≠ Waiting ∧
       allChecksFinishedPromise (exec sample_runner "suite" p) = None.
Proof.
  split; [reflexivity |].
  apply (trigger_failure_only_error sample_runner "suite"
           [ConnectDone None; SubscribeDone None]).
  reflexivity.
Defined.

(** ** The disconnect in the [finally] block *)

Section Disconnect.
Variable self : CheckRunner.
Variable suite : string.

(** Once [run()] has returned or thrown, nothing changes that. *)
Lemma step_over s i :
  run_phase s = Returned ∨ (∃ e, run_phase s = Threw e) →
  run_phase (step self suite s i) = run_phase s.
Proof.
  intros Hp. unfold step.
  assert (run_phase (react self suite i s) = run_phase s) as Hr.
  { destruct (decide (wakes_handler i)) as [Hi | Hi].
    - by destruct (react_handler self suite i s Hi) as [[? _ _ _ _ _] | [m ->]].
    - destruct i as [[e' |] | [e' |] | [e' | r] | topic raw | h | h r | [e' |]];
        try (by destruct Hi);
        unfold react; destruct Hp as [E | [e E]]; by rewrite E. }
  rewrite resume_run_idle; [done |].
  rewrite Hr. by destruct Hp as [-> | [e ->]].
Qed.

Lemma fold_over ins s :
  run_phase s = Returned ∨ (∃ e, run_phase s = Threw e) →
  run_phase (fold_left (step self suite) ins s) = run_phase s.
Proof.
  revert s. induction ins as [| i ins IH]; intros s Hp; simpl; [done |].
  pose proof (step_over s i Hp) as E.
  rewrite IH; [done |]. by rewrite E.
Qed.
End Disconnect.

(** C8, as the code has it.  [run()] awaits [socketClient.end()] in its
    [finally] block and handles no error there: when the disconnect is
    rejected with [e], [run()] itself is rejected with [e], for good, whether
    the run ended with [RUN_FINISHED] or with [ERROR]; when it succeeds,
    [run()] returns.  The disconnect adds no effect to the trace: the events
    emitted before it are all there are. *)
Theorem disconnect_failure_propagates self suite ins e rest :
  run_phase (exec self suite ins) = Ending →
  run_phase (exec self suite (ins ++ EndDone (Some e) :: rest)) = Threw e ∧
  run_phase (exec self suite (ins ++ EndDone None :: rest)) = Returned ∧
  trace (exec self suite (ins ++ [EndDone (Some e)])) = trace (exec self suite ins).
Proof.
  intros Hp.
  assert (∀ r, step self suite (exec self suite ins) (EndDone r)
               = set_phase (match r with Some e => Threw e | None => Returned end)
                   (exec self suite ins)) as Hstep.
  { intros r. unfold step, react. rewrite Hp.
    destruct r; by rewrite resume_run_idle. }
  split_and!.
  - rewrite exec_app. simpl. rewrite Hstep, fold_over; [done |].
    right. by exists e.
  - rewrite exec_app. simpl. rewrite Hstep, fold_over; [done |]. by left.
  - by rewrite exec_snoc, Hstep.
Qed.

Lemma disconnect_failure_propagates_witness :
  run_phase (exec sample_runner "suite"
               [ConnectDone None; SubscribeDone None; TriggerDone (inr ([], []))])
  = Ending ∧
  run_phase (exec sample_runner "suite"
               ([ConnectDone None; SubscribeDone None; TriggerDone (inr ([], []))]
                ++ EndDone (Some (Failure "socket hang up")) :: []))
  = Threw (Failure "socket hang up") ∧
  run_phase (exec sample_runner "suite"
               ([ConnectDone None; SubscribeDone None; TriggerDone (inr ([], []))]
                ++ EndDone None :: []))
  = Returned ∧
  trace (exec sample_runner "suite"
           ([ConnectDone None; SubscribeDone None; TriggerDone (inr ([], []))]
            ++ [EndDone (Some (Failure "socket hang up"))]))
  = trace (exec sample_runner "suite"
             [ConnectDone None; SubscribeDone None; TriggerDone (inr ([], []))]).
Proof.
  split; [reflexivity |].
  apply (disconnect_failure_propagates sample_runner "suite"
           [ConnectDone None; SubscribeDone None; TriggerDone (inr ([], []))]).
  reflexivity.
Defined.

(** C8 as the specification states it fails: a run without checks emits
    [RUN_STARTED] and [RUN_FINISHED], the disconnect is rejected, and [run()]
    is rejected with that error, where it returns when the disconnect
    succeeds. *)
Lemma disconnect_failure_not_swallowed :
  let done_run := [ConnectDone None; SubscribeDone None;
                   TriggerDone (inr ([], []))] in
  let s := exec sample_runner "suite"
             (done_run ++ [EndDone (Some (Failure "socket hang up"))]) in
  events s = [RUN_STARTED []; RUN_FINISHED] ∧
  run_phase s = Threw (Failure "socket hang up") ∧
  run_phase s ≠ run_phase (exec sample_runner "suite" (done_run ++ [EndDone None])).
Proof. by vm_compute. Qed.

(** ** The completion of a run *)

Section Completion.
Variable self : CheckRunner.
Variable suite : string.

Lemma fold_handler_body_moves known ms s :
  moves s (fold_left (λ s m, handler_body self known m s) ms s).
Proof.
  revert s. induction ms as [| m ms IH]; intros s; simpl.
  - apply moves_refl.
  - eapply moves_trans; [apply moves_handler_body | apply IH].
Qed.

Lemma trigger_answered_step s cs ids :
  run_phase s = Triggering →
  checks (step self suite s (TriggerDone (inr (cs, ids))))
  = Resolved (cs, objectFlip ids) ∧
  answered (run_phase (step self suite s (TriggerDone (inr (cs, ids))))).
Proof.
  intros Hp. unfold step.
  destruct (resume_run_keeps (react self suite (TriggerDone (inr (cs, ids))) s))
    as (-> & _ & _ & _ & Hph).
  unfold react in *. rewrite Hp in *. cbn [fst snd] in *.
  match goal with |- context [fold_left ?f ?ms ?s0] =>
    destruct (fold_handler_body_moves (cs, objectFlip ids) ms s0)
      as [Hp1 Hc1 _ _ _ _];
    set (s1 := fold_left f ms s0) in *
  end.
  split; [by rewrite Hc1 |]. apply Hph. rewrite Hp1. by left.
Qed.

(** The state of a run whose trigger request was answered with [cs]. *)
Lemma answered_shape s cs known :
  inv self suite s → checks s = Resolved (cs, known) →
  ∃ c body,
    allChecksFinishedPromise s = Some c ∧ numChecks c = length cs ∧
    Forall local body ∧
    ((run_phase s = Waiting ∧ live 0 s ∧ resolved c = false ∧
      events s = RUN_STARTED cs :: events_of body) ∨
     (closing (run_phase s) ∧ quiet s ∧ resolved c = true ∧
      events s = RUN_STARTED cs :: events_of body ++ [RUN_FINISHED] ∧
      count is_check_finished (events_of body) = length cs ∧
      finishedCheckCount c = length cs)).
Proof.
  intros [ | e0 | s' mid _ _ Hc _ _ _ _ _
         | s' mid mid2 _ _ Hc _ _ _ _ _
         | s' e0 mid mid2 mid3 _ _ Hc _ _ _ _ _ _ _
         | s' cs' ids c mid mid2 body Hp Hl Hc _ _ Hn HN Hres Htr Hm Hm2 Hb
         | s' cs' ids c mid mid2 body mid3 Hp Hq Hc _ _ Hn HN Hres Htr Hm Hm2 Hb
             Hm3 Hcnt Hfc ] He;
    try (simpl in He; congruence).
  - rewrite Hc in He. injection He as -> _.
    exists c, body. split_and!; try done. left. split_and!; try done.
    unfold events. rewrite Htr. by apply events_of_started.
  - rewrite Hc in He. injection He as -> _.
    exists c, body. split_and!; try done. right. split_and!; try done.
    unfold events. rewrite Htr, events_of_app, events_of_started by done.
    simpl. by rewrite (events_of_threw mid3 Hm3).
Qed.

Lemma local_events_not_run_finished body :
  Forall local body →
  Forall (λ e, is_run_finished e = false) (events_of body).
Proof.
  induction 1 as [| a l Ha _ IH]; [constructor |].
  destruct a as [| | | | | | | e | | | |]; try done.
  destruct e; try done; by constructor.
Qed.


Lemma count_none p (l : list event) :
  Forall (λ e, p e = false) l → count p l = 0.
Proof.
  unfold count. induction 1 as [| x l Hx _ IH]; [done |].
  simpl. by rewrite Hx.
Qed.

Lemma fold_handler_body_quiet known ms s :
  timeouts s = ∅ →
  fold_left (λ s m, handler_body self known m s) ms s = s.
Proof.
  intros Hto. induction ms as [| m ms IH]; simpl; [done |].
  unfold handler_body at 2. by rewrite Hto, lookup_empty.
Qed.

(** The trigger response that selects no check. *)
Lemma trigger_none s ids :
  inv self suite s → run_phase s = Triggering →
  events (step self suite s (TriggerDone (inr ([], ids))))
  = [RUN_STARTED []; RUN_FINISHED].
Proof.
  intros Hs Hp.
  destruct (unanswered_no_signal self suite s Hs) as [_ Hev].
  { rewrite Hp. by intros [? | ?]. }
  assert (timeouts s = ∅) as Hto.
  { destruct Hs as [ | e0 | s' mid _ (? & _) _ _ _ _ _ _
         | s' mid mid2 _ (? & _) _ _ _ _ _ _
         | s' e0 mid mid2 mid3 Hp' _ _ _ _ _ _ _ _ _
         | s' cs' ids' c mid mid2 body Hp' _ _ _ _ _ _ _ _ _ _ _
         | s' cs' ids' c mid mid2 body mid3 Hp' _ _ _ _ _ _ _ _ _ _ _ _ _ _ ];
      try done; by rewrite Hp in Hp'. }
  unfold step, react. rewrite Hp. unfold scheduleAllChecks_resume.
  cbn [arm length fst snd]. rewrite emit_plain by done.
  rewrite fold_handler_body_quiet by done.
  unfold resume_run. simpl_state. cbn [allChecksFinished resolved Nat.eqb].
  rewrite emit_plain by done. unfold events in *. simpl_state.
  rewrite <- !app_assoc, events_of_app, Hev. done.
Qed.
End Completion.



(** The events of the scenario, and of a session without checks. *)
Example scenario_events :
  events (exec sample_runner "suite" (sample_start ++ sample_rest))
  = [RUN_STARTED [check_A; check_B];
     CHECK_INPROGRESS (Some check_A);
     CHECK_SUCCESSFUL (Some check_A)
       (JObj [("hasFailures", JBool false);
              ("assets", JObj [("region", JStr "eu-central-1")])]);
     CHECK_FINISHED (Some check_A);
     CHECK_FAILED (Some check_B) (JStr "Reached timeout");
     CHECK_FINISHED (Some check_B);
     RUN_FINISHED].
Proof. by vm_compute. Qed.

Example no_checks_events :
  trace (exec sample_runner "suite"
           [ConnectDone None; SubscribeDone None; TriggerDone (inr ([], []))])
  = [Connect; OnMessage;
     Subscribe "account/acc/ad-hoc-check-results/suite/+/+"; Subscribed;
     Trigger (trigger_request sample_runner "suite");
     Emit (RUN_STARTED []); Emit RUN_FINISHED; End].
Proof. by vm_compute. Qed.

(** ** The timers of a session *)

Section Timers.
Variable self : CheckRunner.
Variable suite : string.

Lemma arming_In cs ids k i c :
  cs !! i = Some c →
  In (SetTimeout (k + i) (obj_get (check_id c) ids, c) (timeout self * 1000))
     (arming self cs ids k).
Proof.
  revert k i. induction cs as [| c0 cs IH]; intros k i Hc; [done |].
  destruct i as [| i]; simpl in *.
  - injection Hc as ->. left. by rewrite Nat.add_0_r.
  - right. replace (k + S i) with (S k + i) by lia. by apply IH.
Qed.

(** In phase [Triggering] nothing is armed yet. *)
Lemma triggering_quiet s :
  inv self suite s → run_phase s = Triggering → quiet s ∧ events s = [].
Proof.
  intros Hs Hp. split.
  - destruct Hs as [ | e0 | s' mid [Hp' | [e Hp']] Hq _ _ _ _ _ _
         | s' mid mid2 _ Hq _ _ _ _ _ _
         | s' e0 mid mid2 mid3 Hp' _ _ _ _ _ _ _ _ _
         | s' cs' ids' c mid mid2 body Hp' _ _ _ _ _ _ _ _ _ _ _
         | s' cs' ids' c mid mid2 body mid3 Hp' _ _ _ _ _ _ _ _ _ _ _ _ _ _ ];
      try done; by rewrite Hp in Hp'.
  - apply (unanswered_no_signal self suite s Hs). rewrite Hp. by intros [? | ?].
Qed.

(** The timers left after the trigger response are among those armed for
    the selected checks: handle [h] belongs to the [h]-th check and its run
    id. *)
Lemma armed_after_trigger s cs ids h r c :
  inv self suite s → run_phase s = Triggering →
  timers (step self suite s (TriggerDone (inr (cs, ids)))) !! h = Some (r, c) →
  cs !! h = Some c ∧ r = obj_get (check_id c) ids.
Proof.
  intros Hs Hp Hh.
  destruct (triggering_quiet s Hs Hp) as [Hq Hev].
  destruct (scheduled self cs ids s Hq Hev)
    as (_ & _ & _ & _ & _ & _ & _ & Hat & Hhigh & _).
  unfold step in Hh.
  destruct (resume_run_keeps (react self suite (TriggerDone (inr (cs, ids))) s))
    as (_ & _ & Hti & _).
  rewrite Hti in Hh. unfold react in Hh. rewrite Hp in Hh. cbn [fst snd] in Hh.
  match type of Hh with context [fold_left ?f ?ms ?s0] =>
    pose proof (mv_timers _ _
      (fold_handler_body_moves self (cs, objectFlip ids) ms s0)) as Hsub
  end.
  pose proof (lookup_weaken _ _ _ _ Hh Hsub) as Hh0.
  destruct (cs !! h) as [c' |] eqn:Hc.
  - rewrite (Hat h c' Hc) in Hh0. by injection Hh0 as <- <-.
  - apply lookup_ge_None in Hc. by rewrite (Hhigh h Hc) in Hh0.
Qed.

Lemma session_timers ins1 cs ids ins2 h r c :
  run_phase (exec self suite ins1) = Triggering →
  timers (exec self suite (ins1 ++ TriggerDone (inr (cs, ids)) :: ins2)) !! h
  = Some (r, c) →
  cs !! h = Some c ∧ r = obj_get (check_id c) ids.
Proof.
  intros Hp Hh. rewrite exec_app in Hh. simpl in Hh.
  destruct (trigger_answered_step self suite _ cs ids Hp) as [_ Ha].
  destruct (fold_answered self suite ins2 _ Ha) as (_ & _ & _ & Hsub & _).
  pose proof (lookup_weaken _ _ _ _ Hh Hsub) as Hh0.
  by apply (armed_after_trigger _ cs ids h r c (inv_exec self suite ins1) Hp).
Qed.

(** A state with an armed timer is a run under way with fewer than
    [numChecks] checks finished. *)
Lemma armed_running s h rc :
  inv self suite s → timers s !! h = Some rc →
  run_phase s = Waiting ∧ live 0 s ∧ listening s = true ∧
  ∃ n known, allChecksFinishedPromise s = Some n ∧ checks s = Resolved known ∧
             resolved n = false ∧ finishedCheckCount n = finished s ∧
             finished s < numChecks n.
Proof.
  intros Hs Hh.
  assert (¬ quiet s) as Hnq.
  { intros (_ & Hti & _). by rewrite Hti, lookup_empty in Hh. }
  destruct Hs as [ | e0 | s' mid _ Hq _ _ _ _ _ _
         | s' mid mid2 _ Hq _ _ _ _ _ _
         | s' e0 mid mid2 mid3 _ Hq _ _ _ _ _ _ _ _
         | s' cs' ids' n mid mid2 body Hp Hl Hc Hli _ Hn _ Hres _ _ _ _
         | s' cs' ids' n mid mid2 body mid3 _ Hq _ _ _ _ _ _ _ _ _ _ _ _ _ ];
    try done.
  split_and!; try done.
  exists n, (cs', objectFlip ids').
  destruct Hl as [_ _ (n' & Hn' & Hle & Hfc & _)].
  rewrite Hn in Hn'. injection Hn' as <-.
  assert (size (timers s') ≠ 0).
  { apply map_size_non_empty_iff. intros E. by rewrite E, lookup_empty in Hh. }
  split_and!; try done. lia.
Qed.

(** The step of a timer that fires. *)
Lemma timer_fires s h r c n :
  run_phase s = Waiting → timers s !! h = Some (r, c) →
  allChecksFinishedPromise s = Some n → resolved n = false →
  numChecks n ≠ 0 →
  let s1 :=
    set_counter (Some (Counter (numChecks n) (S (finishedCheckCount n))
                               (Nat.eqb (S (finishedCheckCount n)) (numChecks n))))
      (log (Emit (CHECK_FINISHED (Some c)))
         (log (Emit (CHECK_FAILED (Some c) (JStr "Reached timeout")))
            (set_timeouts (delete r (timeouts s))
               (set_timers (delete h (timers s)) s)))) in
  step self suite s (TimerFired h)
  = if Nat.eqb (S (finishedCheckCount n)) (numChecks n)
    then set_phase Ending (log End (log (Emit RUN_FINISHED) s1))
    else s1.
Proof.
  intros Hp Hh Hn Hres HN s1. unfold step, react. rewrite ?Hp, Hh.
  unfold on_timeout. rewrite (emit_plain (CHECK_FAILED _ _)) by done.
  unfold emit. simpl_state. rewrite Hn. cbn [fmap option_fmap option_map].
  unfold count_finished. destruct (Nat.eqb_spec (numChecks n) 0); [done |].
  rewrite Hres. cbn [orb]. fold s1.
  unfold resume_run. subst s1. simpl_state. rewrite Hp. cbn [resolved].
  destruct (Nat.eqb (S (finishedCheckCount n)) (numChecks n)); [| done].
  by rewrite emit_plain.
Qed.
(** *** The timers bring every run to its end *)

(** An armed timer that fires finishes one check; nothing else changes in
    the account. *)
Lemma timer_step s h rc :
  inv self suite s → timers s !! h = Some rc →
  let s' := step self suite s (TimerFired h) in
  finished s' = S (finished s) ∧ timers s' = delete h (timers s) ∧
  fetches s' = fetches s ∧ checks s' = checks s.
Proof.
  intros Hs Hh. destruct rc as [r c].
  destruct (armed_running s h _ Hs Hh)
    as (Hp & _ & _ & n & known & Hn & _ & Hres & Hfc & Hlt).
  cbv zeta.
  rewrite (timer_fires s h r c n Hp Hh Hn Hres) by lia.
  assert (∀ l s0, count is_check_finished (events_of l) = 0 →
            count is_check_finished
              (events_of (((trace s0
                 ++ [Emit (CHECK_FAILED (Some c) (JStr "Reached timeout"))])
                 ++ [Emit (CHECK_FINISHED (Some c))]) ++ l))
            = S (count is_check_finished (events_of (trace s0)))) as Hcount.
  { intros l s0 Hl. rewrite !events_of_app, !count_app, Hl.
    unfold count. simpl. lia. }
  destruct (Nat.eqb _ _); unfold finished, events; simpl_state.
  - split_and!; try done. rewrite <- app_assoc. by apply Hcount.
  - split_and!; try done.
    rewrite <- (app_nil_r (_ ++ [Emit (CHECK_FINISHED _)])). by apply Hcount.
Qed.

(** When no handler waits for an asset and every check that has not finished
    still has its timer, the timers finish the run: once all of them have
    fired, in whatever order, [RUN_FINISHED] is the last event and occurs
    once. *)
Lemma timers_finish_the_run hs : ∀ s cs known,
  inv self suite s → checks s = Resolved (cs, known) →
  fetches s = ∅ → finished s + size (timers s) = length cs →
  NoDup hs → (∀ h, h ∈ hs ↔ is_Some (timers s !! h)) →
  let s' := fold_left (step self suite) (map TimerFired hs) s in
  closing (run_phase s') ∧
  finished s' = length cs ∧
  count is_run_finished (events s') = 1 ∧
  ∃ body, events s' = RUN_STARTED cs :: body ++ [RUN_FINISHED].
Proof.
  induction hs as [| h hs IH]; intros s cs known Hs Hc Hf Hsum Hnd Hall.
  - cbn [map fold_left].
    assert (timers s = ∅) as Ht.
    { apply map_empty. intros h. apply eq_None_not_Some. intros Hh.
      apply Hall in Hh. by apply elem_of_nil in Hh. }
    rewrite Ht, map_size_empty in Hsum.
    destruct (answered_shape self suite s cs _ Hs Hc)
      as (c & body & Hn & HN & Hb &
          [(_ & Hl & Hres & _) | (Hph & _ & _ & Hev & _ & _)]).
    + destruct Hl as [_ _ (c' & Hn' & _ & _ & Hr)].
      rewrite Hn in Hn'. injection Hn' as <-.
      rewrite Hres in Hr. symmetry in Hr. apply Nat.eqb_neq in Hr. lia.
    + split_and!; [done | lia | | by exists (events_of body)].
      rewrite Hev.
      change (RUN_STARTED cs :: events_of body ++ [RUN_FINISHED])
        with ((RUN_STARTED cs :: events_of body) ++ [RUN_FINISHED]).
      rewrite count_app, count_none; [done |].
      constructor; [done | by apply local_events_not_run_finished].
  - cbn [map fold_left].
    assert (is_Some (timers s !! h)) as [rc Hh] by (apply Hall; left).
    destruct (timer_step s h rc Hs Hh) as (Hfin & Hti & Hfe & Hch).
    apply NoDup_cons in Hnd as [Hnotin Hnd].
    apply (IH _ cs known).
    + by apply inv_step.
    + by rewrite Hch.
    + by rewrite Hfe.
    + rewrite Hfin, Hti, map_size_delete_Some by done.
      assert (size (timers s) ≠ 0) as Hne.
      { intros Hz. apply map_size_empty_inv in Hz. by rewrite Hz in Hh. }
      lia.
    + done.
    + intros h'. rewrite Hti. split.
      * intros Hin. rewrite lookup_delete_ne by (intros ->; done).
        apply Hall. by right.
      * intros [x Hx]. apply lookup_delete_Some in Hx as [Hne Hx].
        assert (h' ∈ h :: hs) as Hin by (apply Hall; eauto).
        apply elem_of_cons in Hin as [-> | Hin]; done.
Qed.
Lemma scheduled_size cs ids s :
  quiet s →
  size (timers (set_parked []
                  (set_phase Waiting
                     (scheduleAllChecks_resume self (cs, ids) s))))
  = length cs.
Proof.
  intros (Hto & Hti & _). simpl.
  destruct (arm_timers self cs ids 0
              (set_counter (Some (allChecksFinished (length cs))) s))
    as (_ & -> & _).
  - intros r h. simpl_state. by rewrite Hto, lookup_empty.
  - intros j _. simpl_state. by rewrite Hti, lookup_empty.
  - simpl_state. by rewrite Hti, map_size_empty.
Qed.

Lemma resume_run_account s :
  fetches (resume_run s) = fetches s ∧ finished (resume_run s) = finished s.
Proof.
  unfold resume_run.
  destruct (run_phase s), (allChecksFinishedPromise s) as [c |]; try done.
  destruct (resolved c); [| done]. rewrite emit_plain by done.
  split; [done |]. unfold finished, events. simpl_state.
  rewrite !events_of_app, !count_app. unfold count. simpl. lia.
Qed.

(** A session in which no message arrives at all: every check times out,
    and the run ends with [RUN_FINISHED], emitted once. *)
Lemma silent_session_finishes ins1 cs ids hs :
  run_phase (exec self suite ins1) = Triggering →
  parked_handlers (exec self suite ins1) = [] →
  NoDup hs → (∀ h, h ∈ hs ↔ h < length cs) →
  let s' := exec self suite
              (ins1 ++ TriggerDone (inr (cs, ids)) :: map TimerFired hs) in
  closing (run_phase s') ∧
  finished s' = length cs ∧
  count is_run_finished (events s') = 1 ∧
  ∃ body, events s' = RUN_STARTED cs :: body ++ [RUN_FINISHED].
Proof.
  intros Hp Hpa Hnd Hall. rewrite exec_app. cbn [fold_left].
  pose proof (inv_exec self suite ins1) as Hs.
  destruct (triggering_quiet _ Hs Hp) as [Hq Hev].
  destruct (scheduled self cs ids _ Hq Hev)
    as (_ & Hl0 & _ & _ & _ & Hn0 & _ & Hat & Hhigh & Hfe0).
  pose proof (scheduled_size cs ids _ Hq) as Hsz.
  assert (react self suite (TriggerDone (inr (cs, ids))) (exec self suite ins1)
          = set_parked []
              (set_phase Waiting
                 (scheduleAllChecks_resume self (cs, ids)
                    (exec self suite ins1)))) as Hreact.
  { unfold react. rewrite Hp. cbn [fst snd].
    assert (parked_handlers
              (set_phase Waiting
                 (scheduleAllChecks_resume self (cs, ids)
                    (exec self suite ins1)))
            = []) as ->; [| done].
    unfold scheduleAllChecks_resume. rewrite emit_plain by done.
    simpl_state.
    by destruct (arm_frame self cs ids 0
                   (set_counter (Some (allChecksFinished (length cs)))
                      (exec self suite ins1)))
      as (_ & _ & _ & _ & -> & _). }
  destruct (resume_run_keeps
              (react self suite (TriggerDone (inr (cs, ids)))
                 (exec self suite ins1)))
    as (_ & _ & Hti & _).
  destruct (resume_run_account
              (react self suite (TriggerDone (inr (cs, ids)))
                 (exec self suite ins1)))
    as (Hfe & Hfin).
  apply (timers_finish_the_run hs _ cs (objectFlip ids)).
  - by apply inv_step.
  - by apply trigger_answered_step.
  - unfold step. by rewrite Hfe, Hreact.
  - unfold step. rewrite Hfin, Hti, Hreact, Hsz.
    destruct Hl0 as [_ _ (c & Hc & Hle & _)].
    rewrite Hn0 in Hc. injection Hc as <-. rewrite Hsz in Hle.
    cbn [numChecks allChecksFinished] in Hle. lia.
  - done.
  - intros h. unfold step. rewrite Hti, Hreact, Hall. split.
    + intros Hh. apply lookup_lt_is_Some_2 in Hh as [c Hc].
      rewrite (Hat _ _ Hc). eauto.
    + intros [x Hx]. destruct (decide (h < length cs)) as [| Hge]; [done |].
      rewrite Hhigh in Hx by lia. done.
Qed.
End Timers.

(** Both sample checks time out, the second timer first. *)
Example silent_sample_session :
  count is_run_finished
    (events (exec sample_runner "suite"
               ([ConnectDone None; SubscribeDone None]
                ++ TriggerDone (inr ([check_A; check_B], sample_ids))
                :: map TimerFired [1; 0])))
  = 1.
Proof.
  apply (silent_session_finishes sample_runner "suite"
           [ConnectDone None; SubscribeDone None]
           [check_A; check_B] sample_ids [1; 0]).
  - reflexivity.
  - reflexivity.
  - apply (bool_decide_unpack _). by vm_compute.
  - intros h. cbn [length]. rewrite !elem_of_cons, elem_of_nil. lia.
Qed.

(** C6. In a session whose trigger response selects the checks [cs]:
    handling the response calls [setTimeout] once per check, in order, with
    [timeout * 1000] milliseconds and a callback for that check and its run
    id, and then emits [RUN_STARTED]; and whenever a timer of the session is
    still armed (no terminal message retired it) and fires, it is the timer of
    one selected check [c], the step removes the table entry of its run id and
    this timer only, leaves every other entry, timer, pending asset fetch and
    the correlation map as they are, and emits [CHECK_FAILED c "Reached
    timeout"] then [CHECK_FINISHED c] and no other check event.  The run goes
    on waiting, unless this was the last check to finish, in which case it
    ends with [RUN_FINISHED] and the disconnect; no [ERROR] is emitted. *)
Theorem timeout_fails_one_check self suite ins1 cs ids ins2 h r c :
  run_phase (exec self suite ins1) = Triggering →
  let s := exec self suite (ins1 ++ TriggerDone (inr (cs, ids)) :: ins2) in
  timers s !! h = Some (r, c) →
  let s' := step self suite s (TimerFired h) in
  let last := Nat.eqb (S (finished s)) (length cs) in
  (∃ rest,
     trace (exec self suite (ins1 ++ [TriggerDone (inr (cs, ids))]))
     = trace (exec self suite ins1) ++ arming self cs ids 0
       ++ Emit (RUN_STARTED cs) :: rest) ∧
  In (SetTimeout h (r, c) (timeout self * 1000)) (arming self cs ids 0) ∧
  cs !! h = Some c ∧ r = obj_get (check_id c) ids ∧
  trace s' = trace s
             ++ Emit (CHECK_FAILED (Some c) (JStr "Reached timeout"))
             :: Emit (CHECK_FINISHED (Some c))
             :: (if last then [Emit RUN_FINISHED; End] else []) ∧
  timeouts s' = delete r (timeouts s) ∧
  timers s' = delete h (timers s) ∧
  fetches s' = fetches s ∧ checks s' = checks s ∧
  run_phase s = Waiting ∧
  run_phase s' = (if last then Ending else Waiting).
Proof.
  intros Hp s Hh s' last.
  destruct (session_timers self suite ins1 cs ids ins2 h r c Hp Hh) as [Hc ->].
  pose proof (inv_exec self suite (ins1 ++ TriggerDone (inr (cs, ids)) :: ins2))
    as Hs. fold s in Hs.
  destruct (armed_running self suite s h _ Hs Hh)
    as (Hw & _ & _ & n & known & Hn & Hk & Hres & Hfc & Hlt).
  assert (numChecks n = length cs) as HN.
  { assert (checks s = Resolved (cs, objectFlip ids)) as Hc'.
    { subst s. rewrite exec_app. simpl.
      destruct (trigger_answered_step self suite _ cs ids Hp) as [Hc' Ha].
      by destruct (fold_answered self suite ins2 _ Ha) as (_ & -> & _). }
    destruct (answered_shape self suite s cs _ Hs Hc') as (n' & _ & Hn' & ? & _).
    congruence. }
  pose proof (timer_fires self suite s h _ c n Hw Hh Hn Hres) as Hstep.
  cbv zeta in Hstep. rewrite Hfc, HN in Hstep.
  assert (length cs ≠ 0) as Hne by lia. specialize (Hstep Hne).
  subst s' last. rewrite Hstep.
  split_and!; try done.
  - pose proof (inv_exec self suite ins1) as Hs1.
    destruct (triggering_quiet self suite _ Hs1 Hp) as [Hq Hev].
    destruct (scheduled self cs ids _ Hq Hev)
      as (_ & _ & _ & _ & _ & _ & Htr0 & _).
    rewrite exec_snoc. unfold step, react. rewrite Hp. cbn [fst snd].
    match goal with |- context [fold_left ?f ?ms ?s0] =>
      destruct (fold_handler_body_moves self (cs, objectFlip ids) ms s0)
        as [Hp1 _ _ _ HN1 (l & Htr1 & _) _ _];
      set (s1 := fold_left f ms s0) in *
    end.
    assert (∃ l', trace (resume_run s1) = trace s1 ++ l') as [l' ->].
    { unfold resume_run. destruct (run_phase s1); try by (exists []; rewrite app_nil_r).
      destruct (allChecksFinishedPromise s1) as [n1 |];
        [| by (exists []; rewrite app_nil_r)].
      destruct (resolved n1); [| by (exists []; rewrite app_nil_r)].
      rewrite emit_plain by done. simpl_state.
      exists [Emit RUN_FINISHED; End]. by rewrite <- app_assoc. }
    exists (l ++ l'). rewrite Htr1, Htr0, <- !app_assoc. done.
  - by apply (arming_In self cs ids 0 h c).
  - destruct (Nat.eqb (S (finished s)) (length cs)); simpl_state;
      by rewrite <- ?app_assoc.
  - by destruct (Nat.eqb (S (finished s)) (length cs)).
  - by destruct (Nat.eqb (S (finished s)) (length cs)).
  - by destruct (Nat.eqb (S (finished s)) (length cs)).
  - by destruct (Nat.eqb (S (finished s)) (length cs)).
  - by destruct (Nat.eqb (S (finished s)) (length cs)).
Qed.

Lemma timeout_fails_one_check_witness :
  let ins1 := [ConnectDone None; SubscribeDone None] in
  let cs := [check_A; check_B] in
  let ins2 := [Message (topic_of "r1" "run-start") (Json JNull);
               Message (topic_of "r1" "run-end") (Json plain_result)] in
  run_phase (exec sample_runner "suite" ins1) = Triggering ∧
  let s := exec sample_runner "suite"
             (ins1 ++ TriggerDone (inr (cs, sample_ids)) :: ins2) in
  timers s !! 1 = Some (Some "r2", check_B) ∧
  let s' := step sample_runner "suite" s (TimerFired 1) in
  let last := Nat.eqb (S (finished s)) (length cs) in
  (∃ rest,
     trace (exec sample_runner "suite"
              (ins1 ++ [TriggerDone (inr (cs, sample_ids))]))
     = trace (exec sample_runner "suite" ins1)
       ++ arming sample_runner cs sample_ids 0
       ++ Emit (RUN_STARTED cs) :: rest) ∧
  In (SetTimeout 1 (Some "r2", check_B) (timeout sample_runner * 1000))
     (arming sample_runner cs sample_ids 0) ∧
  cs !! 1 = Some check_B ∧
  Some "r2" = obj_get (check_id check_B) sample_ids ∧
  trace s' = trace s
             ++ Emit (CHECK_FAILED (Some check_B) (JStr "Reached timeout"))
             :: Emit (CHECK_FINISHED (Some check_B))
             :: (if last then [Emit RUN_FINISHED; End] else []) ∧
  timeouts s' = delete (Some "r2") (timeouts s) ∧
  timers s' = delete 1 (timers s) ∧
  fetches s' = fetches s ∧ checks s' = checks s ∧
  run_phase s = Waiting ∧
  run_phase s' = (if last then Ending else Waiting).
Proof.
  split; [reflexivity |].
  split; [by vm_compute |].
  apply (timeout_fails_one_check sample_runner "suite"
           [ConnectDone None; SubscribeDone None] [check_A; check_B] sample_ids
           [Message (topic_of "r1" "run-start") (Json JNull);
            Message (topic_of "r1" "run-end") (Json plain_result)]
           1 (Some "r2") check_B).
  - reflexivity.
  - by vm_compute.
Defined.

(** ** Messages *)

Section Messages.
Variable self : CheckRunner.
Variable suite : string.

(** Once [this.checks] is resolved, [run()] has nothing to do after a
    handler that emits no [CHECK_FINISHED]. *)
Lemma resolved_idle s known :
  inv self suite s → checks s = Resolved known →
  resume_run s = s ∧ listening s = true.
Proof.
  intros [ | e0 | s' mid _ _ Hc _ _ _ _ _
         | s' mid mid2 _ _ Hc _ _ _ _ _
         | s' e0 mid mid2 mid3 _ _ Hc _ _ _ _ _ _ _
         | s' cs' ids c mid mid2 body Hp _ _ Hli _ Hn _ Hres _ _ _ _
         | s' cs' ids c mid mid2 body mid3 Hp _ _ Hli _ _ _ _ _ _ _ _ _ _ _ ] He;
    try (simpl in He; congruence).
  - split; [| done]. unfold resume_run. by rewrite Hp, Hn, Hres.
  - split; [| done]. apply resume_run_idle. by apply closing_not_waiting.
Qed.

Lemma message_step s known topic m :
  inv self suite s → checks s = Resolved known →
  step self suite s (Message topic (Json m))
  = resume_run (handler_body self known (Parked topic m) s).
Proof.
  intros Hs Hc. destruct (resolved_idle s known Hs Hc) as [_ Hli].
  unfold step. f_equal.
  assert (react self suite (Message topic (Json m)) s
          = if listening s then on_message self topic (Json m) s else s) as ->
    by by destruct (run_phase s).
  rewrite Hli. unfold on_message. by rewrite Hc.
Qed.

Lemma is_subtopic_true k : is_subtopic (Some k) k = true.
Proof. simpl. apply String.eqb_refl. Qed.

Lemma is_subtopic_false t k : t ≠ Some k → is_subtopic t k = false.
Proof.
  intros Hne. destruct t as [t |]; [| done]. simpl.
  apply String.eqb_neq. congruence.
Qed.

Lemma no_run_id_no_subtopic topic :
  topic_run_id topic = None → topic_subtopic topic = None.
Proof.
  unfold topic_run_id, topic_subtopic. intros H.
  apply lookup_ge_None in H. apply lookup_ge_None. lia.
Qed.

(** A state with an entry in the table is a run under way. *)
Lemma entry_running s r h :
  inv self suite s → timeouts s !! r = Some h →
  run_phase s = Waiting ∧ live 0 s ∧
  ∃ n known, allChecksFinishedPromise s = Some n ∧ checks s = Resolved known ∧
             resolved n = false.
Proof.
  intros Hs Hr.
  assert (¬ quiet s) as Hnq.
  { intros (Hto & _). by rewrite Hto, lookup_empty in Hr. }
  destruct Hs as [ | e0 | s' mid _ Hq _ _ _ _ _ _
         | s' mid mid2 _ Hq _ _ _ _ _ _
         | s' e0 mid mid2 mid3 _ Hq _ _ _ _ _ _ _ _
         | s' cs' ids' n mid mid2 body Hp Hl Hc Hli _ Hn _ Hres _ _ _ _
         | s' cs' ids' n mid mid2 body mid3 _ Hq _ _ _ _ _ _ _ _ _ _ _ _ _ ];
    try done.
  split_and!; try done. by exists n, (cs', objectFlip ids').
Qed.



(** A message that names no armed run, or no kind of message. *)
Lemma stray_step s known topic m :
  inv self suite s → checks s = Resolved known →
  timeouts s !! topic_run_id topic = None ∨
  (topic_subtopic topic ≠ Some "run-start" ∧
   topic_subtopic topic ≠ Some "run-end" ∧
   topic_subtopic topic ≠ Some "error") →
  step self suite s (Message topic (Json m)) = s.
Proof.
  intros Hs Hc Hstray. rewrite (message_step s known) by done.
  destruct (resolved_idle s known Hs Hc) as [Hidle _].
  unfold handler_body. cbn [p_topic p_message].
  destruct (timeouts s !! topic_run_id topic) as [h |] eqn:Hr; [| done].
  destruct Hstray as [? | (H1 & H2 & H3)]; [done |].
  by rewrite !is_subtopic_false.
Qed.
End Messages.



Example three_run_starts :
  events (exec sample_runner "suite"
            (sample_start
             ++ [Message (topic_of "r1" "run-start") (Json JNull);
                 Message (topic_of "r1" "run-start") (Json JNull);
                 Message (topic_of "r1" "run-start") (Json JNull)]))
  = [RUN_STARTED [check_A; check_B]; CHECK_INPROGRESS (Some check_A);
     CHECK_INPROGRESS (Some check_A); CHECK_INPROGRESS (Some check_A)].
Proof. by vm_compute. Qed.

(** C9, as the code has it.  Once [this.checks] is resolved (the trigger
    response was handled), a message with a JSON payload whose topic lacks
    the run-id segment, or whose kind segment is missing or none of
    [run-start], [run-end], [error], or whose run id is not in the table,
    leaves the state as it is: no event, no effect at all, no throw. *)
Theorem stray_message_is_no_op self suite ins topic m known :
  let s := exec self suite ins in
  checks s = Resolved known →
  topic_run_id topic = None ∨
  (topic_subtopic topic ≠ Some "run-start" ∧
   topic_subtopic topic ≠ Some "run-end" ∧
   topic_subtopic topic ≠ Some "error") ∨
  timeouts s !! topic_run_id topic = None →
  step self suite s (Message topic (Json m)) = s.
Proof.
  intros s Hc Hstray.
  apply (stray_step self suite s known); [apply inv_exec | done |].
  destruct Hstray as [Hno | [Hk | Hr]]; [| by right | by left].
  right. by rewrite (no_run_id_no_subtopic topic Hno).
Qed.

Lemma stray_message_is_no_op_witness :
  let s := exec sample_runner "suite" sample_start in
  checks s = Resolved ([check_A; check_B], objectFlip sample_ids) ∧
  (topic_run_id "account/acc/oops" = None ∨
   (topic_subtopic "account/acc/oops" ≠ Some "run-start" ∧
    topic_subtopic "account/acc/oops" ≠ Some "run-end" ∧
    topic_subtopic "account/acc/oops" ≠ Some "error") ∨
   timeouts s !! topic_run_id "account/acc/oops" = None) ∧
  step sample_runner "suite" s (Message "account/acc/oops" (Json JNull)) = s.
Proof.
  split; [by vm_compute |]. split; [by left; vm_compute |].
  apply (stray_message_is_no_op sample_runner "suite" sample_start
           "account/acc/oops" JNull
           ([check_A; check_B], objectFlip sample_ids)).
  - by vm_compute.
  - left. by vm_compute.
Defined.

(** C9 as the specification states it fails: the handler throws on a
    message for an unknown run id whose payload is not JSON
    ([JSON.parse] comes first), and on any message that arrives after the
    trigger request was rejected ([await this.checks] rethrows). *)
Lemma stray_message_can_throw :
  trace (exec sample_runner "suite"
           (sample_start ++ [Message (topic_of "r9" "run-start") Garbled]))
  = trace (exec sample_runner "suite" sample_start)
    ++ [HandlerThrew SyntaxError] ∧
  trace (exec sample_runner "suite"
           [ConnectDone None; SubscribeDone None;
            TriggerDone (inl (Failure "ETIMEDOUT"));
            Message "account/acc/oops" (Json JNull)])
  = trace (exec sample_runner "suite"
             [ConnectDone None; SubscribeDone None;
              TriggerDone (inl (Failure "ETIMEDOUT"))])
    ++ [HandlerThrew (Failure "ETIMEDOUT")].
Proof. by vm_compute. Qed.

(** ** Correlation *)

Section Flip.
Context {V : Type}.

Lemma obj_get_set_eq k (v : V) obj : obj_get k (obj_set k v obj) = Some v.
Proof.
  induction obj as [| [k' w] obj IH]; simpl.
  - by rewrite String.eqb_refl.
  - destruct (String.eqb_spec k' k) as [-> | Hne]; simpl.
    + by rewrite String.eqb_refl.
    + destruct (String.eqb_spec k' k); [done | apply IH].
Qed.

Lemma obj_get_set_ne k k' (v : V) obj :
  k ≠ k' → obj_get k (obj_set k' v obj) = obj_get k obj.
Proof.
  intros Hne. induction obj as [| [k0 w] obj IH]; simpl.
  - destruct (String.eqb_spec k' k); [congruence | done].
  - destruct (String.eqb_spec k0 k') as [-> | Hne']; simpl.
    + destruct (String.eqb_spec k' k); [congruence | done].
    + destruct (String.eqb_spec k0 k); [done | apply IH].
Qed.


Lemma obj_key_get k (obj : list (string * V)) :
  k ∈ obj_keys obj → is_Some (obj_get k obj).
Proof.
  induction obj as [| [k0 w] obj IH]; simpl.
  - by intros ?%elem_of_nil.
  - intros [-> | Hin]%elem_of_cons.
    + rewrite String.eqb_refl. by eexists.
    + destruct (String.eqb k0 k); [by eexists | by apply IH].
Qed.
End Flip.






(** The example of the specification: with [{A: "r1", B: "r2"}], a message
    on [.../r2/run-start] resolves to check B. *)
Example r2_is_check_B :
  correlate ([check_A; check_B], objectFlip sample_ids)
            (topic_run_id (topic_of "r2" "run-start")) = Some check_B ∧
  events (exec sample_runner "suite"
            (sample_start ++ [Message (topic_of "r2" "run-start") (Json JNull)]))
  = [RUN_STARTED [check_A; check_B]; CHECK_INPROGRESS (Some check_B)].
Proof. by vm_compute. Qed.

(** ** Asset fetches *)

Section Assets.
Variable self : CheckRunner.
Variable suite : string.

(** A state with a handler waiting for an asset is a run under way. *)
Lemma busy_running s id k :
  inv self suite s → fetches s !! id = Some k →
  run_phase s = Waiting ∧ live 0 s ∧
  ∃ n, allChecksFinishedPromise s = Some n ∧ resolved n = false ∧
       numChecks n ≠ 0.
Proof.
  intros Hs Hk.
  assert (¬ quiet s) as Hnq.
  { intros (_ & _ & Hfe). by rewrite Hfe, lookup_empty in Hk. }
  destruct Hs as [ | e0 | s' mid _ Hq _ _ _ _ _ _
         | s' mid mid2 _ Hq _ _ _ _ _ _
         | s' e0 mid mid2 mid3 _ Hq _ _ _ _ _ _ _ _
         | s' cs' ids' n mid mid2 body Hp Hl Hc Hli _ Hn _ Hres _ _ _ _
         | s' cs' ids' n mid mid2 body mid3 _ Hq _ _ _ _ _ _ _ _ _ _ _ _ _ ];
    try done.
  split_and!; try done. exists n. split_and!; try done.
  destruct Hl as [_ _ (n' & Hn' & Hle & _)].
  rewrite Hn in Hn'. injection Hn' as <-.
  assert (size (fetches s') ≠ 0).
  { apply map_size_non_empty_iff. intros E. by rewrite E, lookup_empty in Hk. }
  lia.
Qed.

(** [run()] after a handler that emitted no [CHECK_FINISHED]. *)
Lemma resume_run_waiting s n :
  run_phase s = Waiting → allChecksFinishedPromise s = Some n →
  resolved n = false → resume_run s = s.
Proof. intros Hp Hn Hres. unfold resume_run. by rewrite Hp, Hn, Hres. Qed.

(** [run()] after lines 148-149. *)
Lemma finish_then_resume c result s n :
  run_phase s = Waiting → allChecksFinishedPromise s = Some n →
  resolved n = false → numChecks n ≠ 0 →
  trace (resume_run (finish c result s))
  = trace s ++ Emit (CHECK_SUCCESSFUL c result) :: Emit (CHECK_FINISHED c)
            :: closing_actions s ∧
  fetches (resume_run (finish c result s)) = fetches s ∧
  timeouts (resume_run (finish c result s)) = timeouts s ∧
  timers (resume_run (finish c result s)) = timers s.
Proof.
  intros Hp Hn Hres HN. unfold finish, closing_actions.
  rewrite (emit_plain (CHECK_SUCCESSFUL _ _)) by done.
  unfold emit. simpl_state. rewrite Hn. cbn [fmap option_fmap option_map].
  unfold count_finished. destruct (Nat.eqb_spec (numChecks n) 0); [done |].
  rewrite Hres. cbn [orb].
  unfold resume_run. simpl_state. rewrite Hp. cbn [resolved].
  destruct (Nat.eqb (S (finishedCheckCount n)) (numChecks n)).
  - rewrite emit_plain by done. simpl_state. by rewrite <- !app_assoc.
  - simpl_state. by rewrite <- !app_assoc.
Qed.

Lemma hasFailures_set_prop result name v :
  name ≠ "hasFailures" →
  hasFailures (set_prop result name v) = hasFailures result.
Proof.
  intros Hne. destruct result; try done. simpl.
  by apply obj_get_set_ne.
Qed.

Lemma wanted_set_prop path result name v :
  name ≠ "hasFailures" →
  wanted self path (set_prop result name v) = wanted self path result.
Proof. intros Hne. unfold wanted. by rewrite hasFailures_set_prop. Qed.

(** The step of a [run-end] message for an armed run id. *)
Lemma run_end_step s known topic m h result region logPath dataPath :
  inv self suite s → checks s = Resolved known →
  timeouts s !! topic_run_id topic = Some h →
  topic_subtopic topic = Some "run-end" →
  run_end_locals m = inr (result, region, logPath, dataPath) →
  let check := correlate known (topic_run_id topic) in
  let s1 := step self suite s (Message topic (Json m)) in
  trace s1
  = trace s ++ ClearTimeout (Some h)
    :: (if wanted self logPath result then
          [GetLogs (handlers s) region logPath]
        else if wanted self dataPath result then
          [GetCheckRunData (handlers s) region dataPath]
        else Emit (CHECK_SUCCESSFUL check result)
             :: Emit (CHECK_FINISHED check) :: closing_actions s) ∧
  fetches s1
  = (if wanted self logPath result then
       <[handlers s := Fetch Logs check result region dataPath]> (fetches s)
     else if wanted self dataPath result then
       <[handlers s := Fetch CheckRunData check result region dataPath]>
         (fetches s)
     else fetches s) ∧
  timeouts s1 = delete (topic_run_id topic) (timeouts s) ∧
  timers s1 = delete h (timers s).
Proof.
  intros Hs Hc Hr Hk Hm check s1. subst s1.
  rewrite (message_step self suite s known) by done.
  destruct (entry_running self suite s _ _ Hs Hr)
    as (Hp & Hl & n & _ & Hn & _ & Hres).
  assert (numChecks n ≠ 0) as HN.
  { destruct Hl as [Ht _ (n' & Hn' & Hle & _)].
    rewrite Hn in Hn'. injection Hn' as <-.
    destruct (Ht _ _ Hr) as [c Hc'].
    assert (size (timers s) ≠ 0); [| lia].
    apply map_size_non_empty_iff. intros E. by rewrite E, lookup_empty in Hc'. }
  unfold handler_body. cbn [p_topic p_message].
  rewrite Hr, Hk.
  replace (is_subtopic (Some "run-end") "run-start") with false by done.
  rewrite is_subtopic_true, Hm, (disableTimeout_armed _ _ _ Hr).
  fold check.
  destruct (wanted self logPath result).
  { rewrite (resume_run_waiting _ n) by done. unfold suspend. simpl_state.
    by rewrite <- app_assoc. }
  unfold data_then_finish. destruct (wanted self dataPath result).
  { rewrite (resume_run_waiting _ n) by done. unfold suspend. simpl_state.
    by rewrite <- app_assoc. }
  match goal with |- context [finish check result ?x] =>
    destruct (finish_then_resume check result x n) as (-> & -> & -> & ->);
      try done
  end.
  simpl_state. unfold closing_actions. simpl_state.
  by rewrite <- app_assoc.
Qed.

(** The step that resumes a handler from its asset fetch. *)
Lemma fetched_step s id k response :
  inv self suite s → fetches s !! id = Some k →
  let s1 := step self suite s (FetchDone id response) in
  match response with
  | inl e =>
      trace s1 = trace s ++ [HandlerThrew e] ∧
      fetches s1 = delete id (fetches s)
  | inr v =>
      match awaited k with
      | Logs =>
          let result := set_prop (f_result k) "logs" v in
          if wanted self (f_checkRunDataPath k) (f_result k) then
            trace s1 = trace s ++ [GetCheckRunData (handlers s) (f_region k)
                                     (f_checkRunDataPath k)] ∧
            fetches s1
            = <[handlers s := Fetch CheckRunData (f_check k) result (f_region k)
                                (f_checkRunDataPath k)]>
                (delete id (fetches s))
          else
            trace s1 = trace s ++ Emit (CHECK_SUCCESSFUL (f_check k) result)
                       :: Emit (CHECK_FINISHED (f_check k))
                       :: closing_actions s ∧
            fetches s1 = delete id (fetches s)
      | CheckRunData =>
          let result := set_prop (f_result k) "checkRunData" v in
          trace s1 = trace s ++ Emit (CHECK_SUCCESSFUL (f_check k) result)
                     :: Emit (CHECK_FINISHED (f_check k))
                     :: closing_actions s ∧
          fetches s1 = delete id (fetches s)
      end
  end.
Proof.
  intros Hs Hk s1. subst s1.
  destruct (busy_running s id k Hs Hk) as (Hp & _ & n & Hn & Hres & HN).
  unfold step.
  assert (react self suite (FetchDone id response) s
          = on_fetched self id response s) as -> by by destruct (run_phase s).
  unfold on_fetched. rewrite Hk.
  destruct response as [e | v].
  { by rewrite (resume_run_waiting _ n). }
  destruct (awaited k).
  - unfold data_then_finish. rewrite wanted_set_prop by done.
    destruct (wanted self (f_checkRunDataPath k) (f_result k)).
    + by rewrite (resume_run_waiting _ n).
    + match goal with |- context [finish ?c ?r ?x] =>
        destruct (finish_then_resume c r x n) as (-> & -> & _); try done
      end.
  - match goal with |- context [finish ?c ?r ?x] =>
      destruct (finish_then_resume c r x n) as (-> & -> & _); try done
    end.
Qed.

(** *** A suspended handler stays until its fetch is answered *)

Lemma resume_run_fetches s : fetches (resume_run s) = fetches s.
Proof.
  unfold resume_run. destruct (run_phase s); try done.
  destruct (allChecksFinishedPromise s) as [n |]; [| done].
  destruct (resolved n); [| done]. by rewrite emit_plain.
Qed.

Lemma finish_fetches c result s : fetches (finish c result s) = fetches s.
Proof.
  unfold finish.
  destruct (emit_frame (CHECK_FINISHED c) (emit (CHECK_SUCCESSFUL c result) s))
    as (_ & _ & _ & _ & _ & _ & -> & _).
  by destruct (emit_frame (CHECK_SUCCESSFUL c result) s)
    as (_ & _ & _ & _ & _ & _ & -> & _).
Qed.

Lemma suspend_keeps id k f s :
  fresh_ok s → fetches s !! id = Some k → fetches (suspend f s) !! id = Some k.
Proof.
  intros Hf Hk. unfold suspend. simpl_state.
  rewrite lookup_insert_ne; [done |].
  intros <-. rewrite Hf in Hk; [done | lia].
Qed.

Lemma data_then_finish_keeps id k c result region path s :
  fresh_ok s → fetches s !! id = Some k →
  fetches (data_then_finish self c result region path s) !! id = Some k.
Proof.
  intros Hf Hk. unfold data_then_finish. destruct (wanted self path result).
  - by apply suspend_keeps.
  - by rewrite finish_fetches.
Qed.

Lemma handler_body_keeps id k known m s :
  fresh_ok s → fetches s !! id = Some k →
  fetches (handler_body self known m s) !! id = Some k.
Proof.
  intros Hf Hk. unfold handler_body.
  destruct (timeouts s !! topic_run_id (p_topic m)) as [h |] eqn:Hr; [| done].
  destruct (is_subtopic (topic_subtopic (p_topic m)) "run-start").
  { by rewrite emit_plain. }
  rewrite (disableTimeout_armed _ _ _ Hr).
  destruct (is_subtopic (topic_subtopic (p_topic m)) "run-end").
  { destruct (run_end_locals (p_message m))
      as [e | [[[result region] logPath] path]]; [done |].
    destruct (wanted self logPath result).
    - by apply suspend_keeps.
    - by apply data_then_finish_keeps. }
  destruct (is_subtopic (topic_subtopic (p_topic m)) "error"); [| done].
  match goal with |- context [emit (CHECK_FINISHED ?c) ?x] =>
    destruct (emit_frame (CHECK_FINISHED c) x) as (_ & _ & _ & _ & _ & _ & -> & _)
  end.
  by rewrite emit_plain.
Qed.

Lemma fetch_stays s id k i :
  inv self suite s → fetches s !! id = Some k →
  (∀ response, i ≠ FetchDone id response) →
  fetches (step self suite s i) !! id = Some k.
Proof.
  intros Hs Hk Hi.
  destruct (busy_running s id k Hs Hk) as (Hp & [_ Hf _] & _).
  unfold step. rewrite resume_run_fetches.
  destruct i as [[e' |] | [e' |] | [e' | r] | topic raw | h | id' r | [e' |]];
    try (unfold react; by rewrite Hp).
  - assert (react self suite (Message topic raw) s
            = if listening s then on_message self topic raw s else s) as ->
      by by destruct (run_phase s).
    destruct (listening s); [| done].
    unfold on_message. destruct raw as [| message]; [done |].
    destruct (checks s) as [| | known | e]; try done.
    by apply handler_body_keeps.
  - assert (react self suite (TimerFired h) s
            = match timers s !! h with
              | Some (r, c) => on_timeout r c (set_timers (delete h (timers s)) s)
              | None => s
              end) as -> by by destruct (run_phase s).
    destruct (timers s !! h) as [[r c] |]; [| done].
    unfold on_timeout.
    match goal with |- context [emit (CHECK_FINISHED ?c) ?x] =>
      destruct (emit_frame (CHECK_FINISHED c) x)
        as (_ & _ & _ & _ & _ & _ & -> & _)
    end.
    by rewrite emit_plain.
  - assert (react self suite (FetchDone id' r) s
            = on_fetched self id' r s) as -> by by destruct (run_phase s).
    assert (id' ≠ id) as Hne by (intros ->; by apply (Hi r)).
    unfold on_fetched. destruct (fetches s !! id') as [k' |] eqn:Hk'; [| done].
    set (x := set_fetches (delete id' (fetches s)) (handlers s) s).
    assert (fresh_ok x) as Hfx.
    { intros j Hj. subst x. simpl_state. apply lookup_delete_None.
      right. by apply Hf. }
    assert (fetches x !! id = Some k) as Hkx.
    { subst x. simpl_state. by rewrite lookup_delete_ne. }
    destruct r as [e | v]; [done |].
    destruct (awaited k').
    + by apply data_then_finish_keeps.
    + by rewrite finish_fetches.
Qed.

Lemma fetch_stays_fold ins s id k :
  inv self suite s → fetches s !! id = Some k →
  Forall (λ i, ∀ response, i ≠ FetchDone id response) ins →
  fetches (fold_left (step self suite) ins s) !! id = Some k.
Proof.
  intros Hs Hk Hins. revert s Hs Hk.
  induction Hins as [| i ins Hi _ IH]; intros s Hs Hk; simpl; [done |].
  apply IH; [by apply inv_step | by apply fetch_stays].
Qed.
End Assets.

Lemma awaits_data_intro self suite s id check result region path :
  inv self suite s →
  fetches s !! id = Some (Fetch CheckRunData check result region path) →
  awaits_data self suite s id check result.
Proof.
  intros Hs Hk between Hb s'.
  pose proof (inv_fold self suite between s Hs) as Hs'.
  pose proof (fetch_stays_fold self suite between s id _ Hs Hk Hb) as Hk'.
  fold s' in Hs', Hk'. split.
  - intros e. by destruct (fetched_step self suite s' id _ (inl e) Hs' Hk').
  - intros data.
    by destruct (fetched_step self suite s' id _ (inr data) Hs' Hk').
Qed.

(** C7, as the code has it.  A [run-end] message for an armed run id, with
    a payload that has [result.assets], retires the timer and then:
    - asks for the logs if and only if [logPath] is truthy and [verbose] is
      set or [result.hasFailures] is truthy;
    - asks for the check-run data if and only if [checkRunDataPath] is
      truthy and the same condition holds, and the logs, if asked for, have
      arrived;
    - emits nothing before the fetches it started are answered, and then
      [CHECK_SUCCESSFUL] with the result to which the fetched logs and data
      are attached, followed by [CHECK_FINISHED], whatever [hasFailures] is
      (and [RUN_FINISHED] and the disconnect if this was the last check);
    - throws, and emits nothing, as soon as a fetch is rejected. *)
Theorem run_end_fetches_then_reports
    self suite ins topic m h result region logPath dataPath :
  let s := exec self suite ins in
  timeouts s !! topic_run_id topic = Some h →
  topic_subtopic topic = Some "run-end" →
  run_end_locals m = inr (result, region, logPath, dataPath) →
  ∃ known,
    checks s = Resolved known ∧
    let check := correlate known (topic_run_id topic) in
    let id := handlers s in
    let s1 := step self suite s (Message topic (Json m)) in
    (∀ path, wanted self path result = true ↔
             truthy path = true ∧
             (verbose self = true ∨ truthy (hasFailures result) = true)) ∧
    trace s1
    = trace s ++ ClearTimeout (Some h)
      :: (if wanted self logPath result then [GetLogs id region logPath]
          else if wanted self dataPath result then
            [GetCheckRunData id region dataPath]
          else Emit (CHECK_SUCCESSFUL check result)
               :: Emit (CHECK_FINISHED check) :: closing_actions s) ∧
    (wanted self logPath result = false →
     wanted self dataPath result = true →
     awaits_data self suite s1 id check result) ∧
    (wanted self logPath result = true →
     ∀ between,
       Forall (λ i, ∀ response, i ≠ FetchDone id response) between →
       let s2 := fold_left (step self suite) between s1 in
       (∀ e,
          trace (step self suite s2 (FetchDone id (inl e)))
          = trace s2 ++ [HandlerThrew e] ∧
          fetches (step self suite s2 (FetchDone id (inl e))) !! id = None) ∧
       (∀ logs,
          let s3 := step self suite s2 (FetchDone id (inr logs)) in
          let result1 := set_prop result "logs" logs in
          if wanted self dataPath result then
            trace s3
            = trace s2 ++ [GetCheckRunData (handlers s2) region dataPath] ∧
            awaits_data self suite s3 (handlers s2) check result1
          else
            trace s3
            = trace s2 ++ Emit (CHECK_SUCCESSFUL check result1)
              :: Emit (CHECK_FINISHED check) :: closing_actions s2)).
Proof.
  intros s Hr Hk Hm.
  pose proof (inv_exec self suite ins) as Hs. fold s in Hs.
  destruct (entry_running self suite s _ _ Hs Hr)
    as (_ & _ & n & known & _ & Hc & _).
  exists known. split; [done |]. intros check id s1.
  destruct (run_end_step self suite s known topic m h result region logPath
              dataPath Hs Hc Hr Hk Hm) as (Htr & Hfe & _).
  fold check s1 id in Htr, Hfe.
  assert (inv self suite s1) as Hs1 by by apply inv_step.
  split_and!.
  - intros path. unfold wanted.
    rewrite andb_true_iff, orb_true_iff. done.
  - done.
  - intros Hl Hd. rewrite Hl, Hd in Hfe.
    apply (awaits_data_intro self suite s1 id check result region dataPath Hs1).
    by rewrite Hfe, lookup_insert_eq.
  - intros Hl between Hb s2. rewrite Hl in Hfe.
    assert (fetches s1 !! id = Some (Fetch Logs check result region dataPath))
      as Hk1 by by rewrite Hfe, lookup_insert_eq.
    pose proof (inv_fold self suite between s1 Hs1) as Hs2.
    pose proof (fetch_stays_fold self suite between s1 id _ Hs1 Hk1 Hb) as Hk2.
    fold s2 in Hs2, Hk2. split.
    + intros e.
      destruct (fetched_step self suite s2 id _ (inl e) Hs2 Hk2) as [-> ->].
      split; [done |]. apply lookup_delete_eq.
    + intros logs s3 result1.
      pose proof (fetched_step self suite s2 id _ (inr logs) Hs2 Hk2) as Hf.
      cbn [awaited f_result f_checkRunDataPath f_region f_check] in Hf.
      fold s3 result1 in Hf.
      destruct (wanted self dataPath result); [| by destruct Hf].
      destruct Hf as [Htr3 Hfe3]. split; [done |].
      apply (awaits_data_intro self suite s3 (handlers s2) check result1 region
               dataPath).
      * by apply inv_step.
      * by rewrite Hfe3, lookup_insert_eq.
Qed.

Lemma run_end_fetches_then_reports_witness :
  let s := exec sample_runner "suite" sample_start in
  let topic := topic_of "r1" "run-end" in
  let result := failing_result in
  let region := Some (JStr "eu-central-1") in
  let logPath := Some (JStr "logs/1") in
  let dataPath := Some (JStr "data/1") in
  timeouts s !! topic_run_id topic = Some 0 ∧
  topic_subtopic topic = Some "run-end" ∧
  run_end_locals failing_result_payload
  = inr (result, region, logPath, dataPath) ∧
  ∃ known,
    checks s = Resolved known ∧
    let check := correlate known (topic_run_id topic) in
    let id := handlers s in
    let s1 := step sample_runner "suite" s
                (Message topic (Json failing_result_payload)) in
    (∀ path, wanted sample_runner path result = true ↔
             truthy path = true ∧
             (verbose sample_runner = true ∨
              truthy (hasFailures result) = true)) ∧
    trace s1
    = trace s ++ ClearTimeout (Some 0)
      :: (if wanted sample_runner logPath result then [GetLogs id region logPath]
          else if wanted sample_runner dataPath result then
            [GetCheckRunData id region dataPath]
          else Emit (CHECK_SUCCESSFUL check result)
               :: Emit (CHECK_FINISHED check) :: closing_actions s) ∧
    (wanted sample_runner logPath result = false →
     wanted sample_runner dataPath result = true →
     awaits_data sample_runner "suite" s1 id check result) ∧
    (wanted sample_runner logPath result = true →
     ∀ between,
       Forall (λ i, ∀ response, i ≠ FetchDone id response) between →
       let s2 := fold_left (step sample_runner "suite") between s1 in
       (∀ e,
          trace (step sample_runner "suite" s2 (FetchDone id (inl e)))
          = trace s2 ++ [HandlerThrew e] ∧
          fetches (step sample_runner "suite" s2 (FetchDone id (inl e))) !! id
          = None) ∧
       (∀ logs,
          let s3 := step sample_runner "suite" s2 (FetchDone id (inr logs)) in
          let result1 := set_prop result "logs" logs in
          if wanted sample_runner dataPath result then
            trace s3
            = trace s2 ++ [GetCheckRunData (handlers s2) region dataPath] ∧
            awaits_data sample_runner "suite" s3 (handlers s2) check result1
          else
            trace s3
            = trace s2 ++ Emit (CHECK_SUCCESSFUL check result1)
              :: Emit (CHECK_FINISHED check) :: closing_actions s2)).
Proof.
  split; [by vm_compute |]. split; [by vm_compute |]. split; [reflexivity |].
  apply (run_end_fetches_then_reports sample_runner "suite" sample_start
           (topic_of "r1" "run-end") failing_result_payload 0 failing_result
           (Some (JStr "eu-central-1")) (Some (JStr "logs/1"))
           (Some (JStr "data/1"))).
  - by vm_compute.
  - by vm_compute.
  - reflexivity.
Defined.

(** The scenario of the specification: a result with failures and a log
    path, verbosity off.  The logs are fetched, then the data, and both are
    attached to the result that [CHECK_SUCCESSFUL] carries. *)
Example failing_result_is_reported :
  trace (exec sample_runner "suite"
           (sample_start
            ++ [Message (topic_of "r1" "run-end") (Json failing_result_payload);
                FetchDone 0 (inr (JStr "log lines"));
                FetchDone 1 (inr (JStr "run data"))]))
  = trace (exec sample_runner "suite" sample_start)
    ++ [ClearTimeout (Some 0);
        GetLogs 0 (Some (JStr "eu-central-1")) (Some (JStr "logs/1"));
        GetCheckRunData 1 (Some (JStr "eu-central-1")) (Some (JStr "data/1"));
        Emit (CHECK_SUCCESSFUL (Some check_A)
                (JObj [("hasFailures", JBool true);
                       ("assets", JObj [("region", JStr "eu-central-1");
                                        ("logPath", JStr "logs/1");
                                        ("checkRunDataPath", JStr "data/1")]);
                       ("logs", JStr "log lines");
                       ("checkRunData", JStr "run data")]));
        Emit (CHECK_FINISHED (Some check_A))].
Proof. by vm_compute. Qed.

(** C7 as the specification states it fails when the log fetch is
    rejected: the condition of the data fetch holds, but the handler has
    thrown; it asks for no check-run data and emits neither
    [CHECK_SUCCESSFUL] nor [CHECK_FINISHED], and nothing of it is left to do
    so later (no pending fetch, no table entry for the run id). *)
Lemma rejected_fetch_stops_the_handler :
  let s := exec sample_runner "suite"
             (sample_start
              ++ [Message (topic_of "r1" "run-end") (Json failing_result_payload);
                  FetchDone 0 (inl (Failure "503"))]) in
  wanted sample_runner (Some (JStr "data/1")) failing_result = true ∧
  trace s
  = trace (exec sample_runner "suite" sample_start)
    ++ [ClearTimeout (Some 0);
        GetLogs 0 (Some (JStr "eu-central-1")) (Some (JStr "logs/1"));
        HandlerThrew (Failure "503")] ∧
  events s = [RUN_STARTED [check_A; check_B]] ∧
  fetches s = ∅ ∧
  timeouts s !! Some "r1" = None.
Proof. by vm_compute. Qed.

(** ** One terminal pair per check *)

Lemma paired_app l1 l2 : paired l1 → paired l2 → paired (l1 ++ l2).
Proof.
  induction 1 as [| e l He _ IH | c e l He _ IH]; intros H2; simpl.
  - done.
  - apply paired_other; auto.
  - apply paired_pair; auto.
Qed.

Lemma pair_counts i chk out :
  is_outcome chk out →
  count (finished_for i) [out; CHECK_FINISHED chk]
  = (if finished_for i (CHECK_FINISHED chk) then 1 else 0) ∧
  count (outcome_for i) [out; CHECK_FINISHED chk]
  = (if finished_for i (CHECK_FINISHED chk) then 1 else 0).
Proof.
  intros [[m ->] | [r ->]]; destruct chk as [c |]; unfold count; simpl;
    try done; by destruct (String.eqb (check_id c) i).
Qed.

Section Once.
Variable self : CheckRunner.
Variable cs : list check.
Variable ids : list (string * string).
Hypothesis distinct : NoDup (map (run_id_of ids) cs).

Lemma timer_unique x s h1 h2 r1 r2 c1 c2 :
  once cs ids x s →
  timers s !! h1 = Some (r1, c1) → timers s !! h2 = Some (r2, c2) →
  check_id c1 = check_id c2 → h1 = h2.
Proof.
  intros Ho H1 H2 Hid.
  destruct (once_timers _ _ _ _ Ho _ _ _ H1) as [Hc1 _].
  destruct (once_timers _ _ _ _ Ho _ _ _ H2) as [Hc2 _].
  apply (NoDup_lookup _ h1 h2 (run_id_of ids c1) distinct).
  - by rewrite list_lookup_fmap, Hc1.
  - rewrite list_lookup_fmap, Hc2. simpl. unfold run_id_of. by rewrite Hid.
Qed.

Lemma once_weaken x s : once cs ids x s → once cs ids None s.
Proof.
  intros [Ht Hp Hc Hti Hfe Hu Hh]. split; try done.
  - intros i Hi. destruct (Hti i Hi) as (? & ? & _). done.
  - intros i Hi. destruct (Hfe i Hi) as (? & _). done.
Qed.

(** States with the same timers, fetches and events. *)
Lemma once_same x s s' :
  timers s' = timers s → fetches s' = fetches s → events s' = events s →
  once cs ids x s → once cs ids x s'.
Proof.
  intros Eti Efe Eev [Ht Hp Hc Hti Hfe Hu Hh].
  unfold holds_timer, holds_fetch in *.
  split; unfold holds_timer, holds_fetch; rewrite ?Eti, ?Efe, ?Eev; done.
Qed.

Lemma once_log x a s :
  match a with Emit _ => False | _ => True end →
  once cs ids x s → once cs ids x (log a s).
Proof.
  intros Ha. apply once_same; try done.
  rewrite events_log. destruct a; try done; by rewrite app_nil_r.
Qed.

Lemma once_emit_other x e s :
  is_terminal e = false → once cs ids x s → once cs ids x (emit e s).
Proof.
  intros He [Ht Hp Hc Hti Hfe Hu Hh].
  destruct (emit_frame e s) as (_ & _ & _ & Eti & _ & _ & Efe & _).
  assert (∀ i, count (finished_for i) (events (emit e s))
               = count (finished_for i) (events s)) as Ef.
  { intros i. rewrite emit_events, count_app. unfold count at 2. simpl.
    destruct e; try done; simpl; lia. }
  assert (∀ i, count (outcome_for i) (events (emit e s))
               = count (outcome_for i) (events s)) as Eo.
  { intros i. rewrite emit_events, count_app. unfold count at 2. simpl.
    destruct e; try done; simpl; lia. }
  split; unfold holds_timer, holds_fetch in *; rewrite ?Eti, ?Efe;
    try setoid_rewrite Ef; try setoid_rewrite Eo; try done.
  rewrite emit_events. apply paired_app; [done |].
  apply paired_other; [done | constructor].
Qed.

(** The running code takes the check of a timer in hand. *)
Lemma once_retire s h r c :
  once cs ids None s → timers s !! h = Some (r, c) →
  once cs ids (Some (check_id c))
    (set_timeouts (delete r (timeouts s)) (set_timers (delete h (timers s)) s)).
Proof.
  intros Ho Hh. pose proof Ho as [Ht Hp Hc Hti Hfe Hu Hh'].
  assert (holds_timer (check_id c) s) as Hheld by by exists h, r, c.
  split.
  - intros h' r' c' H'. simpl_state.
    apply lookup_delete_Some in H' as [_ H']. by apply Ht.
  - done.
  - done.
  - intros i (h' & r' & c' & H' & <-). simpl_state.
    apply lookup_delete_Some in H' as [Hne H'].
    destruct (Hti (check_id c')) as (? & ? & _); [by exists h', r', c' |].
    split_and!; try done.
    intros [= E]. apply Hne.
    by apply (timer_unique None s h h' r r' c c' Ho).
  - intros i Hi. destruct (Hfe i Hi) as [? _]. split; [done |].
    intros [= <-]. by destruct (Hti _ Hheld) as (_ & Hnf & _).
  - done.
  - intros i [= <-]. by destruct (Hti _ Hheld) as (? & _).
Qed.

(** The running code emits the terminal pair of the check in hand. *)
Lemma once_terminal x chk out s :
  is_outcome chk out →
  (∀ c, chk = Some c → x = Some (check_id c)) →
  once cs ids x s →
  once cs ids None (emit (CHECK_FINISHED chk) (emit out s)).
Proof.
  intros Hout Hx [Ht Hp Hc Hti Hfe Hu Hh].
  assert (is_check_finished out = false) as Hnf
    by (by destruct Hout as [[? ->] | [? ->]]).
  rewrite (emit_plain out) by done.
  destruct (emit_frame (CHECK_FINISHED chk) (log (Emit out) s))
    as (_ & _ & _ & Eti & _ & _ & Efe & _). simpl_state.
  assert (events (emit (CHECK_FINISHED chk) (log (Emit out) s))
          = events s ++ [out; CHECK_FINISHED chk]) as Eev.
  { rewrite emit_events, events_log, <- app_assoc. done. }
  assert (∀ i, count (finished_for i) (events s ++ [out; CHECK_FINISHED chk])
               = count (finished_for i) (events s)
                 + (if finished_for i (CHECK_FINISHED chk) then 1 else 0)) as Ef.
  { intros i. rewrite count_app. by destruct (pair_counts i chk out Hout) as [-> _]. }
  assert (∀ i, count (outcome_for i) (events s ++ [out; CHECK_FINISHED chk])
               = count (outcome_for i) (events s)
                 + (if finished_for i (CHECK_FINISHED chk) then 1 else 0)) as Eo.
  { intros i. rewrite count_app. by destruct (pair_counts i chk out Hout) as [_ ->]. }
  assert (∀ i, finished_for i (CHECK_FINISHED chk) = true → x = Some i) as Hin.
  { intros i Hi. destruct chk as [c |]; [| done]. simpl in Hi.
    apply String.eqb_eq in Hi as <-. by apply Hx. }
  split; unfold holds_timer, holds_fetch in *; rewrite ?Eti, ?Efe, ?Eev.
  - done.
  - apply paired_app; [done |]. apply paired_pair; [done | constructor].
  - intros i. rewrite Ef, Eo. destruct (Hc i) as [-> Hle]. split; [done |].
    destruct (finished_for i (CHECK_FINISHED chk)) eqn:Hi; [| lia].
    rewrite (Hh i (Hin i Hi)). lia.
  - intros i Hi. destruct (Hti i Hi) as (Hz & ? & Hne).
    split_and!; try done. rewrite Ef, Hz.
    destruct (finished_for i (CHECK_FINISHED chk)) eqn:Hf; [| done].
    by destruct (Hne (Hin i Hf)).
  - intros i Hi. destruct (Hfe i Hi) as (Hz & Hne).
    split; [| done]. rewrite Ef, Hz.
    destruct (finished_for i (CHECK_FINISHED chk)) eqn:Hf; [| done].
    by destruct (Hne (Hin i Hf)).
  - done.
  - done.
Qed.

(** The running code suspends on a fetch for the check in hand. *)
Lemma once_suspend x k s :
  fresh_ok s →
  (∀ c, f_check k = Some c → x = Some (check_id c)) →
  once cs ids x s → once cs ids None (suspend k s).
Proof.
  intros Hfresh Hx [Ht Hp Hc Hti Hfe Hu Hh].
  assert (fetches s !! handlers s = None) as Hnew by (by apply Hfresh).
  assert (∀ i, holds_fetch i (suspend k s) →
               holds_fetch i s ∨ x = Some i) as Hcases.
  { intros i (f & k' & c & Hf & Hk' & <-). unfold suspend in Hf. simpl_state.
    destruct (decide (f = handlers s)) as [-> | Hne].
    - rewrite lookup_insert_eq in Hf. injection Hf as <-. right. by apply Hx.
    - rewrite lookup_insert_ne in Hf by done. left. by exists f, k', c. }
  split.
  - done.
  - done.
  - done.
  - intros i Hi. destruct (Hti i Hi) as (? & Hnf & Hne).
    split_and!; try done. intros Hf. by destruct (Hcases i Hf).
  - intros i Hi. split; [| done].
    destruct (Hcases i Hi) as [Hold | ->]; [by destruct (Hfe i Hold) | by apply Hh].
  - intros f1 f2 k1 k2 c1 c2 H1 H2 Hc1 Hc2 Hid. unfold suspend in H1, H2.
    simpl_state.
    destruct (decide (f1 = handlers s)) as [-> | Hn1];
      destruct (decide (f2 = handlers s)) as [-> | Hn2]; try done.
    + rewrite lookup_insert_eq in H1. injection H1 as <-.
      rewrite lookup_insert_ne in H2 by done.
      destruct (Hfe (check_id c2)) as [_ Hne]; [by exists f2, k2, c2 |].
      destruct Hne. rewrite <- Hid. by apply Hx.
    + rewrite lookup_insert_eq in H2. injection H2 as <-.
      rewrite lookup_insert_ne in H1 by done.
      destruct (Hfe (check_id c1)) as [_ Hne]; [by exists f1, k1, c1 |].
      destruct Hne. rewrite Hid. by apply Hx.
    + rewrite lookup_insert_ne in H1, H2 by done. by apply (Hu f1 f2 k1 k2 c1 c2).
  - done.
Qed.

(** A handler resumes from its fetch and has its check in hand again. *)
Lemma once_resume s id k :
  once cs ids None s → fetches s !! id = Some k →
  once cs ids (check_id <$> f_check k)
    (set_fetches (delete id (fetches s)) (handlers s) s).
Proof.
  intros [Ht Hp Hc Hti Hfe Hu Hh] Hk.
  assert (∀ i, holds_fetch i (set_fetches (delete id (fetches s)) (handlers s) s)
               → holds_fetch i s ∧ check_id <$> f_check k ≠ Some i) as Hsub.
  { intros i (f & k' & c & Hf & Hk' & <-). simpl_state.
    apply lookup_delete_Some in Hf as [Hne Hf].
    split; [by exists f, k', c |].
    destruct (f_check k) as [c0 |] eqn:Hc0; [| done]. simpl.
    intros [= E]. apply Hne. by apply (Hu id f k k' c0 c). }
  split.
  - done.
  - done.
  - done.
  - intros i Hi. destruct (Hti i Hi) as (? & Hnf & _).
    split_and!; try done.
    + intros Hf. by destruct (Hsub i Hf).
    + destruct (f_check k) as [c0 |] eqn:Hc0; [| done]. simpl.
      intros [= <-]. apply Hnf. by exists id, k, c0.
  - intros i Hi. destruct (Hsub i Hi) as [Hold ?].
    by destruct (Hfe i Hold).
  - intros f1 f2 k1 k2 c1 c2 H1 H2. simpl_state.
    apply lookup_delete_Some in H1 as [_ H1].
    apply lookup_delete_Some in H2 as [_ H2].
    by apply Hu.
  - intros i Hi. destruct (f_check k) as [c0 |] eqn:Hc0; [| done].
    injection Hi as <-. destruct (Hfe (check_id c0)) as [? _]; [| done].
    by exists id, k, c0.
Qed.

(** *** The check a message resolves to owns the timer it retires *)

Lemma flip_sound_fold ks acc :
  (∀ k, k ∈ ks → is_Some (obj_get k ids)) →
  (∀ r key, obj_get r acc = Some key → obj_get key ids = Some r) →
  ∀ r key,
    obj_get r
      (fold_left (λ ret key, obj_set (prop_name (obj_get key ids)) key ret)
                 ks acc) = Some key →
    obj_get key ids = Some r.
Proof.
  revert acc. induction ks as [| k ks IH]; intros acc Hks Hacc; simpl; [done |].
  apply IH.
  - intros k' Hk'. apply Hks. by apply list_elem_of_further.
  - intros r key. destruct (Hks k) as [v Hv]; [apply list_elem_of_here |].
    rewrite Hv. simpl. destruct (decide (r = v)) as [-> | Hne].
    + rewrite obj_get_set_eq. by intros [= <-].
    + rewrite obj_get_set_ne by done. apply Hacc.
Qed.

Lemma flip_sound r key :
  obj_get r (objectFlip ids) = Some key → obj_get key ids = Some r.
Proof.
  unfold objectFlip. apply flip_sound_fold.
  - intros k. apply obj_key_get.
  - done.
Qed.

Lemma subtopic_run_id topic k :
  topic_subtopic topic = Some k → is_Some (topic_run_id topic).
Proof.
  unfold topic_subtopic, topic_run_id. intros H.
  apply lookup_lt_is_Some. apply lookup_lt_Some in H. lia.
Qed.

Lemma is_subtopic_eq t k : is_subtopic t k = true → t = Some k.
Proof.
  destruct t as [t |]; [| done]. simpl. by intros ->%String.eqb_eq.
Qed.

Lemma correlate_owner x s topic k h c c1 :
  once cs ids x s →
  topic_subtopic topic = Some k →
  timers s !! h = Some (topic_run_id topic, c) →
  correlate (cs, objectFlip ids) (topic_run_id topic) = Some c1 →
  check_id c1 = check_id c.
Proof.
  intros Ho Hk Hh Hcor.
  destruct (subtopic_run_id topic k Hk) as [r Hr]. rewrite Hr in *.
  destruct (once_timers _ _ _ _ Ho _ _ _ Hh) as [Hc Hrun].
  unfold correlate in Hcor. simpl in Hcor.
  destruct (obj_get r (objectFlip ids)) as [key |] eqn:Hflip; [| done].
  simpl in Hcor. apply List.find_some in Hcor as [Hin Hid].
  apply String.eqb_eq in Hid. apply flip_sound in Hflip.
  apply list_elem_of_In, list_elem_of_lookup in Hin as [h1 Hc1].
  assert (h = h1) as <-.
  { apply (NoDup_lookup _ h h1 (Some r) distinct).
    - by rewrite list_lookup_fmap, Hc, Hrun.
    - rewrite list_lookup_fmap, Hc1. simpl. unfold run_id_of.
      by rewrite Hid, Hflip. }
  congruence.
Qed.

(** *** Handlers and callbacks keep the account *)

Lemma once_finish x chk result s :
  (∀ c, chk = Some c → x = Some (check_id c)) →
  once cs ids x s → once cs ids None (finish chk result s).
Proof.
  intros Hx Ho. unfold finish. apply (once_terminal x); try done.
  right. by eexists.
Qed.

Lemma once_data_then_finish x chk result region path s :
  fresh_ok s →
  (∀ c, chk = Some c → x = Some (check_id c)) →
  once cs ids x s →
  once cs ids None (data_then_finish self chk result region path s).
Proof.
  intros Hf Hx Ho. unfold data_then_finish. destruct (wanted self path result).
  - apply (once_suspend x); [done | done | by apply once_log].
  - by apply (once_finish x).
Qed.

Lemma once_on_timeout s h r c :
  once cs ids None s → timers s !! h = Some (r, c) →
  once cs ids None (on_timeout r c (set_timers (delete h (timers s)) s)).
Proof.
  intros Ho Hh. unfold on_timeout. simpl_state.
  apply (once_terminal (Some (check_id c))).
  - left. by eexists.
  - by intros c' [= ->].
  - by apply once_retire.
Qed.

Lemma once_handler_body m s :
  table_ok s → fresh_ok s → once cs ids None s →
  once cs ids None (handler_body self (cs, objectFlip ids) m s).
Proof.
  intros Htab Hfresh Ho. unfold handler_body.
  destruct (timeouts s !! topic_run_id (p_topic m)) as [h |] eqn:Hr; [| done].
  destruct (Htab _ _ Hr) as [c Hh].
  destruct (is_subtopic (topic_subtopic (p_topic m)) "run-start").
  { by apply once_emit_other. }
  rewrite (disableTimeout_armed _ _ _ Hr).
  set (x := set_timeouts _ _).
  assert (once cs ids (Some (check_id c)) x) as Hox.
  { subst x. apply (once_retire (log (ClearTimeout (Some h)) s) h _ c);
      [by apply once_log | done]. }
  assert (fresh_ok x) as Hfx by done.
  assert (∀ k, topic_subtopic (p_topic m) = Some k →
          ∀ c1, correlate (cs, objectFlip ids) (topic_run_id (p_topic m))
                = Some c1 → Some (check_id c) = Some (check_id c1)) as Hown.
  { intros k Hk c1 Hc1. f_equal. symmetry.
    by apply (correlate_owner None s (p_topic m) k h c c1). }
  destruct (is_subtopic (topic_subtopic (p_topic m)) "run-end") eqn:Hend.
  { apply is_subtopic_eq in Hend.
    destruct (run_end_locals (p_message m))
      as [e | [[[result region] logPath] path]].
    - apply (once_weaken (Some (check_id c))). by apply once_log.
    - destruct (wanted self logPath result).
      + apply (once_suspend (Some (check_id c))); [done | | by apply once_log].
        apply (Hown _ Hend).
      + apply (once_data_then_finish (Some (check_id c))); try done.
        apply (Hown _ Hend). }
  destruct (is_subtopic (topic_subtopic (p_topic m)) "error") eqn:Herr;
    [| done].
  apply is_subtopic_eq in Herr.
  apply (once_terminal (Some (check_id c))); try done.
  - left. by eexists.
  - apply (Hown _ Herr).
Qed.

Lemma once_on_fetched id response s :
  fresh_ok s → once cs ids None s →
  once cs ids None (on_fetched self id response s).
Proof.
  intros Hfresh Ho. unfold on_fetched.
  destruct (fetches s !! id) as [k |] eqn:Hk; [| done].
  pose proof (once_resume s id k Ho Hk) as Hox.
  set (x := set_fetches _ _ _) in *.
  assert (fresh_ok x) as Hfx.
  { intros j Hj. subst x. simpl_state. apply lookup_delete_None.
    right. by apply Hfresh. }
  assert (∀ c, f_check k = Some c → check_id <$> f_check k = Some (check_id c))
    as Hx by (by intros c ->).
  destruct response as [e | v].
  - apply (once_weaken (check_id <$> f_check k)). by apply once_log.
  - destruct (awaited k).
    + by apply (once_data_then_finish (check_id <$> f_check k)).
    + by apply (once_finish (check_id <$> f_check k)).
Qed.

Lemma once_resume_run x s : once cs ids x s → once cs ids x (resume_run s).
Proof.
  intros Ho. unfold resume_run. destruct (run_phase s); try done.
  destruct (allChecksFinishedPromise s) as [n |]; [| done].
  destruct (resolved n); [| done].
  apply (once_same x (log End (emit RUN_FINISHED s))); try done.
  apply once_log; [done |]. by apply once_emit_other.
Qed.
End Once.

Section OnceRun.
Variable self : CheckRunner.
Variable suite : string.
Variable cs : list check.
Variable ids : list (string * string).
Hypothesis distinct : NoDup (map (run_id_of ids) cs).

Lemma inv_tables s : inv self suite s → table_ok s ∧ fresh_ok s.
Proof.
  assert (∀ s', quiet s' → table_ok s' ∧ fresh_ok s') as Hq.
  { intros s' (Hto & _ & Hfe). split.
    - intros r h. by rewrite Hto, lookup_empty.
    - intros h _. by rewrite Hfe, lookup_empty. }
  intros [ | e0 | s' mid _ ? _ _ _ _ _ _
         | s' mid mid2 _ ? _ _ _ _ _ _
         | s' e0 mid mid2 mid3 _ ? _ _ _ _ _ _ _ _
         | s' cs' ids' n mid mid2 body _ [? ? _] _ _ _ _ _ _ _ _ _ _
         | s' cs' ids' n mid mid2 body mid3 _ ? _ _ _ _ _ _ _ _ _ _ _ _ _ ];
    auto; by apply Hq.
Qed.

Lemma once_react s i :
  inv self suite s → checks s = Resolved (cs, objectFlip ids) →
  once cs ids None s → once cs ids None (react self suite i s).
Proof.
  intros Hs Hc Ho. destruct (inv_tables s Hs) as [Htab Hfresh].
  destruct (answered_shape self suite s cs _ Hs Hc)
    as (_ & _ & _ & _ & _ & [(Hp & _) | (Hp & _)]).
  all: destruct i as [[e' |] | [e' |] | [e' | r] | topic raw | h | id r | [e' |]].
  all: try (unfold react; rewrite Hp; done).
  all: try (unfold react; destruct (run_phase s); try done;
            by apply (once_same cs ids None s)).
  all: try (assert (react self suite (Message topic raw) s
              = if listening s then on_message self topic raw s else s) as ->
              by (by destruct (run_phase s));
            destruct (listening s); [| done];
            unfold on_message; destruct raw as [| message];
            [by apply once_log | rewrite Hc; by apply once_handler_body]).
  all: try (assert (react self suite (TimerFired h) s
              = match timers s !! h with
                | Some (r, c) =>
                    on_timeout r c (set_timers (delete h (timers s)) s)
                | None => s
                end) as -> by (by destruct (run_phase s));
            destruct (timers s !! h) as [[r c] |] eqn:Hh; [| done];
            by apply once_on_timeout).
  all: assert (react self suite (FetchDone id r) s
              = on_fetched self id r s) as -> by (by destruct (run_phase s));
       by apply once_on_fetched.
Qed.

Lemma once_step s i :
  inv self suite s → checks s = Resolved (cs, objectFlip ids) →
  once cs ids None s → once cs ids None (step self suite s i).
Proof.
  intros Hs Hc Ho. unfold step. apply once_resume_run. by apply once_react.
Qed.

Lemma fold_once ms s :
  live 0 s → once cs ids None s →
  once cs ids None
    (fold_left (λ s m, handler_body self (cs, objectFlip ids) m s) ms s).
Proof.
  revert s. induction ms as [| m ms IH]; intros s Hl Ho; simpl; [done |].
  apply IH; [by apply live_handler_body |].
  destruct Hl as [Htab Hfresh _]. by apply once_handler_body.
Qed.

Lemma once_trigger s :
  inv self suite s → run_phase s = Triggering →
  once cs ids None (step self suite s (TriggerDone (inr (cs, ids)))).
Proof.
  intros Hs Hp.
  destruct (triggering_quiet self suite s Hs Hp) as [Hq Hev].
  destruct (scheduled self cs ids s Hq Hev)
    as (_ & Hl0 & _ & _ & _ & _ & Htr0 & Hat & Hhigh & Hfe0).
  unfold step. apply once_resume_run.
  unfold react. rewrite Hp. cbn [fst snd].
  apply fold_once; [done |].
  match goal with |- once _ _ _ ?s0 => set (x := s0) in * end.
  assert (events x = [RUN_STARTED cs]) as Eev.
  { unfold events in *. rewrite Htr0, !events_of_app, Hev.
    by rewrite arming_local_free. }
  split.
  - intros h r c Hh. destruct (cs !! h) as [c' |] eqn:Hc.
    + rewrite (Hat h c' Hc) in Hh. by injection Hh as <- <-.
    + apply lookup_ge_None in Hc. by rewrite (Hhigh h Hc) in Hh.
  - rewrite Eev. apply paired_other; [done | constructor].
  - intros i. rewrite Eev. unfold count. simpl. split; [done | lia].
  - intros i _. rewrite Eev. split_and!; [done | | done].
    intros (f & k & c & Hf & _). by rewrite Hfe0, lookup_empty in Hf.
  - intros i (f & k & c & Hf & _). by rewrite Hfe0, lookup_empty in Hf.
  - intros f1 f2 k1 k2 c1 c2 Hf. by rewrite Hfe0, lookup_empty in Hf.
  - done.
Qed.

Lemma once_exec ins1 ins2 :
  run_phase (exec self suite ins1) = Triggering →
  once cs ids None
    (exec self suite (ins1 ++ TriggerDone (inr (cs, ids)) :: ins2)).
Proof.
  intros Hp. rewrite <- (rev_involutive ins2).
  induction (rev ins2) as [| i l IH]; simpl.
  - rewrite exec_snoc. apply once_trigger; [apply inv_exec | done].
  - replace (ins1 ++ TriggerDone (inr (cs, ids)) :: rev l ++ [i])
      with ((ins1 ++ TriggerDone (inr (cs, ids)) :: rev l) ++ [i])
      by (by rewrite <- app_assoc).
    rewrite exec_snoc. apply once_step; [apply inv_exec | | done].
    rewrite exec_app. simpl.
    destruct (trigger_answered_step self suite _ cs ids Hp) as [Hc Ha].
    by destruct (fold_answered self suite (rev l) _ Ha) as (_ & -> & _).
Qed.
End OnceRun.

Section Discard.
Variable self : CheckRunner.
Variable suite : string.

Lemma garbled_step s known topic :
  inv self suite s → checks s = Resolved known →
  step self suite s (Message topic Garbled) = log (HandlerThrew SyntaxError) s.
Proof.
  intros Hs Hc. destruct (resolved_idle self suite s known Hs Hc) as [_ Hli].
  unfold step.
  assert (react self suite (Message topic Garbled) s
          = if listening s then on_message self topic Garbled s else s) as ->
    by by destruct (run_phase s).
  rewrite Hli. unfold on_message. destruct known as [cs known].
  destruct (answered_shape self suite s cs known Hs Hc)
    as (n & _ & Hn & _ & _ & [(Hp & _ & Hres & _) | (Hp & _)]).
  - by apply (resume_run_waiting _ n).
  - apply resume_run_idle. by apply closing_not_waiting.
Qed.

(** A message for a run id that is not in the table. *)
Lemma unknown_run_id_step s known topic raw :
  inv self suite s → checks s = Resolved known →
  timeouts s !! topic_run_id topic = None →
  let s' := step self suite s (Message topic raw) in
  events s' = events s ∧ timeouts s' = timeouts s ∧ timers s' = timers s ∧
  fetches s' = fetches s ∧
  allChecksFinishedPromise s' = allChecksFinishedPromise s.
Proof.
  intros Hs Hc Hr s'. subst s'. destruct raw as [| m].
  - rewrite (garbled_step s known) by done. split_and!; try done.
    by rewrite events_log, app_nil_r.
  - by rewrite (stray_step self suite s known) by auto.
Qed.

(** A [run-end] or [error] message leaves no entry for its run id. *)
Lemma terminal_disarms s known topic m :
  inv self suite s → checks s = Resolved known →
  topic_subtopic topic = Some "run-end" ∨ topic_subtopic topic = Some "error" →
  timeouts (step self suite s (Message topic (Json m))) !! topic_run_id topic
  = None.
Proof.
  intros Hs Hc Hk. rewrite (message_step self suite s known) by done.
  destruct (resume_run_keeps (handler_body self known (Parked topic m) s))
    as (_ & _ & _ & -> & _).
  unfold handler_body. cbn [p_topic p_message].
  destruct (timeouts s !! topic_run_id topic) as [h |] eqn:Hr; [| done].
  assert (timeouts (disableTimeout (topic_run_id topic) s) !! topic_run_id topic
          = None) as Hgone.
  { rewrite (disableTimeout_armed _ _ _ Hr). simpl_state.
    apply lookup_delete_eq. }
  destruct Hk as [-> | ->].
  - replace (is_subtopic (Some "run-end") "run-start") with false by done.
    rewrite is_subtopic_true.
    eapply lookup_weaken_None; [exact Hgone |].
    apply mv_timeouts.
    destruct (run_end_locals m) as [e | [[[result region] logPath] path]].
    + by apply moves_log.
    + destruct (wanted self logPath result).
      * eapply moves_trans; [| apply moves_suspend]; by apply moves_log.
      * apply moves_data_then_finish.
  - replace (is_subtopic (Some "error") "run-start") with false by done.
    replace (is_subtopic (Some "error") "run-end") with false by done.
    rewrite is_subtopic_true.
    eapply lookup_weaken_None; [exact Hgone |].
    apply mv_timeouts. eapply moves_trans; by apply moves_emit.
Qed.

(** An entry that is gone stays gone. *)
Lemma gone_for_good ins s r :
  answered (run_phase s) → timeouts s !! r = None →
  timeouts (fold_left (step self suite) ins s) !! r = None.
Proof.
  intros Ha Hr.
  destruct (fold_answered self suite ins s Ha) as (_ & _ & _ & _ & Hsub).
  by eapply lookup_weaken_None.
Qed.
End Discard.

(** C3. In a session whose trigger response gives the selected checks
    pairwise distinct run ids:
    - every outcome event ([CHECK_FAILED], [CHECK_SUCCESSFUL]) is followed
      at once by [CHECK_FINISHED] for the same check, every [CHECK_FINISHED]
      follows such an outcome, and for each check id at most one such pair is
      ever emitted;
    - a message whose run id is not in the table emits no event and
      changes neither table, timers, fetches nor counter;
    - the callback of a timer removes the entry of its run id, and so does
      a [run-end] or [error] message; the entry never comes back, so every
      later message for that run id is such a discarded message. *)
Theorem at_most_one_terminal_pair self suite ins1 cs ids ins2 :
  run_phase (exec self suite ins1) = Triggering →
  NoDup (map (run_id_of ids) cs) →
  let s := exec self suite (ins1 ++ TriggerDone (inr (cs, ids)) :: ins2) in
  paired (events s) ∧
  (∀ i, count (outcome_for i) (events s) = count (finished_for i) (events s) ∧
        count (finished_for i) (events s) ≤ 1) ∧
  (∀ topic raw,
     timeouts s !! topic_run_id topic = None →
     let s' := step self suite s (Message topic raw) in
     events s' = events s ∧ timeouts s' = timeouts s ∧ timers s' = timers s ∧
     fetches s' = fetches s ∧
     allChecksFinishedPromise s' = allChecksFinishedPromise s) ∧
  (∀ h r c later,
     timers s !! h = Some (r, c) →
     timeouts (fold_left (step self suite) (TimerFired h :: later) s) !! r
     = None) ∧
  (∀ topic m later,
     topic_subtopic topic = Some "run-end" ∨
     topic_subtopic topic = Some "error" →
     timeouts (fold_left (step self suite) (Message topic (Json m) :: later) s)
       !! topic_run_id topic = None).
Proof.
  intros Hp Hdistinct s.
  pose proof (inv_exec self suite (ins1 ++ TriggerDone (inr (cs, ids)) :: ins2))
    as Hs. fold s in Hs.
  assert (checks s = Resolved (cs, objectFlip ids) ∧ answered (run_phase s))
    as [Hc Ha].
  { subst s. rewrite exec_app. simpl.
    destruct (trigger_answered_step self suite _ cs ids Hp) as [Hc Ha].
    by destruct (fold_answered self suite ins2 _ Ha) as (? & -> & _). }
  destruct (once_exec self suite cs ids Hdistinct ins1 ins2 Hp)
    as [_ Hpaired Hcount _ _ _ _].
  fold s in Hpaired, Hcount.
  split_and!; try done.
  - intros topic raw Hr.
    by apply (unknown_run_id_step self suite s (cs, objectFlip ids) topic raw).
  - intros h r c later Hh. simpl.
    destruct (armed_running self suite s h _ Hs Hh)
      as (Hw & _ & _ & n & known & Hn & _ & Hres & _ & Hlt).
    destruct (step_answered self suite s (TimerFired h) Ha) as (Ha' & _).
    apply gone_for_good; [done |].
    rewrite (timer_fires self suite s h r c n) by (try done; lia).
    destruct (Nat.eqb (S (finishedCheckCount n)) (numChecks n)); simpl_state;
      apply lookup_delete_eq.
  - intros topic m later Hk. simpl.
    destruct (step_answered self suite s (Message topic (Json m)) Ha)
      as (Ha' & _).
    apply gone_for_good; [done |].
    by apply (terminal_disarms self suite s (cs, objectFlip ids)).
Qed.

Lemma at_most_one_terminal_pair_witness :
  let ins1 := [ConnectDone None; SubscribeDone None] in
  let cs := [check_A; check_B] in
  run_phase (exec sample_runner "suite" ins1) = Triggering ∧
  NoDup (map (run_id_of sample_ids) cs) ∧
  let s := exec sample_runner "suite"
             (ins1 ++ TriggerDone (inr (cs, sample_ids)) :: sample_rest) in
  paired (events s) ∧
  (∀ i, count (outcome_for i) (events s) = count (finished_for i) (events s) ∧
        count (finished_for i) (events s) ≤ 1) ∧
  (∀ topic raw,
     timeouts s !! topic_run_id topic = None →
     let s' := step sample_runner "suite" s (Message topic raw) in
     events s' = events s ∧ timeouts s' = timeouts s ∧ timers s' = timers s ∧
     fetches s' = fetches s ∧
     allChecksFinishedPromise s' = allChecksFinishedPromise s) ∧
  (∀ h r c later,
     timers s !! h = Some (r, c) →
     timeouts (fold_left (step sample_runner "suite") (TimerFired h :: later) s)
       !! r = None) ∧
  (∀ topic m later,
     topic_subtopic topic = Some "run-end" ∨
     topic_subtopic topic = Some "error" →
     timeouts (fold_left (step sample_runner "suite")
                 (Message topic (Json m) :: later) s)
       !! topic_run_id topic = None).
Proof.
  split; [reflexivity |].
  split; [apply (bool_decide_unpack _); by vm_compute |].
  apply (at_most_one_terminal_pair sample_runner "suite"
           [ConnectDone None; SubscribeDone None] [check_A; check_B] sample_ids
           sample_rest).
  - reflexivity.
  - apply (bool_decide_unpack _). by vm_compute.
Defined.

(** A late duplicate: after the timeout of [check_B], a [run-end] message
    for its run id changes nothing. *)
Example late_message_is_dropped :
  let s := exec sample_runner "suite" (sample_start ++ [TimerFired 1]) in
  events s = [RUN_STARTED [check_A; check_B];
              CHECK_FAILED (Some check_B) (JStr "Reached timeout");
              CHECK_FINISHED (Some check_B)] ∧
  step sample_runner "suite" s
    (Message (topic_of "r2" "run-end") (Json plain_result)) = s.
Proof. by vm_compute. Qed.

(** Why the run ids must be distinct: when the backend gives two checks the
    same run id, the flipped map keeps one of them, a [run-end] message
    retires the timer of the other, and the check that was reported is
    reported again when its own timer fires. *)
Example shared_run_id_reports_twice :
  events (exec sample_runner "suite"
            [ConnectDone None; SubscribeDone None;
             TriggerDone (inr ([check_B; check_A], [("A", "r1"); ("B", "r1")]));
             Message (topic_of "r1" "run-end") (Json plain_result);
             TimerFired 0])
  = [RUN_STARTED [check_B; check_A];
     CHECK_SUCCESSFUL (Some check_B)
       (JObj [("hasFailures", JBool false);
              ("assets", JObj [("region", JStr "eu-central-1")])]);
     CHECK_FINISHED (Some check_B);
     CHECK_FAILED (Some check_B) (JStr "Reached timeout");
     CHECK_FINISHED (Some check_B);
     RUN_FINISHED].
Proof. by vm_compute. Qed.

(** * Further properties of the runner *)

(** ** A refused connection or subscription *)

Section Refused.
Variable self : CheckRunner.
Variable suite : string.

Lemma refused_fixed e i :
  step self suite (set_phase (Threw e) init) i = set_phase (Threw e) init.
Proof. by destruct i as [[]|[]|[]| ? [] | | |[]]. Qed.

Lemma unsubscribed_step e s i :
  unsubscribed self suite e s → unsubscribed self suite e (step self suite s i).
Proof.
  intros (Hp & Hc & Hti & Hfe & Hli & mid & Htr & Hmid).
  assert (∀ x, unsubscribed self suite e (log (HandlerThrew x) s)) as Hthrow.
  { intros x. split_and!; try done.
    exists (mid ++ [HandlerThrew x]). simpl_state. split.
    - rewrite Htr. unfold opening. by rewrite !app_comm_cons.
    - apply Forall_app. split; [done | by repeat constructor]. }
  assert (unsubscribed self suite e s) as Hs by (split_and!; eauto).
  unfold step.
  assert (unsubscribed self suite e (react self suite i s)) as Hr.
  { destruct i as [[]|[]|[]| topic raw | h | h response |[]];
      unfold react; rewrite ?Hp; try done.
    - rewrite Hli. unfold on_message.
      destruct raw; [done |]. rewrite Hc. done.
    - by rewrite Hti, lookup_empty.
    - unfold on_fetched. by rewrite Hfe, lookup_empty. }
  rewrite resume_run_idle; [done |].
  destruct Hr as (-> & _). done.
Qed.
End Refused.

(** X1. When [SocketClient.connect()] is rejected with [e], [run()] is
    rejected with [e] before anything else is done: no handler is attached,
    nothing is subscribed, requested, emitted or closed, and nothing that
    happens later changes that. *)
Theorem refused_connection_ends_the_run self suite e rest :
  exec self suite (ConnectDone (Some e) :: rest) = set_phase (Threw e) init ∧
  run_phase (exec self suite (ConnectDone (Some e) :: rest)) = Threw e ∧
  trace (exec self suite (ConnectDone (Some e) :: rest)) = [Connect] ∧
  listening (exec self suite (ConnectDone (Some e) :: rest)) = false.
Proof.
  assert (exec self suite (ConnectDone (Some e) :: rest)
          = set_phase (Threw e) init) as ->; [| done].
  unfold exec. cbn [fold_left].
  change (step self suite init (ConnectDone (Some e)))
    with (set_phase (Threw e) init).
  induction rest as [| i rest IH]; [done |].
  cbn [fold_left]. by rewrite refused_fixed.
Qed.

(** X2. When the subscription is rejected with [e], [run()] is rejected
    with [e]: the trigger request is never sent, no event is emitted, not even
    [ERROR], and [socketClient.end()] is never called, the [await] being
    outside the [try] block.  The handler stays attached; a message that still
    arrives makes it throw. *)
Theorem refused_subscription_leaves_the_socket_open self suite e rest :
  let s := exec self suite (ConnectDone None :: SubscribeDone (Some e) :: rest) in
  run_phase s = Threw e ∧
  events s = [] ∧
  listening s = true ∧
  (∃ mid, trace s = Connect :: OnMessage :: Subscribe (results_topic self suite)
                      :: mid ∧ Forall threw mid) ∧
  Forall (λ a, ¬ is_end a ∧ ¬ is_trigger a) (trace s).
Proof.
  cbv zeta.
  assert (unsubscribed self suite e
            (exec self suite (ConnectDone None :: SubscribeDone (Some e) :: rest)))
    as (Hp & _ & _ & _ & Hli & mid & Htr & Hmid).
  { unfold exec. cbn [fold_left].
    set (s0 := step self suite (step self suite init (ConnectDone None))
                 (SubscribeDone (Some e))).
    assert (unsubscribed self suite e s0) as H0.
    { split_and!; try done. by exists []. }
    clearbody s0. revert s0 H0.
    induction rest as [| i rest IH]; intros s0 H0; [done |].
    cbn [fold_left]. apply IH. by apply unsubscribed_step. }
  split_and!; try done.
  - unfold events. rewrite Htr. unfold opening.
    change (events_of (Connect :: OnMessage
                         :: Subscribe (results_topic self suite) :: mid))
      with (events_of mid).
    by apply events_of_threw.
  - by exists mid.
  - rewrite Htr. unfold opening.
    repeat (constructor; [by split; intros [] |]).
    eapply Forall_impl; [done |]. intros a Ha.
    destruct a; try done. by split; intros [].
Qed.

(** ** The disconnect and the grammar of the event stream *)

Section Shape.
Variable self : CheckRunner.
Variable suite : string.

Lemma threw_not_end l : Forall threw l → Forall (λ a, ¬ is_end a) l.
Proof.
  intros H. eapply Forall_impl; [done |]. intros a Ha Hg. by destruct a.
Qed.

Lemma local_not_end l : Forall local l → Forall (λ a, ¬ is_end a) l.
Proof.
  intros H. eapply Forall_impl; [done |]. intros a Ha Hg. by destruct a.
Qed.

Lemma arming_not_end cs ids h :
  Forall (λ a, ¬ is_end a) (arming self cs ids h).
Proof.
  revert h. induction cs as [| c cs IH]; intros h; [done |].
  constructor; [by intros [] | apply IH].
Qed.

Lemma split_at_end (A B pre post : list action) :
  Forall (λ a, ¬ is_end a) A → Forall (λ a, ¬ is_end a) B →
  A ++ End :: B = pre ++ End :: post → pre = A ∧ post = B.
Proof.
  intros HA HB. revert pre.
  induction HA as [| a A Ha _ IH]; intros pre E.
  - destruct pre as [| x pre]; simpl in E.
    + by injection E as ->.
    + injection E as <- ->.
      apply Forall_app in HB as [_ HB]. inversion HB as [| ? ? Hx _].
      by destruct Hx.
  - destruct pre as [| x pre]; simpl in E.
    + injection E as -> _. by destruct Ha.
    + injection E as -> E. destruct (IH _ E) as (-> & ->). done.
Qed.

Lemma no_end_no_split (l pre post : list action) :
  Forall (λ a, ¬ is_end a) l → l ≠ pre ++ End :: post.
Proof.
  intros H E. rewrite E in H. apply Forall_app in H as [_ H].
  inversion H as [| ? ? Hx _]. by destruct Hx.
Qed.

Lemma triggered_not_end mid mid2 :
  Forall threw mid → Forall threw mid2 →
  Forall (λ a, ¬ is_end a) (triggered self suite mid mid2).
Proof.
  intros H1 H2. unfold triggered, opening.
  repeat (constructor; [by intros [] |]).
  apply Forall_app. split; [by apply threw_not_end |].
  repeat (constructor; [by intros [] |]). by apply threw_not_end.
Qed.

Lemma started_not_end cs ids mid mid2 body :
  Forall threw mid → Forall threw mid2 → Forall local body →
  Forall (λ a, ¬ is_end a) (started self suite cs ids mid mid2 body).
Proof.
  intros H1 H2 Hb. unfold started.
  apply Forall_app. split; [by apply triggered_not_end |].
  apply Forall_app. split; [apply arming_not_end |].
  constructor; [by intros [] | by apply local_not_end].
Qed.

Lemma local_check_events body :
  Forall local body → Forall is_check_event (events_of body).
Proof.
  induction 1 as [| a l Ha _ IH]; [done |].
  destruct a as [| | | | | | | e | | | |]; try done.
  destruct e; try done; by constructor.
Qed.
End Shape.

(** X3. [socketClient.end()] is called at most once in a run, right
    after [RUN_FINISHED] or [ERROR] is emitted and never otherwise; nothing
    but failing message handlers follows it.  A run that has reached the
    [finally] block has called it. *)
Theorem disconnect_once_after_the_last_event self suite ins :
  let s := exec self suite ins in
  (run_phase s = Ending ∨ run_phase s = Returned →
   ∃ pre post, trace s = pre ++ End :: post) ∧
  (∀ pre post,
     trace s = pre ++ End :: post →
     closing (run_phase s) ∧
     (∃ pre', pre = pre' ++ [Emit RUN_FINISHED] ∨
              ∃ e, pre = pre' ++ [Emit (ERROR e)]) ∧
     Forall (λ a, ¬ is_end a) pre ∧ Forall threw post).
Proof.
  cbv zeta.
  destruct (inv_exec self suite ins)
    as [ | e | s mid Hp _ _ _ _ _ Htr Hm
       | s mid mid2 Hp _ _ _ _ Htr Hm Hm2
       | s e mid mid2 mid3 Hp _ _ _ _ _ Htr Hm Hm2 Hm3
       | s cs ids c mid mid2 body Hp _ _ _ _ _ _ _ Htr Hm Hm2 Hb
       | s cs ids c mid mid2 body mid3 Hp _ _ _ _ _ _ _ Htr Hm Hm2 Hb Hm3 _ _ ].
  - split; [by intros [|] |]. intros pre post E.
    by destruct pre as [| ? [| ? ?]].
  - split; [by intros [|] |]. intros pre post E.
    by destruct pre as [| ? [| ? ?]].
  - split.
    { intros [E | E]; rewrite E in Hp; by destruct Hp as [| []]. }
    intros pre post E. exfalso. revert E. rewrite Htr.
    apply no_end_no_split. unfold opening.
    repeat (constructor; [by intros [] |]). by apply threw_not_end.
  - split; [intros [E | E]; by rewrite E in Hp |].
    intros pre post E. exfalso. revert E. rewrite Htr.
    apply no_end_no_split. by apply triggered_not_end.
  - assert (Forall (λ a, ¬ is_end a)
              (triggered self suite mid mid2 ++ [Emit (ERROR e)])) as HA.
    { apply Forall_app. split; [by apply triggered_not_end |].
      constructor; [by intros [] | done]. }
    assert (trace s = (triggered self suite mid mid2 ++ [Emit (ERROR e)])
                      ++ End :: mid3) as Htr'
      by by rewrite Htr, <- app_assoc.
    split; [by eauto |].
    intros pre post E. rewrite Htr' in E.
    destruct (split_at_end _ _ _ _ HA (threw_not_end _ Hm3) E) as [-> ->].
    split_and!; [done | | done | done].
    exists (triggered self suite mid mid2). right. by exists e.
  - split; [intros [E | E]; by rewrite E in Hp |].
    intros pre post E. exfalso. revert E. rewrite Htr.
    apply no_end_no_split. by apply started_not_end.
  - assert (Forall (λ a, ¬ is_end a)
              (started self suite cs ids mid mid2 body ++ [Emit RUN_FINISHED]))
      as HA.
    { apply Forall_app. split; [by apply started_not_end |].
      constructor; [by intros [] | done]. }
    assert (trace s = (started self suite cs ids mid mid2 body
                       ++ [Emit RUN_FINISHED]) ++ End :: mid3) as Htr'
      by by rewrite Htr, <- app_assoc.
    split; [by eauto |].
    intros pre post E. rewrite Htr' in E.
    destruct (split_at_end _ _ _ _ HA (threw_not_end _ Hm3) E) as [-> ->].
    split_and!; [done | | done | done].
    exists (started self suite cs ids mid mid2 body). by left.
Qed.

(** X4. The events of a run, whatever happens: none, or [ERROR] alone, or
    [RUN_STARTED] once and first, then events of single checks only, then
    possibly [RUN_FINISHED] as the last one.  [CHECK_REGISTERED] is never
    emitted, and [ERROR] never together with another event. *)
Theorem event_stream_grammar self suite ins :
  let ev := events (exec self suite ins) in
  ev = [] ∨
  (∃ e, ev = [ERROR e]) ∨
  (∃ cs body, Forall is_check_event body ∧
              (ev = RUN_STARTED cs :: body ∨
               ev = RUN_STARTED cs :: body ++ [RUN_FINISHED])).
Proof.
  cbv zeta. unfold events.
  destruct (inv_exec self suite ins)
    as [ | e | s mid Hp _ _ _ _ _ Htr Hm
       | s mid mid2 Hp _ _ _ _ Htr Hm Hm2
       | s e mid mid2 mid3 Hp _ _ _ _ _ Htr Hm Hm2 Hm3
       | s cs ids c mid mid2 body Hp _ _ _ _ _ _ _ Htr Hm Hm2 Hb
       | s cs ids c mid mid2 body mid3 Hp _ _ _ _ _ _ _ Htr Hm Hm2 Hb Hm3 _ _ ].
  - by left.
  - by left.
  - left. rewrite Htr. unfold opening.
    change (events_of (Connect :: OnMessage
                         :: Subscribe (results_topic self suite) :: mid))
      with (events_of mid).
    by apply events_of_threw.
  - left. rewrite Htr. by apply events_of_triggered.
  - right. left. exists e.
    rewrite Htr, events_of_app, (events_of_triggered self suite) by done.
    change (events_of (Emit (ERROR e) :: End :: mid3))
      with (ERROR e :: events_of mid3).
    by rewrite (events_of_threw mid3).
  - right. right. exists cs, (events_of body).
    split; [by apply local_check_events |]. left.
    rewrite Htr. by apply events_of_started.
  - right. right. exists cs, (events_of body).
    split; [by apply local_check_events |]. right.
    rewrite Htr, events_of_app, (events_of_started self suite) by done.
    change (events_of (Emit RUN_FINISHED :: End :: mid3))
      with (RUN_FINISHED :: events_of mid3).
    by rewrite (events_of_threw mid3).
Qed.

(** ** Messages of kind [error] and malformed [run-end] messages *)

Section Kinds.
Variable self : CheckRunner.
Variable suite : string.

Lemma armed_counts s r h :
  inv self suite s → timeouts s !! r = Some h →
  run_phase s = Waiting ∧ live 0 s ∧
  ∃ n known, allChecksFinishedPromise s = Some n ∧ checks s = Resolved known ∧
             resolved n = false ∧ numChecks n ≠ 0.
Proof.
  intros Hs Hr.
  destruct (entry_running self suite s _ _ Hs Hr)
    as (Hp & Hl & n & known & Hn & Hc & Hres).
  split_and!; [done | done |]. exists n, known. split_and!; try done.
  destruct Hl as [Ht _ (n' & Hn' & Hle & _)].
  rewrite Hn in Hn'. injection Hn' as <-.
  destruct (Ht _ _ Hr) as [c Hc'].
  assert (size (timers s) ≠ 0); [| lia].
  apply map_size_non_empty_iff. intros E. by rewrite E, lookup_empty in Hc'.
Qed.

Lemma fail_then_resume c message s n :
  run_phase s = Waiting → allChecksFinishedPromise s = Some n →
  resolved n = false → numChecks n ≠ 0 →
  trace (resume_run (emit (CHECK_FINISHED c) (emit (CHECK_FAILED c message) s)))
  = trace s ++ Emit (CHECK_FAILED c message) :: Emit (CHECK_FINISHED c)
            :: closing_actions s ∧
  fetches (resume_run (emit (CHECK_FINISHED c) (emit (CHECK_FAILED c message) s)))
  = fetches s ∧
  timeouts (resume_run (emit (CHECK_FINISHED c) (emit (CHECK_FAILED c message) s)))
  = timeouts s ∧
  timers (resume_run (emit (CHECK_FINISHED c) (emit (CHECK_FAILED c message) s)))
  = timers s.
Proof.
  intros Hp Hn Hres HN. unfold closing_actions.
  rewrite (emit_plain (CHECK_FAILED _ _)) by done.
  unfold emit. simpl_state. rewrite Hn. cbn [fmap option_fmap option_map].
  unfold count_finished. destruct (Nat.eqb_spec (numChecks n) 0); [done |].
  rewrite Hres. cbn [orb].
  unfold resume_run. simpl_state. rewrite Hp. cbn [resolved].
  destruct (Nat.eqb (S (finishedCheckCount n)) (numChecks n)).
  - rewrite emit_plain by done. simpl_state. by rewrite <- !app_assoc.
  - simpl_state. by rewrite <- !app_assoc.
Qed.

Lemma error_step s known topic m h :
  inv self suite s → checks s = Resolved known →
  timeouts s !! topic_run_id topic = Some h →
  topic_subtopic topic = Some "error" →
  let check := correlate known (topic_run_id topic) in
  let s1 := step self suite s (Message topic (Json m)) in
  trace s1 = trace s ++ ClearTimeout (Some h) :: Emit (CHECK_FAILED check m)
             :: Emit (CHECK_FINISHED check) :: closing_actions s ∧
  timeouts s1 = delete (topic_run_id topic) (timeouts s) ∧
  timers s1 = delete h (timers s) ∧
  fetches s1 = fetches s.
Proof.
  intros Hs Hc Hr Hk check s1. subst s1.
  rewrite (message_step self suite s known) by done.
  destruct (armed_counts s _ _ Hs Hr)
    as (Hp & Hl & n & _ & Hn & _ & Hres & HN).
  unfold handler_body. cbn [p_topic p_message].
  rewrite Hr, Hk.
  replace (is_subtopic (Some "error") "run-start") with false by done.
  replace (is_subtopic (Some "error") "run-end") with false by done.
  rewrite is_subtopic_true, (disableTimeout_armed _ _ _ Hr).
  fold check.
  match goal with |- context [emit (CHECK_FAILED check m) ?x] =>
    destruct (fail_then_resume check m x n) as (-> & -> & -> & ->);
      try done
  end.
  simpl_state. unfold closing_actions. simpl_state.
  by rewrite <- app_assoc.
Qed.

Lemma broken_run_end_step s known topic m h e :
  inv self suite s → checks s = Resolved known →
  timeouts s !! topic_run_id topic = Some h →
  topic_subtopic topic = Some "run-end" →
  run_end_locals m = inl e →
  step self suite s (Message topic (Json m))
  = log (HandlerThrew e) (disableTimeout (topic_run_id topic) s).
Proof.
  intros Hs Hc Hr Hk Hm.
  rewrite (message_step self suite s known) by done.
  destruct (armed_counts s _ _ Hs Hr)
    as (Hp & Hl & n & _ & Hn & _ & Hres & HN).
  unfold handler_body. cbn [p_topic p_message].
  rewrite Hr, Hk.
  replace (is_subtopic (Some "run-end") "run-start") with false by done.
  rewrite is_subtopic_true, Hm.
  apply (resume_run_waiting _ n); [| | done].
  - rewrite (disableTimeout_armed _ _ _ Hr). by simpl_state.
  - rewrite (disableTimeout_armed _ _ _ Hr). by simpl_state.
Qed.
End Kinds.

(** ** A check that is lost *)

Section Lost.
Variable self : CheckRunner.
Variable suite : string.

Lemma live_handler_body_any k known m s :
  live k s → live k (handler_body self known m s).
Proof.
  intros Hl. unfold handler_body.
  destruct (timeouts s !! topic_run_id (p_topic m)) as [h |] eqn:Hr; [| done].
  destruct (is_subtopic (topic_subtopic (p_topic m)) "run-start");
    [by apply live_emit |].
  pose proof (live_disableTimeout k _ _ _ Hl Hr) as Hd.
  destruct (is_subtopic (topic_subtopic (p_topic m)) "run-end").
  { destruct (run_end_locals (p_message m))
      as [e | [[[result region] logPath] path]].
    - apply live_weaken. by apply live_log.
    - destruct (wanted self logPath result).
      + apply live_suspend. by apply live_log.
      + by apply live_data_then_finish. }
  destruct (is_subtopic (topic_subtopic (p_topic m)) "error"); [| done].
  apply live_emit_finished. by apply live_emit.
Qed.

Lemma live_on_fetched_any k h response s :
  live k s → live k (on_fetched self h response s).
Proof.
  intros Hl. unfold on_fetched.
  destruct (fetches s !! h) as [f |] eqn:Hh; [| done].
  pose proof (live_resume k _ _ _ Hl Hh) as Hr.
  destruct response as [e | v].
  - apply live_weaken. by apply live_log.
  - destruct (awaited f).
    + by apply live_data_then_finish.
    + by apply live_finish.
Qed.

Lemma live_on_timeout_any k h r c s :
  live k s → timers s !! h = Some (r, c) →
  live k (on_timeout r c (set_timers (delete h (timers s)) s)).
Proof.
  intros Hl Hh. unfold on_timeout.
  apply live_emit_finished. apply live_emit; [done |].
  by apply (live_retire k r h c s).
Qed.

(** With a check lost the completion signal cannot be resolved. *)
Lemma stuck_unresolved s :
  stuck s →
  ∃ n, allChecksFinishedPromise s = Some n ∧ resolved n = false ∧
       finished s < numChecks n.
Proof.
  intros (_ & [_ _ (n & Hn & Hle & _ & Hres)] & _).
  exists n. split_and!; [done | | lia].
  rewrite Hres. apply Nat.eqb_neq. lia.
Qed.

Lemma stuck_step s i : stuck s → stuck (step self suite s i).
Proof.
  intros Hst. pose proof Hst as (Hp & Hl & Hli & known & Hc).
  assert (stuck (react self suite i s)) as Hr.
  { assert (∀ s', live 1 s' → moves s s' → stuck s') as Hmv.
    { intros s' Hl' [Hp' Hc' Hli' _ _ _ _ _].
      split_and!; [congruence | done | congruence |].
      exists known. congruence. }
    destruct i as [[]|[]|[]| topic raw | h | h response |[]];
      unfold react; rewrite ?Hp; try done.
    - rewrite Hli. unfold on_message. destruct raw as [| m].
      + apply Hmv; [by apply live_log | by apply moves_log].
      + rewrite Hc.
        apply Hmv; [by apply live_handler_body_any | apply moves_handler_body].
    - destruct (timers s !! h) as [[r c] |] eqn:Hh; [| done].
      apply Hmv; [by apply (live_on_timeout_any 1 h) | apply moves_on_timeout].
    - apply Hmv; [by apply live_on_fetched_any | apply moves_on_fetched]. }
  unfold step.
  destruct (stuck_unresolved _ Hr) as (n & Hn & Hres & _).
  pose proof Hr as (Hp' & _).
  by rewrite (resume_run_waiting _ n).
Qed.

Lemma stuck_fold ins s :
  stuck s → stuck (fold_left (step self suite) ins s).
Proof.
  revert s. induction ins as [| i ins IH]; intros s Hs; [done |].
  cbn [fold_left]. apply IH. by apply stuck_step.
Qed.

(** A run that is stuck at the end of an execution has emitted neither
    [RUN_FINISHED] nor [ERROR] and has not closed the connection. *)
Lemma stuck_waits ins :
  stuck (exec self suite ins) →
  run_phase (exec self suite ins) = Waiting ∧
  count is_run_finished (events (exec self suite ins)) = 0 ∧
  Forall (λ a, ¬ is_end a) (trace (exec self suite ins)).
Proof.
  intros (Hp & _). split; [done |].
  destruct (inv_exec self suite ins)
    as [ | e | s mid Hp' _ _ _ _ _ Htr Hm
       | s mid mid2 Hp' _ _ _ _ Htr Hm Hm2
       | s e mid mid2 mid3 Hp' _ _ _ _ _ Htr Hm Hm2 Hm3
       | s cs ids c mid mid2 body Hp' _ _ _ _ _ _ _ Htr Hm Hm2 Hb
       | s cs ids c mid mid2 body mid3 Hp' _ _ _ _ _ _ _ Htr Hm Hm2 Hb Hm3 _ _ ];
    try done.
  - rewrite Hp in Hp'. by destruct Hp' as [| []].
  - by rewrite Hp in Hp'.
  - rewrite Hp in Hp'. by destruct Hp'.
  - split.
    + unfold events. rewrite Htr, (events_of_started self suite) by done.
      apply count_none. constructor; [done |].
      by apply local_events_not_run_finished.
    + rewrite Htr. by apply started_not_end.
  - rewrite Hp in Hp'. by destruct Hp'.
Qed.
End Lost.

Lemma run_end_locals_fails m e : run_end_locals m = inl e → e = TypeError.
Proof.
  unfold run_end_locals, get_prop.
  destruct m as [| | | | | props]; cbn; try by intros [= <-].
  destruct (obj_get "result" props) as [[| | | | | rprops] |]; cbn;
    try by intros [= <-].
  destruct (obj_get "assets" rprops) as [[| | | | | aprops] |]; cbn;
    try by intros [= <-].
Qed.

Lemma run_end_locals_succeeds m :
  (∃ x, run_end_locals m = inr x) ↔ has_assets m.
Proof.
  unfold run_end_locals, get_prop, has_assets.
  destruct m as [| | | | | props]; cbn; try by (split; [intros [? [=]] |]).
  destruct (obj_get "result" props) as [[| | | | | rprops] |]; cbn;
    try by (split; [intros [? [=]] |]).
  destruct (obj_get "assets" rprops) as [[| | | | | aprops] |]; cbn;
    try (by (split; [intros [? [=]] |])); by (split; [| eauto]).
Qed.

(** X5. A message of kind [error] for an armed run id clears the timer
    of the run id and reports the check as failed, the whole parsed payload
    being the failure message, then as finished; no asset is fetched.  If this
    was the last check the run ends. *)
Theorem error_message_fails_the_check self suite ins topic m h :
  let s := exec self suite ins in
  timeouts s !! topic_run_id topic = Some h →
  topic_subtopic topic = Some "error" →
  ∃ known,
    checks s = Resolved known ∧
    let check := correlate known (topic_run_id topic) in
    let s1 := step self suite s (Message topic (Json m)) in
    trace s1 = trace s ++ ClearTimeout (Some h) :: Emit (CHECK_FAILED check m)
               :: Emit (CHECK_FINISHED check) :: closing_actions s ∧
    timeouts s1 = delete (topic_run_id topic) (timeouts s) ∧
    timers s1 = delete h (timers s) ∧
    fetches s1 = fetches s.
Proof.
  intros s Hr Hk.
  destruct (entry_running self suite s _ _ (inv_exec self suite ins) Hr)
    as (_ & _ & _ & known & _ & Hc & _).
  exists known. split; [done |].
  by apply error_step; [apply inv_exec | ..].
Qed.

Lemma error_message_fails_the_check_witness :
  let s := exec sample_runner "suite" sample_start in
  let topic := topic_of "r2" "error" in
  let m := JObj [("reason", JStr "runner crashed")] in
  timeouts s !! topic_run_id topic = Some 1 ∧
  topic_subtopic topic = Some "error" ∧
  ∃ known,
    checks s = Resolved known ∧
    let check := correlate known (topic_run_id topic) in
    let s1 := step sample_runner "suite" s (Message topic (Json m)) in
    trace s1 = trace s ++ ClearTimeout (Some 1) :: Emit (CHECK_FAILED check m)
               :: Emit (CHECK_FINISHED check) :: closing_actions s ∧
    timeouts s1 = delete (topic_run_id topic) (timeouts s) ∧
    timers s1 = delete 1 (timers s) ∧
    fetches s1 = fetches s.
Proof.
  split; [reflexivity |]. split; [reflexivity |].
  apply (error_message_fails_the_check sample_runner "suite" sample_start
           (topic_of "r2" "error")
           (JObj [("reason", JStr "runner crashed")]) 1);
    reflexivity.
Defined.

(** X6. A [run-end] message for an armed run id whose payload has no
    [result.assets] makes the handler throw a [TypeError], after the timer was
    cleared and before anything is emitted.  The check is lost: whatever
    happens afterwards, [run()] goes on waiting, [RUN_FINISHED] is never
    emitted and the connection is never closed. *)
Theorem broken_run_end_loses_the_check self suite ins topic m h rest :
  let s := exec self suite ins in
  timeouts s !! topic_run_id topic = Some h →
  topic_subtopic topic = Some "run-end" →
  ¬ has_assets m →
  let s1 := exec self suite (ins ++ [Message topic (Json m)]) in
  let s' := exec self suite (ins ++ Message topic (Json m) :: rest) in
  trace s1 = trace s ++ [ClearTimeout (Some h); HandlerThrew TypeError] ∧
  timeouts s1 = delete (topic_run_id topic) (timeouts s) ∧
  timers s1 = delete h (timers s) ∧
  run_phase s' = Waiting ∧
  count is_run_finished (events s') = 0 ∧
  Forall (λ a, ¬ is_end a) (trace s').
Proof.
  intros s Hr Hk Hm s1 s'.
  pose proof (inv_exec self suite ins) as Hs. fold s in Hs.
  destruct (armed_counts self suite s _ _ Hs Hr)
    as (Hp & Hl & n & known & Hn & Hc & Hres & HN).
  destruct (resolved_idle self suite s known Hs Hc) as [_ Hli].
  destruct (run_end_locals m) as [e | x] eqn:Em;
    [| exfalso; apply Hm, run_end_locals_succeeds; eauto].
  pose proof (run_end_locals_fails _ _ Em) as ->.
  pose proof (broken_run_end_step self suite s known topic m h _ Hs Hc Hr Hk Em)
    as Hstep.
  assert (s1 = log (HandlerThrew TypeError)
                 (disableTimeout (topic_run_id topic) s)) as Hs1.
  { subst s1. by rewrite exec_snoc. }
  assert (stuck s1) as Hst.
  { rewrite Hs1. destruct (moves_disableTimeout (topic_run_id topic) s)
      as [Hp' Hc' Hli' _ _ _ _ _].
    split_and!.
    - simpl_state. congruence.
    - apply live_log; [done |]. by apply (live_disableTimeout 0 _ h).
    - simpl_state. congruence.
    - exists known. simpl_state. congruence. }
  split_and!.
  - rewrite Hs1, (disableTimeout_armed _ _ _ Hr). simpl_state.
    by rewrite <- app_assoc.
  - rewrite Hs1, (disableTimeout_armed _ _ _ Hr). by simpl_state.
  - rewrite Hs1, (disableTimeout_armed _ _ _ Hr). by simpl_state.
  - apply stuck_waits. subst s'.
    change (Message topic (Json m) :: rest)
      with ([Message topic (Json m)] ++ rest).
    rewrite app_assoc, exec_app. by apply stuck_fold.
  - apply stuck_waits. subst s'.
    change (Message topic (Json m) :: rest)
      with ([Message topic (Json m)] ++ rest).
    rewrite app_assoc, exec_app. by apply stuck_fold.
  - apply stuck_waits. subst s'.
    change (Message topic (Json m) :: rest)
      with ([Message topic (Json m)] ++ rest).
    rewrite app_assoc, exec_app. by apply stuck_fold.
Qed.

Lemma broken_run_end_loses_the_check_witness :
  let s := exec sample_runner "suite" sample_start in
  let topic := topic_of "r1" "run-end" in
  let m := JObj [("result", JObj [("hasFailures", JBool false)])] in
  let rest := [TimerFired 1; Message topic (Json plain_result)] in
  timeouts s !! topic_run_id topic = Some 0 ∧
  topic_subtopic topic = Some "run-end" ∧
  ¬ has_assets m ∧
  let s1 := exec sample_runner "suite" (sample_start ++ [Message topic (Json m)]) in
  let s' := exec sample_runner "suite"
              (sample_start ++ Message topic (Json m) :: rest) in
  trace s1 = trace s ++ [ClearTimeout (Some 0); HandlerThrew TypeError] ∧
  timeouts s1 = delete (topic_run_id topic) (timeouts s) ∧
  timers s1 = delete 0 (timers s) ∧
  run_phase s' = Waiting ∧
  count is_run_finished (events s') = 0 ∧
  Forall (λ a, ¬ is_end a) (trace s').
Proof.
  split; [reflexivity |]. split; [reflexivity |]. split; [simpl; tauto |].
  apply (broken_run_end_loses_the_check sample_runner "suite" sample_start
           (topic_of "r1" "run-end")
           (JObj [("result", JObj [("hasFailures", JBool false)])]) 0
           [TimerFired 1; Message (topic_of "r1" "run-end") (Json plain_result)]);
    [reflexivity | reflexivity | simpl; tauto].
Defined.

(** X7. When an asset fetch is rejected, the handler that waits for it
    throws and its check is lost, the timer having been cleared before the
    fetch: whatever happens afterwards, [run()] goes on waiting,
    [RUN_FINISHED] is never emitted and the connection is never closed. *)
Theorem rejected_fetch_hangs_the_run self suite ins id k e rest :
  let s := exec self suite ins in
  fetches s !! id = Some k →
  let s' := exec self suite (ins ++ FetchDone id (inl e) :: rest) in
  trace (exec self suite (ins ++ [FetchDone id (inl e)]))
  = trace s ++ [HandlerThrew e] ∧
  run_phase s' = Waiting ∧
  count is_run_finished (events s') = 0 ∧
  Forall (λ a, ¬ is_end a) (trace s').
Proof.
  intros s Hk s'.
  pose proof (inv_exec self suite ins) as Hs. fold s in Hs.
  destruct (busy_running self suite s _ _ Hs Hk)
    as (Hp & Hl & n & Hn & Hres & HN).
  assert (∃ known, checks s = Resolved known ∧ listening s = true)
    as (known & Hc & Hli).
  { destruct Hs as [ | e0 | s0 mid Hp' _ _ _ _ _ _ _
       | s0 mid mid2 Hp' _ _ _ _ _ _ _
       | s0 e0 mid mid2 mid3 Hp' _ _ _ _ _ _ _ _ _
       | s0 cs ids c mid mid2 body Hp' _ Hc Hli _ _ _ _ _ _ _ _
       | s0 cs ids c mid mid2 body mid3 Hp' _ _ _ _ _ _ _ _ _ _ _ _ _ _ ];
      try done;
      first [ by eauto
            | rewrite Hp in Hp';
              first [done | by destruct Hp' | by destruct Hp' as [| []]] ]. }
  assert (step self suite s (FetchDone id (inl e))
          = log (HandlerThrew e)
              (set_fetches (delete id (fetches s)) (handlers s) s)) as Hstep.
  { unfold step.
    assert (react self suite (FetchDone id (inl e)) s
            = on_fetched self id (inl e) s) as ->
      by by destruct (run_phase s).
    unfold on_fetched. rewrite Hk.
    by apply (resume_run_waiting _ n). }
  assert (stuck (step self suite s (FetchDone id (inl e)))) as Hst.
  { rewrite Hstep. split_and!; [done | | done | by exists known].
    apply live_log; [done |]. by apply (live_resume 0 _ k). }
  split_and!.
  - rewrite exec_snoc. fold s. by rewrite Hstep.
  - apply stuck_waits. subst s'.
    change (FetchDone id (inl e) :: rest)
      with ([FetchDone id (inl e)] ++ rest).
    rewrite app_assoc, exec_app, exec_snoc. by apply stuck_fold.
  - apply stuck_waits. subst s'.
    change (FetchDone id (inl e) :: rest)
      with ([FetchDone id (inl e)] ++ rest).
    rewrite app_assoc, exec_app, exec_snoc. by apply stuck_fold.
  - apply stuck_waits. subst s'.
    change (FetchDone id (inl e) :: rest)
      with ([FetchDone id (inl e)] ++ rest).
    rewrite app_assoc, exec_app, exec_snoc. by apply stuck_fold.
Qed.

Lemma rejected_fetch_hangs_the_run_witness :
  let ins := sample_start
             ++ [Message (topic_of "r1" "run-end") (Json failing_result_payload)] in
  let s := exec sample_runner "suite" ins in
  let rest := [TimerFired 1] in
  fetches s !! 0
  = Some (Fetch Logs (Some check_A) failing_result (Some (JStr "eu-central-1"))
            (Some (JStr "data/1"))) ∧
  let s' := exec sample_runner "suite"
              (ins ++ FetchDone 0 (inl (Failure "503")) :: rest) in
  trace (exec sample_runner "suite" (ins ++ [FetchDone 0 (inl (Failure "503"))]))
  = trace s ++ [HandlerThrew (Failure "503")] ∧
  run_phase s' = Waiting ∧
  count is_run_finished (events s') = 0 ∧
  Forall (λ a, ¬ is_end a) (trace s').
Proof.
  split; [reflexivity |].
  apply (rejected_fetch_hangs_the_run sample_runner "suite"
           (sample_start
            ++ [Message (topic_of "r1" "run-end") (Json failing_result_payload)])
           0 (Fetch Logs (Some check_A) failing_result
                (Some (JStr "eu-central-1")) (Some (JStr "data/1")))
           (Failure "503") [TimerFired 1]).
  reflexivity.
Defined.

(** ** Messages that overtake the trigger response *)

Section Early.
Variable self : CheckRunner.
Variable suite : string.

Lemma arm_parked cs ids h p s :
  arm self cs ids h (set_parked p s) = set_parked p (arm self cs ids h s).
Proof.
  revert h s. induction cs as [| c cs IH]; intros h s; [done |].
  cbn [arm]. rewrite <- IH. done.
Qed.

Lemma schedule_parked response p s :
  scheduleAllChecks_resume self response (set_parked p s)
  = set_parked p (scheduleAllChecks_resume self response s).
Proof.
  destruct response as [cs ids]. unfold scheduleAllChecks_resume.
  rewrite !(emit_plain (RUN_STARTED cs)) by done.
  change (set_counter (Some (allChecksFinished (length cs))) (set_parked p s))
    with (set_parked p (set_counter (Some (allChecksFinished (length cs))) s)).
  by rewrite arm_parked.
Qed.

(** The state of a run that waits for the trigger response. *)
Lemma triggering_state s :
  inv self suite s → run_phase s = Triggering →
  checks s = Pending ∧ listening s = true ∧ quiet s ∧ events s = [].
Proof.
  intros Hs Hp. destruct (triggering_quiet self suite s Hs Hp) as [Hq Hev].
  split_and!; try done;
    destruct Hs as [ | e0 | s' mid [Hp' | [e Hp']] _ _ _ _ _ _ _
         | s' mid mid2 _ _ Hc Hli _ _ _ _
         | s' e0 mid mid2 mid3 Hp' _ _ _ _ _ _ _ _ _
         | s' cs' ids' c mid mid2 body Hp' _ _ _ _ _ _ _ _ _ _ _
         | s' cs' ids' c mid mid2 body mid3 Hp' _ _ _ _ _ _ _ _ _ _ _ _ _ _ ];
      try done; by rewrite Hp in Hp'.
Qed.

Lemma parked_step s topic m :
  inv self suite s → run_phase s = Triggering →
  step self suite s (Message topic (Json m))
  = set_parked (parked_handlers s ++ [Parked topic m]) s.
Proof.
  intros Hs Hp. destruct (triggering_state s Hs Hp) as (Hc & Hli & _).
  unfold step.
  assert (react self suite (Message topic (Json m)) s
          = if listening s then on_message self topic (Json m) s else s) as ->
    by by destruct (run_phase s).
  rewrite Hli. unfold on_message. rewrite Hc.
  apply resume_run_idle. simpl_state. by rewrite Hp.
Qed.

Lemma early_message_response s topic m response :
  inv self suite s → run_phase s = Triggering →
  step self suite (step self suite s (Message topic (Json m)))
       (TriggerDone (inr response))
  = step self suite (step self suite s (TriggerDone (inr response)))
         (Message topic (Json m)).
Proof.
  intros Hs Hp. destruct (triggering_state s Hs Hp) as (Hc & Hli & Hq & Hev).
  rewrite (parked_step s topic m Hs Hp).
  destruct response as [cs ids].
  pose proof (inv_step self suite s (TriggerDone (inr (cs, ids))) Hs) as Hs1.
  destruct (trigger_answered_step self suite s cs ids Hp) as [Hc1 _].
  rewrite (message_step self suite _ _ topic m Hs1 Hc1).
  unfold step. unfold react. cbn [run_phase set_parked]. rewrite Hp.
  cbn [fst snd].
  rewrite schedule_parked.
  set (X := scheduleAllChecks_resume self (cs, ids) s).
  change (parked_handlers (set_phase Waiting (set_parked
            (parked_handlers s ++ [Parked topic m]) X)))
    with (parked_handlers s ++ [Parked topic m]).
  change (set_parked [] (set_phase Waiting (set_parked
            (parked_handlers s ++ [Parked topic m]) X)))
    with (set_parked [] (set_phase Waiting X)).
  assert (parked_handlers (set_phase Waiting X) = parked_handlers s) as ->.
  { subst X. unfold scheduleAllChecks_resume. rewrite emit_plain by done.
    simpl_state.
    by destruct (arm_frame self cs ids 0
                   (set_counter (Some (allChecksFinished (length cs))) s))
      as (_ & _ & _ & _ & -> & _). }
  rewrite fold_left_app. cbn [fold_left].
  set (A := fold_left _ (parked_handlers s) _).
  destruct (scheduled self cs ids s Hq Hev)
    as (Hp0 & Hl0 & Hc0 & _ & _ & Hn0 & _).
  fold X in Hp0, Hl0, Hc0, Hn0.
  destruct (fold_handler_body self (cs, objectFlip ids) (parked_handlers s)
              (set_parked [] (set_phase Waiting X)) Hl0)
    as [HlA [HpA HcA _ _ HnA _ _ _]].
  fold A in HlA, HpA, HcA, HnA.
  rewrite Hn0 in HnA. rewrite Hp0 in HpA.
  destruct (allChecksFinishedPromise A) as [n |] eqn:HA; [| done].
  destruct (resolved n) eqn:Hres.
  - (* the run is over before the message is looked at *)
    destruct (live_quiet A n HlA HA Hres) as ((Hto & _) & _).
    assert (∀ B, timeouts B = timeouts A →
                 handler_body self (cs, objectFlip ids) (Parked topic m) B = B)
      as Hno.
    { intros B HB. unfold handler_body. by rewrite HB, Hto, lookup_empty. }
    rewrite (Hno A) by done.
    rewrite Hno; [| by destruct (resume_run_keeps A) as (_ & _ & _ & -> & _)].
    assert (resume_run A = set_phase Ending (log End (emit RUN_FINISHED A)))
      as E by (unfold resume_run; by rewrite HpA, HA, Hres).
    symmetry. apply resume_run_idle. by rewrite E.
  - by rewrite (resume_run_waiting A n).
Qed.

Lemma early_message_rejection s topic m e :
  inv self suite s → run_phase s = Triggering →
  step self suite (step self suite s (Message topic (Json m)))
       (TriggerDone (inl e))
  = step self suite (step self suite s (TriggerDone (inl e)))
         (Message topic (Json m)).
Proof.
  intros Hs Hp. destruct (triggering_state s Hs Hp) as (Hc & Hli & Hq & Hev).
  rewrite (parked_step s topic m Hs Hp).
  set (x0 := set_parked []
               (set_phase Ending
                  (log End (log (Emit (ERROR e)) (set_checks (Rejected e) s))))).
  set (B := fold_left (λ s (_ : parked), log (HandlerThrew e) s)
              (parked_handlers s) x0).
  assert (react self suite (TriggerDone (inl e)) s = B) as E2.
  { unfold react. rewrite Hp. by rewrite emit_plain by done. }
  assert (react self suite (TriggerDone (inl e))
            (set_parked (parked_handlers s ++ [Parked topic m]) s)
          = log (HandlerThrew e) B) as E1.
  { unfold react. cbn [run_phase set_parked]. rewrite Hp.
    rewrite emit_plain by done. simpl_state.
    rewrite fold_left_app. done. }
  destruct (fold_threw e (parked_handlers s) x0) as (l & _ & HB).
  fold B in HB.
  assert (run_phase B = Ending ∧ checks B = Rejected e ∧ listening B = true)
    as (HpB & HcB & HlB) by by rewrite HB.
  unfold step. rewrite E1, E2.
  rewrite (resume_run_idle B) by by rewrite HpB.
  rewrite (resume_run_idle (log _ B)) by (simpl_state; by rewrite HpB).
  assert (react self suite (Message topic (Json m)) B
          = if listening B then on_message self topic (Json m) B else B) as ->
    by by destruct (run_phase B).
  rewrite HlB. unfold on_message. rewrite HcB.
  symmetry. apply resume_run_idle. simpl_state. by rewrite HpB.
Qed.
End Early.

(** X8. No message is lost to the race between the subscription and the
    trigger response: a message that arrives while the trigger request is in
    flight waits for [this.checks] and is then handled exactly as if it had
    arrived right after the response, whether the request succeeded or
    failed. *)
Theorem early_message_is_handled_after_the_response
    self suite ins topic m response :
  run_phase (exec self suite ins) = Triggering →
  exec self suite (ins ++ [Message topic (Json m); TriggerDone response])
  = exec self suite (ins ++ [TriggerDone response; Message topic (Json m)]).
Proof.
  intros Hp. rewrite !exec_app. cbn [fold_left].
  pose proof (inv_exec self suite ins) as Hs.
  destruct response as [e | response].
  - by apply early_message_rejection.
  - by apply early_message_response.
Qed.

Lemma early_message_is_handled_after_the_response_witness :
  run_phase (exec sample_runner "suite" [ConnectDone None; SubscribeDone None])
  = Triggering ∧
  exec sample_runner "suite"
    ([ConnectDone None; SubscribeDone None]
     ++ [Message (topic_of "r1" "run-end") (Json plain_result);
         TriggerDone (inr ([check_A; check_B], sample_ids))])
  = exec sample_runner "suite"
      ([ConnectDone None; SubscribeDone None]
       ++ [TriggerDone (inr ([check_A; check_B], sample_ids));
           Message (topic_of "r1" "run-end") (Json plain_result)]).
Proof.
  split; [reflexivity |].
  apply (early_message_is_handled_after_the_response sample_runner "suite"
           [ConnectDone None; SubscribeDone None]).
  reflexivity.
Defined.

(** ** The flipped map without the precondition *)





(** ** Topics *)

Lemma split_level a : slash_free a = true → split a = [a].
Proof.
  induction a as [| c a IH]; [done |].
  cbn [slash_free split]. intros [Hc Ha]%andb_prop.
  apply negb_true_iff in Hc. rewrite Hc, (IH Ha). done.
Qed.

Lemma split_levels a b :
  slash_free a = true → split (a +:+ "/" +:+ b) = a :: split b.
Proof.
  induction a as [| c a IH]; [done |].
  change (String c a +:+ "/" +:+ b) with (String c (a +:+ "/" +:+ b)).
  cbn [slash_free split]. intros [Hc Ha]%andb_prop.
  apply negb_true_iff in Hc. rewrite Hc, (IH Ha). done.
Qed.

(** X11. The handler reads the run id and the kind of a message where the
    subscription has its two wildcards: when the account id and the suite id
    hold no slash, the pattern subscribed to has six levels, the last two
    being [+], and on a topic that it matches the fifth and sixth level are
    the run id and the kind. *)
Theorem handler_reads_the_wildcard_levels self suite runId kind :
  slash_free (accountId self) = true →
  slash_free suite = true →
  slash_free runId = true →
  slash_free kind = true →
  split (results_topic self suite)
  = ["account"; accountId self; "ad-hoc-check-results"; suite; "+"; "+"] ∧
  split (result_topic self suite runId kind)
  = ["account"; accountId self; "ad-hoc-check-results"; suite; runId; kind] ∧
  topic_run_id (result_topic self suite runId kind) = Some runId ∧
  topic_subtopic (result_topic self suite runId kind) = Some kind.
Proof.
  intros Ha Hs Hr Hk.
  assert (∀ x y,
            slash_free x = true → slash_free y = true →
            split ("account/" +:+ accountId self +:+ "/ad-hoc-check-results/"
                   +:+ suite +:+ "/" +:+ x +:+ "/" +:+ y)
            = ["account"; accountId self; "ad-hoc-check-results"; suite; x; y])
    as Hsplit.
  { intros x y Hx Hy.
    change ("account/" +:+ accountId self +:+ "/ad-hoc-check-results/"
            +:+ suite +:+ "/" +:+ x +:+ "/" +:+ y)
      with ("account" +:+ "/" +:+ accountId self +:+ "/"
            +:+ "ad-hoc-check-results" +:+ "/" +:+ suite +:+ "/" +:+ x
            +:+ "/" +:+ y).
    rewrite !split_levels by done. by rewrite split_level. }
  split_and!.
  - apply (Hsplit "+" "+"); done.
  - by apply Hsplit.
  - unfold topic_run_id, result_topic. by rewrite Hsplit.
  - unfold topic_subtopic, result_topic. by rewrite Hsplit.
Qed.

Lemma handler_reads_the_wildcard_levels_witness :
  slash_free (accountId sample_runner) = true ∧
  slash_free "suite" = true ∧
  slash_free "r1" = true ∧
  slash_free "run-end" = true ∧
  split (results_topic sample_runner "suite")
  = ["account"; accountId sample_runner; "ad-hoc-check-results"; "suite";
     "+"; "+"] ∧
  split (result_topic sample_runner "suite" "r1" "run-end")
  = ["account"; accountId sample_runner; "ad-hoc-check-results"; "suite";
     "r1"; "run-end"] ∧
  topic_run_id (result_topic sample_runner "suite" "r1" "run-end") = Some "r1" ∧
  topic_subtopic (result_topic sample_runner "suite" "r1" "run-end")
  = Some "run-end".
Proof.
  split; [reflexivity |]. split; [reflexivity |]. split; [reflexivity |].
  split; [reflexivity |].
  apply (handler_reads_the_wildcard_levels sample_runner "suite" "r1" "run-end");
    reflexivity.
Defined.

(** ** A run without messages *)

Section Silent.
Variable self : CheckRunner.
Variable suite : string.

(** The events of a timer that fires. *)
Lemma timer_events s h r c :
  inv self suite s → timers s !! h = Some (r, c) →
  ∃ n, allChecksFinishedPromise s = Some n ∧
       events (step self suite s (TimerFired h))
       = events s ++ CHECK_FAILED (Some c) (JStr "Reached timeout")
         :: CHECK_FINISHED (Some c)
         :: (if Nat.eqb (S (finished s)) (numChecks n) then [RUN_FINISHED]
             else []).
Proof.
  intros Hs Hh.
  destruct (armed_running self suite s h _ Hs Hh)
    as (Hp & _ & _ & n & known & Hn & _ & Hres & Hfc & Hlt).
  exists n. split; [done |].
  rewrite (timer_fires self suite s h r c n Hp Hh Hn Hres) by lia.
  rewrite Hfc.
  destruct (Nat.eqb _ _); unfold events; simpl_state;
    rewrite !events_of_app; cbn; by rewrite <- !app_assoc.
Qed.

Lemma flat_map_agree {A B} (f g : A → list B) l :
  (∀ a, a ∈ l → f a = g a) → flat_map f l = flat_map g l.
Proof.
  induction l as [| a l IH]; intros H; [done |].
  cbn [flat_map]. rewrite (H a) by by left.
  rewrite IH; [done |]. intros b Hb. apply H. by right.
Qed.

Lemma fire_all hs : ∀ s cs known n,
  inv self suite s → checks s = Resolved (cs, known) →
  allChecksFinishedPromise s = Some n → numChecks n = length cs →
  fetches s = ∅ → finished s + size (timers s) = length cs →
  NoDup hs → (∀ h, h ∈ hs ↔ is_Some (timers s !! h)) → hs ≠ [] →
  events (fold_left (step self suite) (map TimerFired hs) s)
  = events s
    ++ flat_map (λ h, match timers s !! h with
                      | Some (_, c) =>
                          [CHECK_FAILED (Some c) (JStr "Reached timeout");
                           CHECK_FINISHED (Some c)]
                      | None => []
                      end) hs
    ++ [RUN_FINISHED].
Proof.
  induction hs as [| h hs IH];
    intros s cs known n Hs Hc Hn HN Hf Hsum Hnd Hall Hne; [done |].
  cbn [map fold_left flat_map].
  assert (is_Some (timers s !! h)) as [[r c] Hh] by (apply Hall; left).
  rewrite Hh.
  destruct (timer_events s h r c Hs Hh) as (n' & Hn' & Hev).
  rewrite Hn in Hn'. injection Hn' as <-.
  destruct (timer_step self suite s h _ Hs Hh) as (Hfin & Hti & Hfe & Hch).
  apply NoDup_cons in Hnd as [Hnotin Hnd].
  assert (∀ h', h' ∈ hs ↔
                is_Some (timers (step self suite s (TimerFired h)) !! h'))
    as Hall'.
  { intros h'. rewrite Hti. split.
    - intros Hin. rewrite lookup_delete_ne by (intros ->; done).
      apply Hall. by right.
    - intros [x Hx]. apply lookup_delete_Some in Hx as [Hne' Hx].
      assert (h' ∈ h :: hs) as Hin by (apply Hall; eauto).
      apply elem_of_cons in Hin as [-> | Hin]; done. }
  assert (size (timers s) ≠ 0) as Hnz.
  { intros Hz. apply map_size_empty_inv in Hz. by rewrite Hz in Hh. }
  assert (size (timers (step self suite s (TimerFired h)))
          = pred (size (timers s))) as Hsz
    by (rewrite Hti; by apply map_size_delete_Some).
  destruct hs as [| h2 hs].
  - (* the last timer *)
    cbn [map fold_left flat_map]. rewrite Hev, app_nil_r.
    assert (timers (step self suite s (TimerFired h)) = ∅) as Hempty.
    { apply map_empty. intros h'. apply eq_None_not_Some. intros Hx.
      apply Hall' in Hx. by apply elem_of_nil in Hx. }
    rewrite Hempty, map_size_empty in Hsz.
    replace (Nat.eqb (S (finished s)) (numChecks n)) with true
      by (symmetry; apply Nat.eqb_eq; lia).
    done.
  - (* more timers are armed *)
    assert (is_Some (timers (step self suite s (TimerFired h)) !! h2))
      as [x Hx] by (apply Hall'; left).
    assert (size (timers (step self suite s (TimerFired h))) ≠ 0) as Hnz'.
    { intros Hz. apply map_size_empty_inv in Hz. by rewrite Hz in Hx. }
    replace (Nat.eqb (S (finished s)) (numChecks n)) with false in Hev
      by (symmetry; apply Nat.eqb_neq; lia).
    destruct (armed_running self suite s h _ Hs Hh) as (Hp & _).
    assert (answered (run_phase s)) as Hans by (rewrite Hp; by left).
    destruct (step_answered self suite s (TimerFired h) Hans)
      as (_ & _ & HN' & _).
    rewrite Hn in HN'.
    destruct (allChecksFinishedPromise (step self suite s (TimerFired h)))
      as [n1 |] eqn:Hn1; [| done].
    injection HN' as HN'.
    rewrite (IH _ cs known n1); try done.
    + rewrite Hev, <- !app_assoc. cbn [app]. do 3 f_equal.
      f_equal. apply flat_map_agree. intros h' Hin. rewrite Hti.
      rewrite lookup_delete_ne; [done |]. intros ->. done.
    + by apply inv_step.
    + by rewrite Hch.
    + lia.
    + by rewrite Hfe.
    + rewrite Hfin, Hsz. lia.
Qed.

(** The state right after the trigger response when no message is waiting
    for it. *)
Lemma silent_start ins1 cs ids :
  run_phase (exec self suite ins1) = Triggering →
  parked_handlers (exec self suite ins1) = [] →
  let s0 := step self suite (exec self suite ins1)
              (TriggerDone (inr (cs, ids))) in
  inv self suite s0 ∧
  checks s0 = Resolved (cs, objectFlip ids) ∧
  (∃ n, allChecksFinishedPromise s0 = Some n ∧ numChecks n = length cs) ∧
  fetches s0 = ∅ ∧
  finished s0 + size (timers s0) = length cs ∧
  (∀ h c, cs !! h = Some c →
          timers s0 !! h = Some (obj_get (check_id c) ids, c)) ∧
  (∀ h, length cs ≤ h → timers s0 !! h = None) ∧
  (cs ≠ [] → events s0 = [RUN_STARTED cs]).
Proof.
  intros Hp Hpa s0.
  pose proof (inv_exec self suite ins1) as Hs.
  destruct (triggering_quiet self suite _ Hs Hp) as [Hq Hev].
  destruct (scheduled self cs ids _ Hq Hev)
    as (Hp0 & Hl0 & _ & _ & _ & Hn0 & Htr0 & Hat & Hhigh & Hfe0).
  pose proof (scheduled_size self cs ids _ Hq) as Hsz.
  assert (react self suite (TriggerDone (inr (cs, ids))) (exec self suite ins1)
          = set_parked []
              (set_phase Waiting
                 (scheduleAllChecks_resume self (cs, ids)
                    (exec self suite ins1)))) as Hreact.
  { unfold react. rewrite Hp. cbn [fst snd].
    assert (parked_handlers
              (set_phase Waiting
                 (scheduleAllChecks_resume self (cs, ids)
                    (exec self suite ins1)))
            = []) as ->; [| done].
    unfold scheduleAllChecks_resume. rewrite emit_plain by done.
    simpl_state.
    by destruct (arm_frame self cs ids 0
                   (set_counter (Some (allChecksFinished (length cs)))
                      (exec self suite ins1)))
      as (_ & _ & _ & _ & -> & _). }
  destruct (resume_run_keeps
              (react self suite (TriggerDone (inr (cs, ids)))
                 (exec self suite ins1)))
    as (_ & Hkn & Hti & _).
  destruct (resume_run_account
              (react self suite (TriggerDone (inr (cs, ids)))
                 (exec self suite ins1)))
    as (Hfe & Hfin).
  assert (finished
            (set_parked []
               (set_phase Waiting
                  (scheduleAllChecks_resume self (cs, ids)
                     (exec self suite ins1)))) = 0) as Hzero.
  { destruct Hl0 as [_ _ (c & Hc & Hle & _)].
    rewrite Hn0 in Hc. injection Hc as <-. rewrite Hsz in Hle.
    cbn [numChecks allChecksFinished] in Hle. lia. }
  split_and!.
  - by apply inv_step.
  - by apply trigger_answered_step.
  - exists (allChecksFinished (length cs)). split; [| done].
    subst s0. unfold step. by rewrite Hkn, Hreact.
  - subst s0. unfold step. by rewrite Hfe, Hreact.
  - subst s0. unfold step. rewrite Hfin, Hti, Hreact, Hsz, Hzero. done.
  - intros h c Hc. subst s0. unfold step. rewrite Hti, Hreact. by apply Hat.
  - intros h Hh. subst s0. unfold step. rewrite Hti, Hreact. by apply Hhigh.
  - intros Hne. subst s0. unfold step. rewrite Hreact.
    rewrite (resume_run_waiting _ (allChecksFinished (length cs)));
      [| done | done |].
    + unfold events. rewrite Htr0. fold (events (exec self suite ins1)).
      rewrite !events_of_app, arming_local_free.
      fold (events (exec self suite ins1)). by rewrite Hev.
    + cbn [resolved allChecksFinished]. apply Nat.eqb_neq.
      by destruct cs.
Qed.
End Silent.

(** X12. The timers end a run that gets no message at all: when every
    check runs into its timeout, in whatever order, the events are
    [RUN_STARTED], then [CHECK_FAILED] with "Reached timeout" and
    [CHECK_FINISHED] for each check in the order of the timers, then
    [RUN_FINISHED], and [run()] has left the [try] block. *)
Theorem silent_run_times_out_every_check self suite ins1 cs ids hs :
  run_phase (exec self suite ins1) = Triggering →
  parked_handlers (exec self suite ins1) = [] →
  NoDup hs →
  (∀ h, h ∈ hs ↔ h < length cs) →
  let s' := exec self suite
              (ins1 ++ TriggerDone (inr (cs, ids)) :: map TimerFired hs) in
  events s'
  = RUN_STARTED cs
    :: flat_map (λ h, match cs !! h with
                      | Some c =>
                          [CHECK_FAILED (Some c) (JStr "Reached timeout");
                           CHECK_FINISHED (Some c)]
                      | None => []
                      end) hs
    ++ [RUN_FINISHED] ∧
  closing (run_phase s').
Proof.
  intros Hp Hpa Hnd Hall s'.
  split; [| by apply (silent_session_finishes self suite ins1 cs ids hs)].
  subst s'. rewrite exec_app. cbn [fold_left].
  destruct (silent_start self suite ins1 cs ids Hp Hpa)
    as (Hs0 & Hc0 & (n & Hn & HN) & Hf0 & Hsum & Hat & Hhigh & Hev0).
  destruct hs as [| h hs].
  - (* no check was selected *)
    assert (cs = []) as ->.
    { destruct cs as [| c cs]; [done |].
      assert (0 ∈ @nil nat) as H0 by (apply Hall; cbn; lia).
      by apply elem_of_nil in H0. }
    cbn [map fold_left flat_map app].
    by apply trigger_none; [apply inv_exec |].
  - assert (cs ≠ []) as Hne.
    { intros ->. assert (h < 0) as H0 by (apply Hall; left). cbn in H0. lia. }
    rewrite (fire_all self suite (h :: hs) _ cs (objectFlip ids) n);
      try done.
    + rewrite (Hev0 Hne). cbn [app]. do 2 f_equal.
      apply flat_map_agree. intros h' Hin.
      apply Hall, lookup_lt_is_Some_2 in Hin as [c Hc].
      by rewrite (Hat _ _ Hc), Hc.
    + intros h'. rewrite Hall. split.
      * intros Hh. apply lookup_lt_is_Some_2 in Hh as [c Hc].
        rewrite (Hat _ _ Hc). eauto.
      * intros [x Hx]. destruct (decide (h' < length cs)) as [| Hge]; [done |].
        rewrite Hhigh in Hx by lia. done.
Qed.

Lemma silent_run_times_out_every_check_witness :
  let ins1 := [ConnectDone None; SubscribeDone None] in
  let cs := [check_A; check_B] in
  let hs := [1; 0] in
  run_phase (exec sample_runner "suite" ins1) = Triggering ∧
  parked_handlers (exec sample_runner "suite" ins1) = [] ∧
  NoDup hs ∧
  (∀ h, h ∈ hs ↔ h < length cs) ∧
  let s' := exec sample_runner "suite"
              (ins1 ++ TriggerDone (inr (cs, sample_ids))
               :: map TimerFired hs) in
  events s'
  = RUN_STARTED cs
    :: flat_map (λ h, match cs !! h with
                      | Some c =>
                          [CHECK_FAILED (Some c) (JStr "Reached timeout");
                           CHECK_FINISHED (Some c)]
                      | None => []
                      end) hs
    ++ [RUN_FINISHED] ∧
  closing (run_phase s').
Proof.
  assert (NoDup [1; 0]) as Hnd by (apply (bool_decide_unpack _); by vm_compute).
  assert (∀ h, h ∈ [1; 0] ↔ h < length [check_A; check_B]) as Hall.
  { intros h. cbn [length]. rewrite !elem_of_cons, elem_of_nil. lia. }
  split; [reflexivity |]. split; [reflexivity |].
  split; [exact Hnd |]. split; [exact Hall |].
  apply (silent_run_times_out_every_check sample_runner "suite"
           [ConnectDone None; SubscribeDone None]
           [check_A; check_B] sample_ids [1; 0]);
    [reflexivity | reflexivity | exact Hnd | exact Hall].
Defined.

(** ** What a run reports *)

Section Kept.
Variable self : CheckRunner.
Variable suite : string.

(** The timers that the loop of [scheduleAllChecks] arms keep checks of
    the trigger response. *)
Lemma arm_keeps cs ids : ∀ h s j r c,
  timers (arm self cs ids h s) !! j = Some (r, c) →
  timers s !! j = Some (r, c) ∨ c ∈ cs.
Proof.
  induction cs as [| c0 cs IH]; intros h s j r c Hj; [by left |].
  cbn [arm] in Hj. apply IH in Hj as [Hj | Hin]; [| right; by right].
  revert Hj. simpl_state.
  destruct (decide (j = h)) as [-> | Hne].
  - rewrite lookup_insert_eq. intros [= _ <-]. right. by left.
  - rewrite lookup_insert_ne by done. by left.
Qed.

(** While [run()] waits for the trigger response, [this.checks] is
    pending. *)
Lemma triggering_pending s :
  inv self suite s → run_phase s = Triggering → checks s = Pending.
Proof.
  intros Hs Hp.
  destruct Hs as [ | e0 | s' mid [Hp' | [e Hp']] _ _ _ _ _ _
       | s' mid mid2 _ _ Hc _ _ _ _ _
       | s' e0 mid mid2 mid3 Hp' _ _ _ _ _ _ _ _ _
       | s' cs' ids' c mid mid2 body Hp' _ _ _ _ _ _ _ _ _ _ _
       | s' cs' ids' c mid mid2 body mid3 Hp' _ _ _ _ _ _ _ _ _ _ _ _ _ _ ];
    try done; by rewrite Hp in Hp'.
Qed.

(** Only the trigger response brings new timers and a table of run ids. *)
Lemma kept_step s i :
  (∀ h r c, timers (step self suite s i) !! h = Some (r, c) →
     timers s !! h = Some (r, c) ∨ ∃ cs ids, starts s i cs ids ∧ c ∈ cs) ∧
  (∀ known, checks (step self suite s i) = Resolved known →
     checks s = Resolved known ∨
     ∃ cs ids, starts s i cs ids ∧ known = (cs, objectFlip ids)).
Proof.
  unfold step.
  destruct (resume_run_keeps (react self suite i s)) as (-> & _ & -> & _).
  destruct (decide (wakes_handler i)) as [Hi | Hi].
  { destruct (react_handler self suite i s Hi) as [Hm | [m ->]].
    - destruct Hm as [_ Hc _ _ _ _ Ht _]. rewrite Hc. split; [| by left].
      intros h r c Hh. left. by eapply lookup_weaken.
    - simpl_state. split; by left. }
  destruct i as [[e |] | [e |] | [e | [cs ids]] | topic raw | h | h response
                | [e |]]; try (by destruct Hi);
    unfold react; destruct (run_phase s) eqn:Hp;
    try (split; by left); simpl_state; try (split; [by left | done]).
  - match goal with |- context [fold_left ?f ?ms ?x0] =>
      destruct (fold_threw e ms x0) as (l & _ & ->)
    end.
    simpl_state. rewrite !emit_plain by done. simpl_state.
    split; [by left | done].
  - cbn [fst snd].
    match goal with |- context [fold_left ?f ?ms ?x0] =>
      destruct (fold_handler_body_moves self (cs, objectFlip ids) ms x0)
        as [_ Hc _ _ _ _ Ht _]
    end.
    split.
    + intros h r c Hh. eapply lookup_weaken in Hh; [| exact Ht].
      revert Hh. unfold scheduleAllChecks_resume. simpl_state.
      rewrite emit_plain by done. simpl_state. intros Hh.
      apply arm_keeps in Hh as [Hh | Hin]; [by left |].
      right. by exists cs, ids.
    + intros known. rewrite Hc. unfold scheduleAllChecks_resume. simpl_state.
      intros [= <-]. right. by exists cs, ids.
Qed.
End Kept.

Section Reports.
Variable self : CheckRunner.
Variable suite : string.
Variable Rc : option check → Prop.
Variable Rr : json → Prop.
Hypothesis Rr_locals :
  ∀ m result region logPath path,
    run_end_locals m = inr (result, region, logPath, path) → Rr result.
Hypothesis Rr_set : ∀ v name x, Rr v → Rr (set_prop v name x).

Lemma grows_refl s : grows Rc Rr s s.
Proof. split; [exists []; by rewrite app_nil_r | by left]. Qed.

Lemma grows_trans s1 s2 s3 :
  grows Rc Rr s1 s2 → grows Rc Rr s2 s3 → grows Rc Rr s1 s3.
Proof.
  intros [(l1 & E1 & H1) F1] [(l2 & E2 & H2) F2]. split.
  - exists (l1 ++ l2). split; [| by apply Forall_app].
    rewrite E2, E1. by rewrite app_assoc.
  - intros h k Hk. destruct (F2 _ _ Hk) as [Hk' | ?]; [by apply F1 | by right].
Qed.

(** A change of the state that leaves the events and the waiting handlers
    alone. *)
Lemma grows_same s s' :
  events s' = events s → fetches s' = fetches s → grows Rc Rr s s'.
Proof.
  intros E F. split.
  - exists []. by rewrite app_nil_r.
  - intros h k. rewrite F. by left.
Qed.

Lemma grows_log a s :
  match a with Emit e => told Rc Rr e | _ => True end →
  grows Rc Rr s (log a s).
Proof.
  intros Ha. split; [| by left].
  rewrite events_log. destruct a; try (exists []; by split);
    exists [e]; split; [done | by constructor].
Qed.

Lemma grows_emit e s : told Rc Rr e → grows Rc Rr s (emit e s).
Proof.
  intros He. destruct (emit_frame e s) as (_ & _ & _ & _ & _ & _ & Hf & _).
  split.
  - exists [e]. split; [apply emit_events | by constructor].
  - intros h k. rewrite Hf. by left.
Qed.

Lemma grows_disableTimeout r s : grows Rc Rr s (disableTimeout r s).
Proof.
  apply grows_same; unfold disableTimeout;
    destruct (timeouts s !! r); unfold events; simpl_state;
    rewrite ?events_of_app; by rewrite ?app_nil_r.
Qed.

Lemma grows_finish c result s :
  Rc c → Rr result → grows Rc Rr s (finish c result s).
Proof.
  intros. unfold finish. eapply grows_trans; by apply grows_emit.
Qed.

Lemma grows_suspend k s : held Rc Rr k → grows Rc Rr s (suspend k s).
Proof.
  intros Hk. split; [exists []; by rewrite app_nil_r |].
  intros h k'. unfold suspend. simpl_state.
  destruct (decide (h = handlers s)) as [-> | Hne].
  - rewrite lookup_insert_eq. intros [= E]. right. by rewrite <- E.
  - rewrite lookup_insert_ne by done. by left.
Qed.

Lemma grows_data_then_finish c result region path s :
  Rc c → Rr result →
  grows Rc Rr s (data_then_finish self c result region path s).
Proof.
  intros. unfold data_then_finish. destruct (wanted self path result).
  - eapply grows_trans; [| by apply grows_suspend]; by apply grows_log.
  - by apply grows_finish.
Qed.

Lemma grows_handler_body known m s :
  (∀ r, Rc (correlate known r)) →
  grows Rc Rr s (handler_body self known m s).
Proof.
  intros Hknown. unfold handler_body.
  destruct (timeouts s !! topic_run_id (p_topic m)) as [h |];
    [| apply grows_refl].
  destruct (is_subtopic (topic_subtopic (p_topic m)) "run-start");
    [apply grows_emit, Hknown |].
  destruct (is_subtopic (topic_subtopic (p_topic m)) "run-end").
  { eapply grows_trans; [apply grows_disableTimeout |].
    destruct (run_end_locals (p_message m))
      as [e | [[[result region] logPath] path]] eqn:Hm.
    - by apply grows_log.
    - apply Rr_locals in Hm.
      destruct (wanted self logPath result).
      + eapply grows_trans;
          [| apply grows_suspend; split; [apply Hknown | done]];
          by apply grows_log.
      + apply grows_data_then_finish; [apply Hknown | done]. }
  destruct (is_subtopic (topic_subtopic (p_topic m)) "error");
    [| apply grows_refl].
  eapply grows_trans; [apply grows_disableTimeout |].
  eapply grows_trans; [| apply grows_emit, Hknown]; apply grows_emit, Hknown.
Qed.

Lemma grows_on_fetched h response s :
  (∀ h k, fetches s !! h = Some k → held Rc Rr k) →
  grows Rc Rr s (on_fetched self h response s).
Proof.
  intros Hf. unfold on_fetched.
  destruct (fetches s !! h) as [k |] eqn:Hk; [| apply grows_refl].
  destruct (Hf _ _ Hk) as [Hc Hr].
  assert (grows Rc Rr s (set_fetches (delete h (fetches s)) (handlers s) s))
    as Hd.
  { split; [exists []; by rewrite app_nil_r |].
    intros h' k'. simpl_state. intros H'.
    apply lookup_delete_Some in H' as [_ H']. by left. }
  eapply grows_trans; [apply Hd |].
  destruct response as [e | v]; [by apply grows_log |].
  destruct (awaited k).
  - apply grows_data_then_finish; [done | by apply Rr_set].
  - apply grows_finish; [done | by apply Rr_set].
Qed.

Lemma grows_on_timeout r c s :
  Rc (Some c) → grows Rc Rr s (on_timeout r c s).
Proof.
  intros Hc. unfold on_timeout.
  eapply grows_trans; [| by apply grows_emit].
  eapply grows_trans; [| by apply grows_emit].
  by apply grows_same.
Qed.

Lemma grows_resume_run s : grows Rc Rr s (resume_run s).
Proof.
  unfold resume_run.
  destruct (run_phase s); try apply grows_refl.
  destruct (allChecksFinishedPromise s) as [c |]; [| apply grows_refl].
  destruct (resolved c); [| apply grows_refl].
  eapply grows_trans; [| by apply grows_same].
  eapply grows_trans; [| by apply (grows_log End)].
  by apply (grows_emit RUN_FINISHED).
Qed.

Lemma grows_fold_handler_body known ms s :
  (∀ r, Rc (correlate known r)) →
  grows Rc Rr s (fold_left (λ s m, handler_body self known m s) ms s).
Proof.
  intros Hknown. revert s.
  induction ms as [| m ms IH]; intros s; [apply grows_refl |].
  cbn [fold_left].
  eapply grows_trans; [by apply grows_handler_body | apply IH].
Qed.

Lemma grows_arm cs ids h s : grows Rc Rr s (arm self cs ids h s).
Proof.
  destruct (arm_frame self cs ids h s) as (_ & _ & _ & _ & _ & Hf & _ & Htr).
  apply grows_same; [| done].
  unfold events. by rewrite Htr, events_of_app, arming_local_free, app_nil_r.
Qed.

Lemma grows_react i s :
  sound Rc Rr s → welcome Rc s i → grows Rc Rr s (react self suite i s).
Proof.
  intros [_ Hf Ht Hk] Hi.
  destruct i as [[e |] | [e |] | [e | [cs ids]] | topic raw | h | h response
                | [e |]].
  - unfold react. destruct (run_phase s); try apply grows_refl.
    by apply grows_same.
  - unfold react. destruct (run_phase s); try apply grows_refl.
    eapply grows_trans; [| by apply grows_same].
    eapply grows_trans; [| by apply (grows_log (Subscribe _))].
    eapply grows_trans; [| by apply grows_same].
    by apply (grows_log OnMessage).
  - unfold react. destruct (run_phase s); try apply grows_refl.
    by apply grows_same.
  - unfold react. destruct (run_phase s); try apply grows_refl.
    eapply grows_trans; [| by apply grows_same].
    eapply grows_trans; [| by apply grows_same].
    eapply grows_trans; [| by apply (grows_log (Trigger _))].
    by apply (grows_log Subscribed).
  - unfold react. destruct (run_phase s); try apply grows_refl.
    match goal with |- context [fold_left ?f ?ms ?x0] =>
      destruct (fold_threw e ms x0) as (l & Hl & ->)
    end.
    eapply grows_trans; [by apply (grows_emit (ERROR e)) |].
    apply grows_same; [| by rewrite emit_plain by done].
    unfold events. simpl_state. rewrite !emit_plain by done. simpl_state.
    rewrite !events_of_app, (events_of_threw l) by done.
    change (events_of [End]) with (@nil event). by rewrite !app_nil_r.
  - unfold react. destruct (run_phase s) eqn:Hp; try apply grows_refl.
    destruct (Hi cs ids (conj Hp eq_refl)) as [_ Hcorr].
    cbn [fst snd].
    eapply grows_trans; [| by apply grows_fold_handler_body].
    eapply grows_trans; [| by apply grows_same].
    eapply grows_trans; [| by apply grows_same].
    unfold scheduleAllChecks_resume.
    eapply grows_trans; [| by apply grows_same].
    eapply grows_trans; [| by apply (grows_emit (RUN_STARTED cs))].
    eapply grows_trans; [| apply grows_arm].
    by apply grows_same.
  - assert (react self suite (Message topic raw) s
            = if listening s then on_message self topic raw s else s) as ->
      by by destruct (run_phase s).
    destruct (listening s); [| apply grows_refl].
    unfold on_message. destruct raw as [| m]; [by apply grows_log |].
    destruct (checks s) as [| | known | e] eqn:Hc;
      [by apply grows_log | by apply grows_same | | by apply grows_log].
    apply grows_handler_body. intros r. by apply Hk.
  - assert (react self suite (TimerFired h) s
            = match timers s !! h with
              | Some (r, c) => on_timeout r c (set_timers (delete h (timers s)) s)
              | None => s
              end) as -> by by destruct (run_phase s).
    destruct (timers s !! h) as [[r c] |] eqn:Hh; [| apply grows_refl].
    eapply grows_trans; [| apply grows_on_timeout]; [by apply grows_same |].
    by eapply Ht.
  - assert (react self suite (FetchDone h response) s
            = on_fetched self h response s) as ->
      by by destruct (run_phase s).
    by apply grows_on_fetched.
  - unfold react. destruct (run_phase s); try apply grows_refl.
    by apply grows_same.
  - unfold react. destruct (run_phase s); try apply grows_refl.
    by apply grows_same.
Qed.

(** One step keeps all of it. *)
Lemma sound_step s i :
  sound Rc Rr s → welcome Rc s i →
  sound Rc Rr (step self suite s i) ∧ grows Rc Rr s (step self suite s i).
Proof.
  intros Hs Hi.
  assert (grows Rc Rr s (step self suite s i)) as Hg.
  { unfold step. eapply grows_trans; [by apply grows_react |].
    apply grows_resume_run. }
  split; [| done].
  destruct (kept_step self suite s i) as [Ht Hc].
  destruct Hs as [Hev Hf Hti Hch], Hg as [(evs & E & Hevs) Hf'].
  split.
  - rewrite E. by apply Forall_app.
  - intros h k Hk. destruct (Hf' _ _ Hk) as [Hk' | ?]; [by eapply Hf | done].
  - intros h r c Hh.
    destruct (Ht _ _ _ Hh) as [Hh' | (cs & ids & Hst & Hin)];
      [by eapply Hti |].
    by apply (Hi cs ids Hst).
  - intros known r Hk.
    destruct (Hc _ Hk) as [Hk' | (cs & ids & Hst & ->)]; [by apply Hch |].
    by apply (Hi cs ids Hst).
Qed.

Lemma sound_fold ins : ∀ s,
  sound Rc Rr s → (∀ s i, welcome Rc s i) →
  sound Rc Rr (fold_left (step self suite) ins s) ∧
  grows Rc Rr s (fold_left (step self suite) ins s).
Proof.
  induction ins as [| i ins IH]; intros s Hs Hw;
    [split; [done | apply grows_refl] |].
  cbn [fold_left].
  destruct (sound_step s i Hs (Hw s i)) as [Hs1 Hg1].
  destruct (IH _ Hs1 Hw) as [Hs2 Hg2].
  split; [done | by eapply grows_trans].
Qed.

(** After the answer to the trigger request no response is waited for. *)
Lemma sound_fold_answered ins : ∀ s,
  sound Rc Rr s → answered (run_phase s) →
  sound Rc Rr (fold_left (step self suite) ins s).
Proof.
  induction ins as [| i ins IH]; intros s Hs Ha; [done |].
  cbn [fold_left].
  destruct (sound_step s i Hs) as [Hs1 _].
  { intros cs ids [Hp _]. rewrite Hp in Ha. by destruct Ha as [| []]. }
  apply IH; [done |]. by apply step_answered.
Qed.
End Reports.

Lemma sound_init Rc Rr : sound Rc Rr init.
Proof. by split. Qed.

Lemma run_end_locals_object m result region logPath path :
  run_end_locals m = inr (result, region, logPath, path) → is_object result.
Proof.
  unfold run_end_locals, get_prop.
  destruct m as [| | | | | props]; cbn; try done.
  destruct (obj_get "result" props) as [[| | | | | rprops] |]; cbn; try done.
  destruct (obj_get "assets" rprops) as [[| | | | | aprops] |]; cbn; try done;
    by intros [= <- _ _ _].
Qed.

Lemma set_prop_object v name x : is_object v → is_object (set_prop v name x).
Proof. by destruct v. Qed.

(** Every result that a run reports is an object. *)
Lemma object_results_fold self suite ins s :
  sound any_check is_object s →
  sound any_check is_object (fold_left (step self suite) ins s) ∧
  grows any_check is_object s (fold_left (step self suite) ins s).
Proof.
  intros Hs.
  apply sound_fold;
    [apply run_end_locals_object | apply set_prop_object | done | done].
Qed.

Lemma object_results_exec self suite ins :
  sound any_check is_object (exec self suite ins).
Proof. apply object_results_fold, sound_init. Qed.

(** What [find] gives is an element. *)
Lemma correlate_selected cs ids r : selected cs (correlate (cs, ids) r).
Proof.
  unfold correlate, find_check. cbn [fst snd].
  destruct (obj_get (prop_name r) ids) as [i |]; [| done].
  destruct (List.find _ cs) as [c |] eqn:Hc; [| done].
  apply find_some in Hc as [Hc _]. by apply list_elem_of_In.
Qed.

(** X13. A run reports nothing about checks it was not asked to run:
    the check of every [CHECK_INPROGRESS], [CHECK_FAILED], [CHECK_SUCCESSFUL]
    and [CHECK_FINISHED] event is either [undefined] or one of the checks of
    the trigger response, whatever the messages say and whatever run ids
    they name. *)
Theorem only_selected_checks_are_reported self suite ins1 cs ids ins2 :
  run_phase (exec self suite ins1) = Triggering →
  Forall (told (selected cs) any_result)
    (events (exec self suite (ins1 ++ TriggerDone (inr (cs, ids)) :: ins2))).
Proof.
  intros Hp.
  destruct (triggering_quiet self suite _ (inv_exec self suite ins1) Hp)
    as [(Hto & Hti & Hfe) Hev].
  assert (sound (selected cs) any_result (exec self suite ins1)) as Hs.
  { split.
    - by rewrite Hev.
    - intros h k. by rewrite Hfe, lookup_empty.
    - intros h r c. by rewrite Hti, lookup_empty.
    - intros known r Hc.
      by rewrite (triggering_pending self suite _ (inv_exec self suite ins1) Hp)
        in Hc. }
  rewrite exec_app. cbn [fold_left].
  apply (sound_events (selected cs) any_result).
  apply sound_fold_answered; [done | done | |
    by apply (trigger_answered_step self suite)].
  apply sound_step; [done | done | done |].
  intros cs' ids' [_ [= <- <-]]. split; [done |].
  intros r. apply correlate_selected.
Qed.

Lemma only_selected_checks_are_reported_witness :
  run_phase (exec sample_runner "suite" [ConnectDone None; SubscribeDone None])
  = Triggering ∧
  Forall (told (selected [check_A; check_B]) any_result)
    (events (exec sample_runner "suite"
               ([ConnectDone None; SubscribeDone None]
                ++ TriggerDone (inr ([check_A; check_B], sample_ids))
                   :: sample_rest))).
Proof.
  split; [reflexivity |].
  apply (only_selected_checks_are_reported sample_runner "suite"
           [ConnectDone None; SubscribeDone None] [check_A; check_B]
           sample_ids sample_rest).
  reflexivity.
Defined.

(** * The [trigger] command *)

(** ** The run location *)

(** X14. Location flags of the command line override the configuration
    file altogether: when [--location] or [--private-location] is given
    (and not empty), the requests sent and the outcome are the same whatever
    the file says, even if it names two locations at once. *)
Theorem location_flags_override_the_config api account cfg cfg' cli :
  given (opt_runLocation cli) ≠ None ∨
  given (opt_privateRunLocation cli) ≠ None →
  prepareRunLocation api account cfg cli
  = prepareRunLocation api account cfg' cli.
Proof.
  intros H. unfold prepareRunLocation.
  destruct (given (opt_runLocation cli)); [done |].
  destruct (given (opt_privateRunLocation cli)); [done |].
  by destruct H.
Qed.

Lemma location_flags_override_the_config_witness :
  let api := {| locations_getAll := inr [{| loc_region := "us-east-1" |}];
                privateLocations_getAll := inl "503";
                accounts_get := λ _, inl "503" |} in
  let cli := {| opt_runLocation := Some "us-east-1";
                opt_privateRunLocation := None |} in
  let cfg := {| opt_runLocation := Some "eu-west-1";
                opt_privateRunLocation := Some "office" |} in
  let cfg' := {| opt_runLocation := None; opt_privateRunLocation := None |} in
  (given (opt_runLocation cli) ≠ None ∨
   given (opt_privateRunLocation cli) ≠ None) ∧
  prepareRunLocation api "acc" cfg cli = prepareRunLocation api "acc" cfg' cli.
Proof.
  split; [by left |].
  apply (location_flags_override_the_config
           {| locations_getAll := inr [{| loc_region := "us-east-1" |}];
              privateLocations_getAll := inl "503";
              accounts_get := λ _, inl "503" |}
           "acc"
           {| opt_runLocation := Some "eu-west-1";
              opt_privateRunLocation := Some "office" |}
           {| opt_runLocation := None; opt_privateRunLocation := None |}
           {| opt_runLocation := Some "us-east-1";
              opt_privateRunLocation := None |}).
  by left.
Defined.

Lemma find_slug slug (ls : list PrivateLocation) p :
  List.find (λ l, String.eqb (pl_slugName l) slug) ls = Some p →
  p ∈ ls ∧ pl_slugName p = slug.
Proof.
  intros H. apply find_some in H as [Hin Heq].
  split; [by apply list_elem_of_In | by apply String.eqb_eq].
Qed.

Lemma private_found api account slug l :
  snd (preparePrivateRunLocation api account slug) = inr l →
  ∃ ls p, privateLocations_getAll api = inr ls ∧ p ∈ ls ∧
          pl_slugName p = slug ∧ l = PRIVATE (pl_id p) slug.
Proof.
  unfold preparePrivateRunLocation.
  destruct (privateLocations_getAll api) as [m | ls]; [done |].
  destruct (List.find _ ls) as [p |] eqn:Hf.
  - intros [= <-]. destruct (find_slug _ _ _ Hf). by exists ls, p.
  - cbn [snd]. by destruct (accounts_get api account).
Qed.

(** X15. The location that [prepareRunLocation] returns is never made
    up: a public region comes from the flag, and then the backend lists it,
    or from the configuration file or the default, without flags; a private
    location carries the slug name that was asked for, by the flag or without
    flags by the file, and the id that the backend gives a location of that
    slug name. *)
Theorem prepared_location_is_known api account cfg cli l :
  snd (prepareRunLocation api account cfg cli) = inr l →
  match l with
  | PUBLIC r =>
      (given (opt_runLocation cli) = Some r ∧
       ∃ ls, locations_getAll api = inr ls ∧ r ∈ map loc_region ls) ∨
      (given (opt_runLocation cli) = None ∧
       given (opt_privateRunLocation cli) = None ∧
       given (opt_privateRunLocation cfg) = None ∧
       (given (opt_runLocation cfg) = Some r ∨
        given (opt_runLocation cfg) = None ∧ r = DEFAULT_REGION))
  | PRIVATE id slug =>
      given (opt_runLocation cli) = None ∧
      (given (opt_privateRunLocation cli) = Some slug ∨
       given (opt_privateRunLocation cli) = None ∧
       given (opt_runLocation cfg) = None ∧
       given (opt_privateRunLocation cfg) = Some slug) ∧
      ∃ ls p, privateLocations_getAll api = inr ls ∧ p ∈ ls ∧
              pl_slugName p = slug ∧ pl_id p = id
  end.
Proof.
  unfold prepareRunLocation.
  destruct (given (opt_runLocation cli)) as [r |].
  { cbn [snd]. destruct (locations_getAll api) as [m | ls]; [done |].
    destruct (existsb _ ls) eqn:Hex; [| done].
    intros [= <-]. left. split; [done |]. exists ls. split; [done |].
    apply existsb_exists in Hex as (x & Hin & Heq).
    apply String.eqb_eq in Heq as <-.
    apply list_elem_of_fmap. exists x. split; [done | by apply list_elem_of_In]. }
  destruct (given (opt_privateRunLocation cli)) as [slug |].
  { intros H. apply private_found in H as (ls & p & Hls & Hin & Hs & ->).
    split_and!; [done | by left |]. by exists ls, p. }
  destruct (given (opt_runLocation cfg)) as [r |],
           (given (opt_privateRunLocation cfg)) as [slug |]; cbn [snd].
  - done.
  - intros [= <-]. right. split_and!; try done. by left.
  - intros H. apply private_found in H as (ls & p & Hls & Hin & Hs & ->).
    split_and!; [done | by right |]. by exists ls, p.
  - intros [= <-]. right. split_and!; try done. by right.
Qed.

Lemma prepared_location_is_known_witness :
  let api := {| locations_getAll := inl "unused";
                privateLocations_getAll :=
                  inr [{| pl_id := "7"; pl_slugName := "lab" |};
                       {| pl_id := "9"; pl_slugName := "office" |}];
                accounts_get := λ _, inl "unused" |} in
  let cli := {| opt_runLocation := Some EmptyString;
                opt_privateRunLocation := Some "office" |} in
  let cfg := {| opt_runLocation := Some "eu-west-1";
                opt_privateRunLocation := None |} in
  snd (prepareRunLocation api "acc" cfg cli) = inr (PRIVATE "9" "office") ∧
  given (opt_runLocation cli) = None ∧
  (given (opt_privateRunLocation cli) = Some "office" ∨
   given (opt_privateRunLocation cli) = None ∧
   given (opt_runLocation cfg) = None ∧
   given (opt_privateRunLocation cfg) = Some "office") ∧
  ∃ ls p, privateLocations_getAll api = inr ls ∧ p ∈ ls ∧
          pl_slugName p = "office" ∧ pl_id p = "9".
Proof.
  split; [reflexivity |].
  apply (prepared_location_is_known
           {| locations_getAll := inl "unused";
              privateLocations_getAll :=
                inr [{| pl_id := "7"; pl_slugName := "lab" |};
                     {| pl_id := "9"; pl_slugName := "office" |}];
              accounts_get := λ _, inl "unused" |}
           "acc"
           {| opt_runLocation := Some "eu-west-1";
              opt_privateRunLocation := None |}
           {| opt_runLocation := Some EmptyString;
              opt_privateRunLocation := Some "office" |}
           (PRIVATE "9" "office")).
  reflexivity.
Defined.

(** X16. [prepareRunLocation] asks the backend nothing exactly when no
    location flag is given and the configuration file names a region or no
    private location; the outcome is then that of the file alone: an error
    when it names both, else its region, which is not checked against the
    regions of the backend, else the default region. *)
Theorem configured_region_is_not_validated api account cfg cli :
  (fst (prepareRunLocation api account cfg cli) = [] ↔
   given (opt_runLocation cli) = None ∧
   given (opt_privateRunLocation cli) = None ∧
   (given (opt_runLocation cfg) ≠ None ∨
    given (opt_privateRunLocation cfg) = None)) ∧
  (fst (prepareRunLocation api account cfg cli) = [] →
   snd (prepareRunLocation api account cfg cli)
   = match given (opt_runLocation cfg), given (opt_privateRunLocation cfg) with
     | Some r, Some p => inl (Failure (both_locations r p))
     | Some r, None => inr (PUBLIC r)
     | None, _ => inr (PUBLIC DEFAULT_REGION)
     end).
Proof.
  assert (∀ slug, fst (preparePrivateRunLocation api account slug) ≠ []) as Hp.
  { intros slug. unfold preparePrivateRunLocation.
    destruct (privateLocations_getAll api) as [m | ls]; [done |].
    by destruct (List.find _ ls). }
  unfold prepareRunLocation.
  destruct (given (opt_runLocation cli)) as [r |].
  { cbn [fst]. split; [| done]. split; [done | by intros [[=] _]]. }
  destruct (given (opt_privateRunLocation cli)) as [slug |].
  { split; [| intros H; by destruct (Hp slug)].
    split; [intros H; by destruct (Hp slug) | by intros (_ & [=] & _)]. }
  destruct (given (opt_runLocation cfg)) as [r |],
           (given (opt_privateRunLocation cfg)) as [slug |]; cbn [fst snd].
  - split; [| done]. split; [| done]. intros _. split_and!; try done. by left.
  - split; [| done]. split; [| done]. intros _. split_and!; try done. by left.
  - split; [| intros H; by destruct (Hp slug)].
    split; [intros H; by destruct (Hp slug) |].
    by intros (_ & _ & [? | [=]]).
  - split; [| done]. split; [| done]. intros _. split_and!; try done. by right.
Qed.

(** X17. [preparePrivateRunLocation] succeeds exactly when the backend
    answers with a list that holds a location of the slug name, and returns
    the id of the first one; every failure, the backend's or the lookup's, is
    thrown as an error whose message starts with "Failed to get private
    locations. " and ends with a full stop; the account is asked for only to
    word the lookup's failure, and its own failure takes the place of that
    wording. *)
Theorem private_location_outcomes api account slug :
  let out := preparePrivateRunLocation api account slug in
  (∀ l, snd out = inr l ↔
        ∃ ls p, privateLocations_getAll api = inr ls ∧
                List.find (λ x, String.eqb (pl_slugName x) slug) ls = Some p ∧
                l = PRIVATE (pl_id p) slug) ∧
  (∀ e, snd out = inl e →
        ∃ m, e = Failure ("Failed to get private locations. " +:+ m +:+ ".") ∧
             (privateLocations_getAll api = inl m ∨
              accounts_get api account = inl m ∨
              ∃ a, accounts_get api account = inr a ∧
                   m = not_found slug (account_name a))) ∧
  (In (GetAccount account) (fst out) ↔
   ∃ ls, privateLocations_getAll api = inr ls ∧
         List.find (λ x, String.eqb (pl_slugName x) slug) ls = None).
Proof.
  cbv zeta. unfold preparePrivateRunLocation.
  destruct (privateLocations_getAll api) as [m | ls].
  { split_and!.
    - intros l. split; [done | by intros (? & ? & [=] & _)].
    - intros e [= <-]. exists m. split; [done | by left].
    - split; [by intros [[=] | []] | by intros (? & [=] & _)]. }
  destruct (List.find _ ls) as [p |] eqn:Hf.
  { split_and!.
    - intros l. split.
      + intros [= <-]. by exists ls, p.
      + intros (ls' & p' & [= <-] & Hf' & ->). rewrite Hf in Hf'.
        by injection Hf' as <-.
    - done.
    - split; [by intros [[=] | []] |].
      intros (ls' & [= <-] & Hf'). by rewrite Hf in Hf'. }
  split_and!.
  - intros l. cbn [snd]. split.
    + by destruct (accounts_get api account).
    + intros (ls' & p' & [= <-] & Hf' & _). by rewrite Hf in Hf'.
  - cbn [snd]. intros e. destruct (accounts_get api account) as [m | a].
    + intros [= <-]. exists m. split; [done |]. right. by left.
    + intros [= <-]. exists (not_found slug (account_name a)).
      split; [done |]. right. right. by exists a.
  - split; [| intros _; right; by left]. intros _. by exists ls.
Qed.

(** ** The listeners and the exit code *)

Lemma listeners_app evs1 evs2 p :
  listeners (evs1 ++ evs2) p
  = p1 ← listeners evs1 p; listeners evs2 p1.
Proof.
  unfold listeners. rewrite fold_left_app.
  set (f := λ (acc : throws process) e, p ← acc; on_event e p).
  destruct (fold_left f evs1 (inr p)) as [e | p1]; [| done].
  change (fold_left f evs2 (inl e) = inl e).
  induction evs2 as [| x evs2 IH]; [done | apply IH].
Qed.

Lemma listeners_exit_code evs : ∀ p,
  Forall (told any_check is_object) evs →
  ∃ p', listeners evs p = inr p' ∧
        exitCode p' = if existsb reports_failure evs then Some 1%Z
                      else exitCode p.
Proof.
  induction evs as [| e evs IH]; intros p Hev.
  - by exists p.
  - apply Forall_cons in Hev as [He Hev].
    change (e :: evs) with ([e] ++ evs). rewrite listeners_app.
    assert (∃ p1, listeners [e] p = inr p1 ∧
                  exitCode p1 = if reports_failure e then Some 1%Z
                                else exitCode p) as (p1 & -> & E1).
    { unfold listeners. cbn.
      destruct e as [| c | c m | c result | c | cs | | x];
        try (eexists; split; [done | done]).
      destruct He as [_ He].
      destruct result as [| | | | | props]; try done. cbn.
      eexists. split; [done |].
      unfold reports_failure, hasFailures.
      by destruct (truthy (obj_get "hasFailures" props)). }
    destruct (IH p1 Hev) as (p' & Hp' & E').
    exists p'. split; [exact Hp' |]. rewrite E', E1.
    change ([e] ++ evs) with (e :: evs). cbn [existsb].
    by destruct (reports_failure e), (existsb reports_failure evs).
Qed.

(** X18. The listeners of the command never throw on the events of a run,
    whatever the backend sends, since every reported result is an object; and
    the exit code they leave is 1 exactly when a check was reported as failed
    (by a message of kind [error] or by its timeout) or as successful with a
    result that has failures, and is left unset otherwise. *)
Theorem exit_code_reports_failed_checks self suite ins :
  ∃ p,
    listeners (events (exec self suite ins)) fresh_process = inr p ∧
    exitCode p
    = if existsb reports_failure (events (exec self suite ins))
      then Some 1%Z else None.
Proof.
  destruct (object_results_exec self suite ins) as [Hev _ _ _].
  apply (listeners_exit_code _ fresh_process Hev).
Qed.

Section Outcomes.
Variable self : CheckRunner.
Variable suite : string.

(** Until the disconnect is answered, [run()] stays in the [finally]
    block of a failed run. *)
Lemma ending_step s e i :
  inv self suite s → checks s = Rejected e → run_phase s = Ending →
  (∀ f, i ≠ EndDone f) →
  run_phase (step self suite s i) = Ending.
Proof.
  intros Hs Hc Hp Hi.
  destruct (failed_shape self suite s e Hs Hc) as (_ & _ & Hq & _).
  assert (run_phase s ≠ Waiting) as Hnw by by rewrite Hp.
  destruct i as [f | f | response | topic raw | h | h response | f];
    try (by destruct (Hi f));
    try (unfold step, react; rewrite Hp;
         rewrite resume_run_idle by (by destruct f || by destruct response);
         by destruct f || by destruct response).
  all: match goal with |- run_phase (step _ _ _ ?i) = _ =>
         destruct (quiet_step self suite s i Hq Hnw I)
           as [-> | [[x ->] | [_ [m ->]]]]; done
       end.
Qed.

Lemma ending_fold ins : ∀ s e,
  inv self suite s → checks s = Rejected e → run_phase s = Ending →
  Forall (λ i, ∀ f, i ≠ EndDone f) ins →
  run_phase (fold_left (step self suite) ins s) = Ending.
Proof.
  induction ins as [| i ins IH]; intros s e Hs Hc Hp Hins; [done |].
  apply Forall_cons in Hins as [Hi Hins]. cbn [fold_left].
  apply (IH _ e); [by apply inv_step | | by eapply ending_step | done].
  destruct (step_answered self suite s i) as (_ & -> & _); [| done].
  right. by rewrite Hp.
Qed.

Lemma timeout_events s h r c :
  timers s !! h = Some (r, c) →
  ∃ l, events (step self suite s (TimerFired h))
       = events s ++ CHECK_FAILED (Some c) (JStr "Reached timeout")
         :: CHECK_FINISHED (Some c) :: l.
Proof.
  intros Hh. unfold step.
  assert (react self suite (TimerFired h) s
          = on_timeout r c (set_timers (delete h (timers s)) s)) as ->.
  { unfold react. rewrite Hh. by destruct (run_phase s). }
  destruct (grows_resume_run any_check is_object
              (on_timeout r c (set_timers (delete h (timers s)) s)))
    as [(l & -> & _) _].
  exists l. unfold on_timeout. rewrite !emit_events.
  by rewrite <- !app_assoc.
Qed.
End Outcomes.

(** X19. When the trigger request fails, the command prints [ERROR] and
    nothing else and sets no exit code, whatever happens afterwards; and
    [run()] returns as soon as the disconnect succeeds, so that the command
    ends as a success. *)
Theorem failed_trigger_request_exits_quietly self suite ins1 e ins2 :
  run_phase (exec self suite ins1) = Triggering →
  let s := exec self suite (ins1 ++ TriggerDone (inl e) :: ins2) in
  listeners (events s) fresh_process = inr (Process None [[Text "ERROR"]]) ∧
  (Forall (λ i, ∀ f, i ≠ EndDone f) ins2 →
   run_phase (exec self suite
                (ins1 ++ TriggerDone (inl e) :: ins2 ++ [EndDone None]))
   = Returned).
Proof.
  intros Hp s.
  pose proof (inv_exec self suite ins1) as Hs1.
  destruct (trigger_failed_step self suite _ e Hp) as [Hc1 Hp1].
  pose proof (inv_step self suite _ (TriggerDone (inl e)) Hs1) as Hs2.
  split.
  - assert (checks s = Rejected e) as Hc.
    { subst s. rewrite exec_app. cbn [fold_left].
      destruct (fold_answered self suite ins2
                  (step self suite (exec self suite ins1) (TriggerDone (inl e))))
        as (_ & -> & _); [| done].
      right. by rewrite Hp1. }
    destruct (failed_shape self suite s e (inv_exec self suite _) Hc)
      as (_ & _ & _ & mid & mid2 & mid3 & Htr & Hm & Hm2 & Hm3).
    assert (events s = [ERROR e]) as ->; [| done].
    unfold events.
    rewrite Htr, events_of_app, (events_of_triggered self suite) by done.
    change (events_of (Emit (ERROR e) :: End :: mid3))
      with (ERROR e :: events_of mid3).
    by rewrite (events_of_threw mid3).
  - intros Hins.
    change (TriggerDone (inl e) :: ins2 ++ [EndDone None])
      with ([TriggerDone (inl e)] ++ ins2 ++ [EndDone None]).
    rewrite exec_app, !fold_left_app. cbn [fold_left].
    pose proof (ending_fold self suite ins2 _ e Hs2 Hc1 Hp1 Hins) as Hend.
    unfold step at 1, react. rewrite Hend. by rewrite resume_run_idle.
Qed.

Lemma failed_trigger_request_exits_quietly_witness :
  let ins1 := [ConnectDone None; SubscribeDone None] in
  let ins2 := [Message (topic_of "r1" "run-start") (Json JNull)] in
  let e := Failure "ECONNRESET" in
  run_phase (exec sample_runner "suite" ins1) = Triggering ∧
  let s := exec sample_runner "suite" (ins1 ++ TriggerDone (inl e) :: ins2) in
  listeners (events s) fresh_process = inr (Process None [[Text "ERROR"]]) ∧
  (Forall (λ i, ∀ f, i ≠ EndDone f) ins2 →
   run_phase (exec sample_runner "suite"
                (ins1 ++ TriggerDone (inl e) :: ins2 ++ [EndDone None]))
   = Returned).
Proof.
  split; [reflexivity |].
  apply (failed_trigger_request_exits_quietly sample_runner "suite"
           [ConnectDone None; SubscribeDone None] (Failure "ECONNRESET")
           [Message (topic_of "r1" "run-start") (Json JNull)]).
  reflexivity.
Defined.

(** X20. A check that runs into its timeout makes the command fail: once
    an armed timer has fired, the exit code is 1, whatever else happens in
    the run. *)
Theorem timed_out_check_fails_the_command self suite ins h r c rest :
  timers (exec self suite ins) !! h = Some (r, c) →
  ∃ p,
    listeners (events (exec self suite (ins ++ TimerFired h :: rest)))
              fresh_process = inr p ∧
    exitCode p = Some 1%Z.
Proof.
  intros Hh.
  destruct (object_results_exec self suite (ins ++ TimerFired h :: rest))
    as [Hev _ _ _].
  destruct (listeners_exit_code _ fresh_process Hev) as (p & Hp & E).
  exists p. split; [done |]. rewrite E.
  assert (existsb reports_failure
            (events (exec self suite (ins ++ TimerFired h :: rest))) = true)
    as ->; [| done].
  rewrite exec_app. cbn [fold_left].
  destruct (timeout_events self suite _ h r c Hh) as (l & El).
  destruct (object_results_fold self suite rest
              (step self suite (exec self suite ins) (TimerFired h)))
    as [_ [(l' & -> & _) _]].
  { rewrite <- exec_snoc. apply object_results_exec. }
  rewrite El, !existsb_app. cbn [existsb reports_failure].
  by rewrite orb_true_r.
Qed.

Lemma timed_out_check_fails_the_command_witness :
  timers (exec sample_runner "suite" sample_start) !! 1
  = Some (Some "r2", check_B) ∧
  ∃ p,
    listeners (events (exec sample_runner "suite"
                         (sample_start ++ TimerFired 1 :: [])))
              fresh_process = inr p ∧
    exitCode p = Some 1%Z.
Proof.
  split; [reflexivity |].
  apply (timed_out_check_fails_the_command sample_runner "suite" sample_start
           1 (Some "r2") check_B []).
  reflexivity.
Defined.

(** * Constructs, the project and the session *)

Lemma addResource_own type k logicalId resource p :
  data_slot type = Own k → logicalId ≠ "__proto__" →
  addResource type logicalId resource p
  = Done (set_data (data_set k (<[logicalId := resource]>
                                  (data_get k (data p))) (data p)) p).
Proof.
  intros H Hid. unfold addResource. rewrite H.
  by destruct (String.eqb_spec logicalId "__proto__").
Qed.

Lemma data_get_set k m d : data_get k (data_set k m d) = m.
Proof. by destruct k. Qed.

Lemma data_get_set_ne k k' m d :
  k' ≠ k → data_get k' (data_set k m d) = data_get k' d.
Proof. by destruct k, k'. Qed.

Lemma syn_get_synthesize k p :
  syn_get k (synthesize p) = synthesizeRecord (data_get k (data p)).
Proof. by destruct k. Qed.

(** X21. A resource added to the project is what [synthesize()] gives
    for its type and logical id, whether or not another one was there before;
    the other logical ids, the records of the other types and the fields of
    the project are as they were. *)
Theorem added_resource_is_synthesized type k logicalId resource p :
  data_slot type = Own k →
  logicalId ≠ "__proto__" →
  ∃ p',
    addResource type logicalId resource p = Done p' ∧
    syn_get k (synthesize p') !! logicalId = Some (c_synthesize resource) ∧
    (∀ other, other ≠ logicalId →
              syn_get k (synthesize p') !! other
              = syn_get k (synthesize p) !! other) ∧
    (∀ k', k' ≠ k → syn_get k' (synthesize p') = syn_get k' (synthesize p)) ∧
    syn_project (synthesize p') = syn_project (synthesize p).
Proof.
  intros Hk Hid. eexists. split; [by apply addResource_own |].
  rewrite !syn_get_synthesize. cbn [data set_data].
  rewrite data_get_set. unfold synthesizeRecord.
  split_and!.
  - by rewrite lookup_fmap, lookup_insert_eq.
  - intros other Hne. by rewrite !lookup_fmap, lookup_insert_ne.
  - intros k' Hne. rewrite !syn_get_synthesize. cbn [data set_data].
    by rewrite data_get_set_ne.
  - done.
Qed.

Lemma added_resource_is_synthesized_witness :
  let c := {| c_type := "checks"; c_logicalId := "homepage";
              c_allowInChecklyConfig := false; c_className := "BrowserCheck";
              c_synthesize := JObj [("name", JStr "Homepage")] |} in
  let p := {| project_name := "shop"; project_repoUrl := None;
              project_logicalId := "shop-project";
              data := {| data_checks := ∅; data_groups := ∅;
                         data_alertChannels := ∅;
                         data_alertChannelSubscriptions := ∅ |} |} in
  data_slot "checks" = Own Checks ∧
  "homepage" ≠ "__proto__" ∧
  ∃ p',
    addResource "checks" "homepage" c p = Done p' ∧
    syn_get Checks (synthesize p') !! "homepage" = Some (c_synthesize c) ∧
    (∀ other, other ≠ "homepage" →
              syn_get Checks (synthesize p') !! other
              = syn_get Checks (synthesize p) !! other) ∧
    (∀ k', k' ≠ Checks →
           syn_get k' (synthesize p') = syn_get k' (synthesize p)) ∧
    syn_project (synthesize p') = syn_project (synthesize p).
Proof.
  split; [reflexivity |]. split; [done |].
  apply (added_resource_is_synthesized "checks" Checks "homepage");
    [reflexivity | done].
Defined.

(** X22. Two resources of the same type and logical id do not clash:
    the second replaces the first without an error, and the project is the
    one that the second alone would have given. *)
Theorem same_logical_id_replaces type k logicalId first second p :
  data_slot type = Own k →
  logicalId ≠ "__proto__" →
  ∃ p1 p2,
    addResource type logicalId first p = Done p1 ∧
    addResource type logicalId second p1 = Done p2 ∧
    addResource type logicalId second p = Done p2 ∧
    syn_get k (synthesize p2) !! logicalId = Some (c_synthesize second).
Proof.
  intros Hk Hid. eexists. eexists.
  split; [by apply addResource_own |].
  split; [by apply addResource_own |].
  split.
  - rewrite (addResource_own _ k) by done. f_equal.
    cbn [data set_data]. rewrite data_get_set, insert_insert_eq.
    unfold set_data. cbn. f_equal. by destruct k.
  - rewrite syn_get_synthesize. cbn [data set_data].
    rewrite !data_get_set. unfold synthesizeRecord.
    by rewrite lookup_fmap, lookup_insert_eq.
Qed.

Lemma same_logical_id_replaces_witness :
  let c1 := {| c_type := "groups"; c_logicalId := "api";
               c_allowInChecklyConfig := false; c_className := "CheckGroup";
               c_synthesize := JStr "first" |} in
  let c2 := {| c_type := "groups"; c_logicalId := "api";
               c_allowInChecklyConfig := false; c_className := "CheckGroup";
               c_synthesize := JStr "second" |} in
  let p := {| project_name := "shop"; project_repoUrl := None;
              project_logicalId := "shop-project";
              data := {| data_checks := ∅; data_groups := ∅;
                         data_alertChannels := ∅;
                         data_alertChannelSubscriptions := ∅ |} |} in
  data_slot "groups" = Own Groups ∧
  "api" ≠ "__proto__" ∧
  ∃ p1 p2,
    addResource "groups" "api" c1 p = Done p1 ∧
    addResource "groups" "api" c2 p1 = Done p2 ∧
    addResource "groups" "api" c2 p = Done p2 ∧
    syn_get Groups (synthesize p2) !! "api" = Some (c_synthesize c2).
Proof.
  split; [reflexivity |]. split; [done |].
  apply (same_logical_id_replaces "groups" Groups "api");
    [reflexivity | done].
Defined.

(** X23. For a construct that is no project and has a valid logical id,
    the two checks of the session agree: [validateCreateConstruct] rejects it
    exactly when [registerConstruct] throws its internal error, that is when
    no project is set and the configuration file is not being loaded or does
    not allow the construct. *)
Theorem session_checks_agree construct s :
  valid_logicalId (c_logicalId construct) = true →
  c_type construct ≠ Project_checklyType →
  (validateCreateConstruct construct s ≠ None ↔
   registerConstruct construct s = Throws (Error internal_error)) ∧
  (validateCreateConstruct construct s ≠ None ↔
   session_project s = None ∧
   (loadingChecklyConfigFile s = false ∨
    c_allowInChecklyConfig construct = false)) ∧
  (∀ e, validateCreateConstruct construct s = Some e →
        e = Error (if loadingChecklyConfigFile s
                   then not_in_config (c_className construct)
                   else unexpected_error)).
Proof.
  intros Hid Hty.
  unfold validateCreateConstruct, registerConstruct. rewrite Hid. cbn [negb].
  destruct (String.eqb_spec (c_type construct) Project_checklyType); [done |].
  destruct (session_project s) as [project |] eqn:Hp.
  - rewrite bool_decide_eq_true_2 by eauto.
    split_and!; [| split; [done | by intros [[=] _]] | done].
    split; [done |].
    unfold addResource.
    by destruct (data_slot _), (String.eqb (c_logicalId construct) "__proto__").
  - rewrite bool_decide_eq_false_2 by by intros [? [=]].
    destruct (loadingChecklyConfigFile s), (c_allowInChecklyConfig construct);
      cbn [andb].
    + split_and!; [| split; [done | by intros [_ [[=] | [=]]]] | done].
      split; [done |]. by destruct (checklyConfigFileConstructs s).
    + split_and!; [done | split; [by eauto | done] | by intros e [= <-]].
    + split_and!; [done | split; [by eauto | done] | by intros e [= <-]].
    + split_and!; [done | split; [by eauto | done] | by intros e [= <-]].
Qed.

Lemma session_checks_agree_witness :
  let c := {| c_type := "checks"; c_logicalId := "homepage/check#1";
              c_allowInChecklyConfig := false; c_className := "BrowserCheck";
              c_synthesize := JNull |} in
  let s := {| session_project := None; loadingChecklyConfigFile := true;
              checklyConfigFileConstructs := Some [] |} in
  valid_logicalId (c_logicalId c) = true ∧
  c_type c ≠ Project_checklyType ∧
  (validateCreateConstruct c s ≠ None ↔
   registerConstruct c s = Throws (Error internal_error)) ∧
  (validateCreateConstruct c s ≠ None ↔
   session_project s = None ∧
   (loadingChecklyConfigFile s = false ∨ c_allowInChecklyConfig c = false)) ∧
  (∀ e, validateCreateConstruct c s = Some e →
        e = Error (if loadingChecklyConfigFile s
                   then not_in_config (c_className c)
                   else unexpected_error)).
Proof.
  split; [reflexivity |]. split; [done |].
  apply (session_checks_agree
           {| c_type := "checks"; c_logicalId := "homepage/check#1";
              c_allowInChecklyConfig := false; c_className := "BrowserCheck";
              c_synthesize := JNull |}
           {| session_project := None; loadingChecklyConfigFile := true;
              checklyConfigFileConstructs := Some [] |});
    [reflexivity | done].
Defined.

(** * The templates of a browser check *)


